(** * Steam data project: harvest engine, checkpoint store and normalization

    A shallow embedding of the Python sources
    [checkpoint.py], [steamspy_scraper.py], [steam_api_scraper_v2.py],
    [steam_api_scraper.py], [steam_tags_scraper.py],
    [steam_store_scraper_v2.py], [insert_app_details.py] and
    [insert_tags.py], followed by the properties proved about them.

    Conventions.
    - A Python [int] is a [Z]; a [set[int]] is a [gset Z]; a [dict] whose
      iteration order is never observed is a [gmap]; a [dict] whose
      iteration order reaches the output is an insertion-ordered
      association list ([odict], below).
    - A [datetime] is the number of microseconds since the epoch, a [Z].
    - The network, the clock and the interruption signal are oracles that
      the functions read through an explicit request counter.
    - [list(s)] for a Python set [s] enumerates [s] in an order the language
      leaves open; it is an explicit parameter wherever it reaches a
      result. *)

From Stdlib Require Import ZArith.
From Stdlib.Strings Require Import Byte.
From stdpp Require Import gmap strings list sets fin_maps pretty sorting.

Local Open Scope Z_scope.

(** ** Python values that reach the checkpoint store *)

Module pyvalues.

(** [checkpoint.BaseCheckpoint] *)
Record BaseCheckpoint := mkBase {
  started_at : option Z;
  last_saved_at : option Z
}.

(** [BaseCheckpoint.mark_started], with [datetime.now()] passed in. *)
Definition mark_started (now : Z) (b : BaseCheckpoint) : BaseCheckpoint :=
  match started_at b with
  | None => mkBase (Some now) (last_saved_at b)
  | Some _ => b
  end.

(** [steamspy_scraper.SteamSpyCheckpoint]; [StorePageCheckpoint] of
    [steam_store_scraper_v2.py] has the same fields and methods. *)
Record SteamSpyCheckpoint := mkSpy {
  spy_base : BaseCheckpoint;
  app_ids_to_scrape : list Z;
  completed_ids : gset Z;
  no_data_ids : gset Z;
  failed_ids : gmap Z string
}.

(** [steam_api_scraper_v2.SteamAPICheckpoint]; a raw payload is kept as
    the text of its document. *)
Record SteamAPICheckpoint := mkApi {
  api_base : BaseCheckpoint;
  apps_data : gmap Z string;
  excluded_apps : gset Z;
  error_apps : gset Z
}.

(** The objects the scrapers hand to [pickle]. *)
Inductive pyobj :=
  | PySpy (c : SteamSpyCheckpoint)
  | PyApi (c : SteamAPICheckpoint)
  | PyDict (d : gmap Z string)
  | PyTags (d : gmap Z (list string))
  | PySet (s : gset Z).

Inductive pytype := TSteamSpyCheckpoint | TSteamAPICheckpoint | TBaseCheckpoint | TDict | TSet.

(** [isinstance(data, expected_type)]: both checkpoint classes derive from
    [BaseCheckpoint]. *)
Definition isinstance (v : pyobj) (t : pytype) : bool :=
  match v, t with
  | PySpy _, TSteamSpyCheckpoint => true
  | PySpy _, TBaseCheckpoint => true
  | PyApi _, TSteamAPICheckpoint => true
  | PyApi _, TBaseCheckpoint => true
  | PyDict _, TDict => true
  | PyTags _, TDict => true
  | PySet _, TSet => true
  | _, _ => false
  end.

(** [hasattr(data, 'last_saved_at')] *)
Definition hasattr_last_saved_at (v : pyobj) : bool :=
  match v with
  | PySpy _ | PyApi _ => true
  | PyDict _ | PyTags _ | PySet _ => false
  end.

Definition set_base_last_saved_at (t : Z) (b : BaseCheckpoint) : BaseCheckpoint :=
  mkBase (started_at b) (Some t).

(** [data.last_saved_at = t] on an object that has the attribute. *)
Definition setattr_last_saved_at (t : Z) (v : pyobj) : pyobj :=
  match v with
  | PySpy c =>
      PySpy (mkSpy (set_base_last_saved_at t (spy_base c)) (app_ids_to_scrape c)
                   (completed_ids c) (no_data_ids c) (failed_ids c))
  | PyApi c =>
      PyApi (mkApi (set_base_last_saved_at t (api_base c)) (apps_data c)
                   (excluded_apps c) (error_apps c))
  | PyDict _ | PyTags _ | PySet _ => v
  end.

(** [data.last_saved_at], when the attribute exists. *)
Definition getattr_last_saved_at (v : pyobj) : option (option Z) :=
  match v with
  | PySpy c => Some (last_saved_at (spy_base c))
  | PyApi c => Some (last_saved_at (api_base c))
  | PyDict _ | PyTags _ | PySet _ => None
  end.

(** Every attribute of the object other than [last_saved_at]. *)
Inductive other_fields :=
  | SpyRest (started : option Z) (ids : list Z) (completed no_data : gset Z) (failed : gmap Z string)
  | ApiRest (started : option Z) (apps : gmap Z string) (excluded errors : gset Z)
  | DictAll (d : gmap Z string)
  | TagsAll (d : gmap Z (list string))
  | SetAll (s : gset Z).

Definition fields_but_last_saved_at (v : pyobj) : other_fields :=
  match v with
  | PySpy c => SpyRest (started_at (spy_base c)) (app_ids_to_scrape c)
                       (completed_ids c) (no_data_ids c) (failed_ids c)
  | PyApi c => ApiRest (started_at (api_base c)) (apps_data c) (excluded_apps c) (error_apps c)
  | PyDict d => DictAll d
  | PyTags d => TagsAll d
  | PySet s => SetAll s
  end.

End pyvalues.
Export pyvalues.

(** ** [pickle]

    [pickle.dump] and [pickle.load] belong to the Python standard library.
    They enter as an interface: a byte encoding that [loads] inverts, and an
    empty input on which [loads] raises ([EOFError]; [None] here). *)

Class Pickle := {
  dumps : pyobj → list byte;
  loads : list byte → option pyobj;
  loads_dumps : ∀ v, loads (dumps v) = Some v;
  loads_nil : loads [] = None
}.

(** ** checkpoint.py *)

Module checkpoint.
Section manager.
Context `{Pickle}.

Record CheckpointManager := mkManager { directory : string }.

(** [CheckpointManager._get_path] *)
Definition _get_path (self : CheckpointManager) (name : string) : string :=
  directory self +:+ "/" +:+ name +:+ ".pkl".

(** The file system: path to content. *)
Abbreviation files := (gmap string (list byte)).

(** The value-level core of [CheckpointManager.save]: the object as it is
    after the call, and the file system after the file is closed. *)
Definition save_value (self : CheckpointManager) (name : string) (data : pyobj)
    (now : Z) (fs : files) : pyobj * files :=
  let path := _get_path self name in
  let data' := if hasattr_last_saved_at data then setattr_last_saved_at now data else data in
  (data', <[path := dumps data']> fs).

(** Objects live in a heap; the caller passes a reference. *)
Record world := mkWorld {
  heap : gmap nat pyobj;
  disk : files
}.

(** [CheckpointManager.save(name, data)], [datetime.now()] passed in. A
    dangling reference cannot be written in Python; the world is then left
    as it is. *)
Definition save (self : CheckpointManager) (name : string) (data : nat)
    (now : Z) (w : world) : world :=
  match heap w !! data with
  | Some v =>
      let '(v', fs') := save_value self name v now (disk w) in
      mkWorld (<[data := v']> (heap w)) fs'
  | None => w
  end.

(** What the file system holds while [save] runs: [open(path, 'wb')]
    truncates the file, then [pickle.dump] appends the bytes; the state with
    index [k] holds the first [k] bytes. The last state is the one [save]
    leaves. *)
Definition write_states (path : string) (content : list byte) (fs : files) : list files :=
  (λ k, <[path := take k content]> fs) <$> seq 0 (S (length content)).

Definition save_states (self : CheckpointManager) (name : string) (data : pyobj)
    (now : Z) (fs : files) : list files :=
  let data' := if hasattr_last_saved_at data then setattr_last_saved_at now data else data in
  write_states (_get_path self name) (dumps data') fs.

Inductive load_error :=
  | TypeError (name : string) (found : pyobj) (expected : pytype)
  | UnpicklingError.

(** [CheckpointManager.load(name, expected_type)]: [inr None] is the
    "absent" result. *)
Definition load (self : CheckpointManager) (name : string)
    (expected_type : option pytype) (fs : files) : load_error + option pyobj :=
  let path := _get_path self name in
  match fs !! path with
  | None => inr None
  | Some content =>
      match loads content with
      | None => inl UnpicklingError
      | Some data =>
          match expected_type with
          | Some t => if isinstance data t then inr (Some data) else inl (TypeError name data t)
          | None => inr (Some data)
          end
      end
  end.

(** [CheckpointManager.exists] *)
Definition exists_ (self : CheckpointManager) (name : string) (fs : files) : bool :=
  bool_decide (is_Some (fs !! _get_path self name)).

(** [CheckpointManager.delete] *)
Definition delete_ (self : CheckpointManager) (name : string) (fs : files) : bool * files :=
  let path := _get_path self name in
  if bool_decide (is_Some (fs !! path)) then (true, delete path fs) else (false, fs).

End manager.
End checkpoint.

(** ** An instance of the [pickle] interface

    A unary byte code over stdpp's enumeration of [pyobj]. It shows that the
    interface is inhabited and gives the closed examples below a codec to
    run on. *)

Module unary_pickle.

#[local] Instance BaseCheckpoint_eq_dec : EqDecision BaseCheckpoint.
Proof. solve_decision. Defined.
#[local] Instance SteamSpyCheckpoint_eq_dec : EqDecision SteamSpyCheckpoint.
Proof. solve_decision. Defined.
#[local] Instance SteamAPICheckpoint_eq_dec : EqDecision SteamAPICheckpoint.
Proof. solve_decision. Defined.
#[local] Instance pyobj_eq_dec : EqDecision pyobj.
Proof. solve_decision. Defined.

Abbreviation spy_repr := (option Z * option Z * list Z * gset Z * gset Z * gmap Z string)%type.
Abbreviation api_repr := (option Z * option Z * gmap Z string * gset Z * gset Z)%type.
Abbreviation pyobj_repr :=
  (spy_repr + api_repr + gmap Z string + gmap Z (list string) + gset Z)%type.

Definition to_repr (v : pyobj) : pyobj_repr :=
  match v with
  | PySpy c => inl (inl (inl (inl (started_at (spy_base c), last_saved_at (spy_base c),
                              app_ids_to_scrape c, completed_ids c, no_data_ids c, failed_ids c))))
  | PyApi c => inl (inl (inl (inr (started_at (api_base c), last_saved_at (api_base c),
                              apps_data c, excluded_apps c, error_apps c))))
  | PyDict d => inl (inl (inr d))
  | PyTags d => inl (inr d)
  | PySet s => inr s
  end.

Definition of_repr (r : pyobj_repr) : pyobj :=
  match r with
  | inl (inl (inl (inl (s, l, ids, c, n, f)))) => PySpy (mkSpy (mkBase s l) ids c n f)
  | inl (inl (inl (inr (s, l, a, e, r)))) => PyApi (mkApi (mkBase s l) a e r)
  | inl (inl (inr d)) => PyDict d
  | inl (inr d) => PyTags d
  | inr s => PySet s
  end.

Lemma of_to_repr v : of_repr (to_repr v) = v.
Proof. by destruct v as [[[]]|[[]]| | |]. Qed.

#[local] Instance pyobj_countable : Countable pyobj :=
  inj_countable' to_repr of_repr of_to_repr.

Definition one : byte := x01.

Definition unary_dumps (v : pyobj) : list byte :=
  replicate (Pos.to_nat (encode v)) one.

Definition unary_loads (bs : list byte) : option pyobj :=
  match bs with
  | [] => None
  | _ => if forallb (λ b, Byte.eqb b one) bs then decode (Pos.of_nat (length bs)) else None
  end.

Lemma forallb_replicate_one n : forallb (λ b, Byte.eqb b one) (replicate n one) = true.
Proof. induction n as [|n IH]; [done|]. simpl. exact IH. Qed.

Lemma unary_loads_dumps v : unary_loads (unary_dumps v) = Some v.
Proof.
  unfold unary_loads, unary_dumps.
  destruct (Pos2Nat.is_succ (encode v)) as [n Hn]. rewrite Hn.
  change (replicate (S n) one) with (one :: replicate n one).
  cbv beta iota.
  change (one :: replicate n one) with (replicate (S n) one).
  rewrite forallb_replicate_one, length_replicate, <- Hn, Pos2Nat.id.
  apply decode_encode.
Qed.

#[export] Instance unary : Pickle :=
  {| dumps := unary_dumps; loads := unary_loads;
     loads_dumps := unary_loads_dumps; loads_nil := eq_refl |}.

End unary_pickle.

(** ** The outside world seen by the scrapers *)

Module world.

(** What one call of [session.get] / [requests.get] does: it answers with a
    status code and a body, or raises. [RequestError] stands for any
    [requests.RequestException] other than [Timeout]; its message is
    [str(e)]. [KeyboardInterrupt] is the interruption signal, which Python
    raises inside whatever call is running. *)
Inductive http_event (body : Type) :=
  | Response (status : Z) (b : body)
  | Timeout
  | RequestError (msg : string)
  | KeyboardInterrupt.
Arguments Response {body} status b.
Arguments Timeout {body}.
Arguments RequestError {body} msg.
Arguments KeyboardInterrupt {body}.

(** The [n]-th HTTP request of the process gets [net n]; the [n]-th call of
    [datetime.now()] gets [clock n]. *)
Record env (body : Type) := mkEnv {
  net : nat → http_event body;
  clock : nat → Z
}.
Arguments mkEnv {body} net clock.
Arguments net {body} e n.
Arguments clock {body} e n.

(** What a fetch function hands to the engine: a payload, [None], an
    exception derived from [requests.RequestException] with its message, or
    the interruption signal passing through. *)
Inductive fetch_result :=
  | Payload (doc : string)
  | NoData
  | Raised (reason : string)
  | Interrupted.

(** [l[:n]] *)
Definition slice_to {A} (l : list A) (n : Z) : list A :=
  if n <? 0 then take (Z.to_nat (Z.of_nat (length l) + n)) l else take (Z.to_nat n) l.

End world.
Export world.

(** ** steamspy_scraper.py *)

Module steamspy_scraper.
Section scraper.
Context `{Pickle}.

Record ScraperConfig := mkConfig {
  checkpoint_dir : string;
  steam_checkpoint_file : string;
  checkpoint_interval : Z;
  max_retries : Z;
  test_mode : bool;
  test_limit : Z
}.

(** [SteamSpyCheckpoint.get_pending] *)
Definition get_pending (self : SteamSpyCheckpoint) : list Z :=
  let done := completed_ids self ∪ no_data_ids self ∪ dom (failed_ids self) in
  filter (λ appid, appid ∉ done) (app_ids_to_scrape self).

(** [SteamSpyCheckpoint.total], [processed], [remaining] *)
Definition total (self : SteamSpyCheckpoint) : Z :=
  Z.of_nat (length (app_ids_to_scrape self)).
Definition processed (self : SteamSpyCheckpoint) : Z :=
  Z.of_nat (size (completed_ids self)) + Z.of_nat (size (no_data_ids self))
  + Z.of_nat (size (failed_ids self)).
Definition remaining (self : SteamSpyCheckpoint) : Z := total self - processed self.

(** The JSON document of a 200 answer, as far as the code looks at it:
    whether it is falsy ([not data]) and what [data.get('name')] gives. *)
Record spy_body := mkBody {
  body_doc : string;
  body_falsy : bool;
  body_name : option string
}.

Definition name_is_missing (name : option string) : bool :=
  match name with
  | None => true
  | Some s => bool_decide (s = "") || bool_decide (s = "None")
  end.

(** The [for attempt in range(max_retries)] loop of
    [SteamSpyAPI.get_app_details]; [attempts] iterations are left and [n]
    requests have been made. Returns the result and the request count. *)
Fixpoint get_app_details_loop (network : nat → http_event spy_body) (appid : Z)
    (attempts : nat) (n : nat) : fetch_result * nat :=
  match attempts with
  | O => (Raised ("Max retries exceeded for appid " +:+ pretty appid), n)
  | S attempts' =>
      match network n with
      | Response status data =>
          if status =? 200 then
            if body_falsy data || name_is_missing (body_name data)
            then (NoData, S n)
            else (Payload (body_doc data), S n)
          else if status =? 429 then get_app_details_loop network appid attempts' (S n)
          else (NoData, S n)
      | Timeout => get_app_details_loop network appid attempts' (S n)
      | RequestError msg => (Raised msg, S n)
      | KeyboardInterrupt => (Interrupted, S n)
      end
  end.

(** [SteamSpyAPI.get_app_details] *)
Definition get_app_details (config : ScraperConfig) (network : nat → http_event spy_body)
    (appid : Z) (n : nat) : fetch_result * nat :=
  get_app_details_loop network appid (Z.to_nat (max_retries config)) n.

(** The scraper object together with the parts of the world it changes. *)
Record SteamSpyScraper := mkScraper {
  checkpoint : SteamSpyCheckpoint;
  disk : gmap string (list byte);
  output_file : list (Z * Z * string);
  requests : nat;
  ticks : nat
}.

Definition CHECKPOINT_NAME : string := "steamspy".

Definition checkpoint_mgr (config : ScraperConfig) : checkpoint.CheckpointManager :=
  checkpoint.mkManager (checkpoint_dir config).

Definition with_checkpoint (c : SteamSpyCheckpoint) (self : SteamSpyScraper) : SteamSpyScraper :=
  mkScraper c (disk self) (output_file self) (requests self) (ticks self).

(** [SteamSpyScraper._save_checkpoint]; [save] sets [last_saved_at] on
    [self.checkpoint] itself. *)
Definition _save_checkpoint (config : ScraperConfig) (e : env spy_body)
    (self : SteamSpyScraper) : SteamSpyScraper :=
  let '(data', fs') :=
    checkpoint.save_value (checkpoint_mgr config) CHECKPOINT_NAME (PySpy (checkpoint self))
      (clock e (ticks self)) (disk self) in
  match data' with
  | PySpy c' => mkScraper c' fs' (output_file self) (requests self) (S (ticks self))
  | _ => self
  end.

(** [SteamSpyScraper._append_result] *)
Definition _append_result (e : env spy_body) (appid : Z) (data : string)
    (self : SteamSpyScraper) : SteamSpyScraper :=
  mkScraper (checkpoint self) (disk self)
    (output_file self ++ [(appid, clock e (ticks self), data)])
    (requests self) (S (ticks self)).

Definition add_completed (appid : Z) (c : SteamSpyCheckpoint) : SteamSpyCheckpoint :=
  mkSpy (spy_base c) (app_ids_to_scrape c) ({[appid]} ∪ completed_ids c)
        (no_data_ids c) (failed_ids c).
Definition add_no_data (appid : Z) (c : SteamSpyCheckpoint) : SteamSpyCheckpoint :=
  mkSpy (spy_base c) (app_ids_to_scrape c) (completed_ids c)
        ({[appid]} ∪ no_data_ids c) (failed_ids c).
Definition set_failed (appid : Z) (reason : string) (c : SteamSpyCheckpoint) : SteamSpyCheckpoint :=
  mkSpy (spy_base c) (app_ids_to_scrape c) (completed_ids c)
        (no_data_ids c) (<[appid := reason]> (failed_ids c)).

Definition with_requests (n : nat) (self : SteamSpyScraper) : SteamSpyScraper :=
  mkScraper (checkpoint self) (disk self) (output_file self) n (ticks self).

(** The inner [try] of the loop body of [run]: fetch and classify.
    [None] when the interruption signal passes through. *)
Definition fetch_and_record (config : ScraperConfig) (e : env spy_body) (appid : Z)
    (self : SteamSpyScraper) : option SteamSpyScraper :=
  let '(r, n) := get_app_details config (net e) appid (requests self) in
  let self := with_requests n self in
  match r with
  | Payload data =>
      let self := _append_result e appid data self in
      Some (with_checkpoint (add_completed appid (checkpoint self)) self)
  | NoData => Some (with_checkpoint (add_no_data appid (checkpoint self)) self)
  | Raised reason => Some (with_checkpoint (set_failed appid reason (checkpoint self)) self)
  | Interrupted => None
  end.

Inductive loop_exit :=
  | Exhausted
  | Interrupt
  | ZeroDivisionError.

(** One pass through the body of [for i, appid in enumerate(pending, 1)]:
    the state after it, or the way the loop is left. *)
Definition loop_body (config : ScraperConfig) (e : env spy_body) (i : Z) (appid : Z)
    (self : SteamSpyScraper) : SteamSpyScraper * option loop_exit :=
  match fetch_and_record config e appid self with
  | None => (with_requests (snd (get_app_details config (net e) appid (requests self))) self,
             Some Interrupt)
  | Some self' =>
      if checkpoint_interval config =? 0 then (self', Some ZeroDivisionError)
      else if i `mod` checkpoint_interval config =? 0
           then (_save_checkpoint config e self', None)
           else (self', None)
  end.

(** The [for] loop of [run]. *)
Fixpoint run_loop (config : ScraperConfig) (e : env spy_body) (pending : list Z) (i : Z)
    (self : SteamSpyScraper) : SteamSpyScraper * loop_exit :=
  match pending with
  | [] => (self, Exhausted)
  | appid :: pending' =>
      match loop_body config e i appid self with
      | (self', Some ex) => (self', ex)
      | (self', None) => run_loop config e pending' (i + 1) self'
      end
  end.

(** The states the loop passes through, one after each pass of its body in
    which the fetched ID was recorded. *)
Fixpoint loop_states (config : ScraperConfig) (e : env spy_body) (pending : list Z) (i : Z)
    (self : SteamSpyScraper) : list SteamSpyScraper :=
  match pending with
  | [] => []
  | appid :: pending' =>
      match loop_body config e i appid self with
      | (self', Some Interrupt) => []
      | (self', Some _) => [self']
      | (self', None) => self' :: loop_states config e pending' (i + 1) self'
      end
  end.

(** [SteamSpyScraper.load_app_ids_from_steam_checkpoint]: [inr None] is
    [False], [inl tt] is [pickle.load] raising. *)
Definition load_app_ids_from_steam_checkpoint (config : ScraperConfig)
    (self : SteamSpyScraper) : unit + option SteamSpyScraper :=
  match disk self !! steam_checkpoint_file config with
  | None => inr None
  | Some content =>
      match loads content with
      | None => inl tt
      | Some (PyApi c) =>
          let c' := checkpoint self in
          inr (Some (with_checkpoint
                 (mkSpy (spy_base c') (map_to_list (apps_data c)).*1 (completed_ids c')
                        (no_data_ids c') (failed_ids c')) self))
      | Some (PyDict d) =>
          let c' := checkpoint self in
          inr (Some (with_checkpoint
                 (mkSpy (spy_base c') (map_to_list d).*1 (completed_ids c')
                        (no_data_ids c') (failed_ids c')) self))
      | Some (PyTags d) =>
          let c' := checkpoint self in
          inr (Some (with_checkpoint
                 (mkSpy (spy_base c') (map_to_list d).*1 (completed_ids c')
                        (no_data_ids c') (failed_ids c')) self))
      | Some _ => inr None
      end
  end.

Inductive run_exit :=
  | NoAppIds
  | UnpicklingFailed
  | AllProcessed
  | LoopLeft (ex : loop_exit).

Definition do_mark_started (e : env spy_body) (self : SteamSpyScraper) : SteamSpyScraper :=
  let c := checkpoint self in
  match started_at (spy_base c) with
  | None =>
      mkScraper (mkSpy (mark_started (clock e (ticks self)) (spy_base c)) (app_ids_to_scrape c)
                       (completed_ids c) (no_data_ids c) (failed_ids c))
                (disk self) (output_file self) (requests self) (S (ticks self))
  | Some _ => self
  end.

(** What [run] does from [pending = self.checkpoint.get_pending()] on. *)
Definition run_pending (config : ScraperConfig) (e : env spy_body)
    (self : SteamSpyScraper) : SteamSpyScraper * run_exit :=
  let pending := get_pending (checkpoint self) in
  match pending with
  | [] => (self, AllProcessed)
  | _ =>
      let pending := if test_mode config then slice_to pending (test_limit config) else pending in
      let '(self', ex) := run_loop config e pending 1 self in
      (_save_checkpoint config e self', LoopLeft ex)
  end.

(** [SteamSpyScraper.run] *)
Definition run (config : ScraperConfig) (e : env spy_body)
    (self : SteamSpyScraper) : SteamSpyScraper * run_exit :=
  let self := do_mark_started e self in
  match app_ids_to_scrape (checkpoint self) with
  | [] =>
      match load_app_ids_from_steam_checkpoint config self with
      | inl _ => (self, UnpicklingFailed)
      | inr None => (self, NoAppIds)
      | inr (Some self') => run_pending config e self'
      end
  | _ => run_pending config e self
  end.

(** The states [run] passes through after each per-ID step. *)
Definition run_states (config : ScraperConfig) (e : env spy_body)
    (self : SteamSpyScraper) : list SteamSpyScraper :=
  let self := do_mark_started e self in
  let go self :=
    let pending := get_pending (checkpoint self) in
    let pending := if test_mode config then slice_to pending (test_limit config) else pending in
    loop_states config e pending 1 self in
  match app_ids_to_scrape (checkpoint self) with
  | [] =>
      match load_app_ids_from_steam_checkpoint config self with
      | inr (Some self') => go self'
      | _ => []
      end
  | _ => go self
  end.

(** [SteamSpyCheckpoint()], with [app_ids_to_scrape = app_ids] when
    [app_ids] is truthy ([None] and the empty list are not). *)
Definition fresh_checkpoint (app_ids : option (list Z)) : SteamSpyCheckpoint :=
  mkSpy (mkBase None None) (default [] app_ids) ∅ ∅ ∅.

(** [SteamSpyScraper._load_checkpoint]. An instance of the dataclass is
    truthy, so [if existing] only tells [None] apart; [load] has checked the
    class, so the object it returns is a [SteamSpyCheckpoint]. [inl] is the
    exception of [load]. *)
Definition _load_checkpoint (config : ScraperConfig) (app_ids : option (list Z))
    (fs : gmap string (list byte)) : checkpoint.load_error + SteamSpyCheckpoint :=
  if test_mode config then inr (fresh_checkpoint app_ids)
  else
    match checkpoint.load (checkpoint_mgr config) CHECKPOINT_NAME
            (Some TSteamSpyCheckpoint) fs with
    | inl err => inl err
    | inr (Some (PySpy existing)) => inr existing
    | inr _ => inr (fresh_checkpoint app_ids)
    end.

(** [SteamSpyScraper.__init__] over the file system [fs] and the lines
    [out] that the output file holds; the process has made no request and
    has not read the clock. *)
Definition __init__ (config : ScraperConfig) (app_ids : option (list Z))
    (fs : gmap string (list byte)) (out : list (Z * Z * string))
    : checkpoint.load_error + SteamSpyScraper :=
  match _load_checkpoint config app_ids fs with
  | inl err => inl err
  | inr c => inr (mkScraper c fs out 0 0)
  end.

End scraper.
End steamspy_scraper.

(** ** steam_store_scraper_v2.py: the fetch function *)

Module steam_store_scraper_v2.

(** [SteamStoreAPI.get_store_data]. The body of a 200 answer is the page;
    what reaches the caller is [self.parser.parse(response.text)], a
    document or [None]. *)
Fixpoint get_store_data_loop (network : nat → http_event (option string)) (appid : Z)
    (attempts : nat) (n : nat) : fetch_result * nat :=
  match attempts with
  | O => (Raised ("Max retries exceeded for appid " +:+ pretty appid), n)
  | S attempts' =>
      match network n with
      | Response status parsed =>
          if status =? 200 then
            (match parsed with Some doc => Payload doc | None => NoData end, S n)
          else if status =? 404 then (NoData, S n)
          else if status =? 429 then get_store_data_loop network appid attempts' (S n)
          else if status =? 403 then get_store_data_loop network appid attempts' (S n)
          else (NoData, S n)
      | Timeout => get_store_data_loop network appid attempts' (S n)
      | RequestError msg => (Raised msg, S n)
      | KeyboardInterrupt => (Interrupted, S n)
      end
  end.

Definition get_store_data (max_retries : Z) (network : nat → http_event (option string))
    (appid : Z) (n : nat) : fetch_result * nat :=
  get_store_data_loop network appid (Z.to_nat max_retries) n.

(** *** [StorePageParser]

    [TAG_MODAL_PATTERN.search], [json.loads] and the [BeautifulSoup] walk of
    [_parse_reviews_by_language] belong to libraries; they enter as what
    they return. [value] is a parsed JSON value. *)

Section parser.
Variable value : Type.

(** An element of the parsed array: a [dict], or anything else. *)
Inductive element :=
  | Dict (d : gmap string value)
  | NotADict.

(** What [json.loads] returned: something [for tag in tags] can walk, with
    the elements it yields, or an object that is not iterable. *)
Inductive parsed :=
  | Iterable (elements : list element)
  | NotIterable.

(** [TAG_MODAL_PATTERN.search(html)], then [match.group(1)]. *)
Variable search : string → option string.
(** [json.loads]; [None] is [json.JSONDecodeError]. *)
Variable json_loads : string → option parsed.

(** The list comprehension of [_parse_tags]: [None] is the [KeyError] of
    [tag['name']] or [tag['count']]. *)
Fixpoint clean_up (tags : list element) : option (list (value * value * value)) :=
  match tags with
  | [] => Some []
  | NotADict :: tags' => clean_up tags'
  | Dict tag :: tags' =>
      match tag !! "tagid" with
      | None => clean_up tags'
      | Some tagid =>
          match tag !! "name", tag !! "count" with
          | Some name, Some count =>
              match clean_up tags' with
              | Some rows => Some ((tagid, name, count) :: rows)
              | None => None
              end
          | _, _ => None
          end
      end
  end.

(** [StorePageParser._parse_tags] *)
Definition _parse_tags (html : string) : option (list (value * value * value)) :=
  match search html with
  | None => None
  | Some tags_json =>
      match json_loads tags_json with
      | None => None
      | Some NotIterable => None
      | Some (Iterable tags) => clean_up tags
      end
  end.

(** [StorePageParser.parse]; [reviews] is what [_parse_reviews_by_language]
    returned for the page, [None] or a list. *)
Definition parse {R : Type} (reviews : option (list R)) (html : string)
    : option (option (list (value * value * value)) * option (list R)) :=
  let tags := _parse_tags html in
  let truthy {X} (l : option (list X)) :=
    match l with Some (_ :: _) => true | _ => false end in
  if truthy tags || truthy reviews then Some (tags, reviews) else None.

End parser.

Arguments Dict {value} d.
Arguments NotADict {value}.
Arguments Iterable {value} elements.
Arguments NotIterable {value}.
Arguments clean_up {value} tags.
Arguments _parse_tags {value} search json_loads html.
Arguments parse {value} search json_loads {R} reviews html.

End steam_store_scraper_v2.

(** ** steam_api_scraper_v2.py *)

Module steam_api_scraper_v2.
Section scraper.
Context `{Pickle}.

(** [list(s)]: the order in which Python enumerates the set. *)
Variable set_order : gset Z → list Z.

Record ScraperConfig := mkConfig {
  checkpoint_dir : string;
  checkpoint_interval : Z;
  test_mode : bool;
  test_limit : Z
}.

(** [SteamAPICheckpoint.get_pending] *)
Definition get_pending (self : SteamAPICheckpoint) (all_app_ids : gset Z) : list Z :=
  let processed := dom (apps_data self) ∪ excluded_apps self ∪ error_apps self in
  set_order (all_app_ids ∖ processed).

(** [data.get(str(appid))] of a 200 answer: nothing, or an entry with its
    ["success"] flag and its ["data"] document. *)
Record details := mkDetails { success : bool; data : string }.

Inductive exception :=
  | RequestException (msg : string)
  | RecursionError
  | KeyboardInterrupt_
  | ZeroDivisionError.

(** [SteamAPI.get_app_details]. The function calls itself on 429 and 403;
    [depth] is the number of nested calls the interpreter still allows, and
    Python raises [RecursionError] when it is used up. Nothing is caught:
    every exception of [requests.get] passes through. *)
Fixpoint get_app_details (network : nat → http_event (option details)) (appid : Z)
    (depth : nat) (n : nat) : (exception + option details) * nat :=
  match depth with
  | O => (inl RecursionError, n)
  | S depth' =>
      match network n with
      | Response status entry =>
          if status =? 200 then (inr entry, S n)
          else if status =? 429 then get_app_details network appid depth' (S n)
          else if status =? 403 then get_app_details network appid depth' (S n)
          else (inr None, S n)
      | Timeout => (inl (RequestException "timeout"), S n)
      | RequestError msg => (inl (RequestException msg), S n)
      | KeyboardInterrupt => (inl KeyboardInterrupt_, S n)
      end
  end.

Record SteamScraper := mkScraper {
  checkpoint : SteamAPICheckpoint;
  disk : gmap string (list byte);
  requests : nat;
  ticks : nat
}.

Definition CHECKPOINT_NAME : string := "steam_api".

Definition checkpoint_mgr (config : ScraperConfig) : checkpoint.CheckpointManager :=
  checkpoint.mkManager (checkpoint_dir config).

(** [SteamScraper._save_checkpoint] *)
Definition _save_checkpoint (config : ScraperConfig) (e : env (option details))
    (self : SteamScraper) : SteamScraper :=
  let '(data', fs') :=
    checkpoint.save_value (checkpoint_mgr config) CHECKPOINT_NAME (PyApi (checkpoint self))
      (clock e (ticks self)) (disk self) in
  match data' with
  | PyApi c' => mkScraper c' fs' (requests self) (S (ticks self))
  | _ => self
  end.

Definition with_checkpoint (c : SteamAPICheckpoint) (n : nat) (self : SteamScraper) : SteamScraper :=
  mkScraper c (disk self) n (ticks self).

(** The classification in the loop body of [run]. *)
Definition record (appid : Z) (d : option details) (c : SteamAPICheckpoint) : SteamAPICheckpoint :=
  match d with
  | None => mkApi (api_base c) (apps_data c) (excluded_apps c) ({[appid]} ∪ error_apps c)
  | Some d =>
      if negb (success d)
      then mkApi (api_base c) (apps_data c) ({[appid]} ∪ excluded_apps c) (error_apps c)
      else mkApi (api_base c) (<[appid := data d]> (apps_data c)) (excluded_apps c) (error_apps c)
  end.

(** The [for] loop of [run]: the state it leaves and, when it is left by an
    exception, which one. *)
Fixpoint run_loop (config : ScraperConfig) (e : env (option details)) (depth : nat)
    (remaining : list Z) (i : Z) (self : SteamScraper) : SteamScraper * option exception :=
  match remaining with
  | [] => (self, None)
  | appid :: remaining' =>
      match get_app_details (net e) appid depth (requests self) with
      | (inl ex, n) => (with_checkpoint (checkpoint self) n self, Some ex)
      | (inr d, n) =>
          let self := with_checkpoint (record appid d (checkpoint self)) n self in
          if checkpoint_interval config =? 0 then (self, Some ZeroDivisionError)
          else
            let self := if i `mod` checkpoint_interval config =? 0
                        then _save_checkpoint config e self else self in
            run_loop config e depth remaining' (i + 1) self
      end
  end.

Inductive run_exit :=
  | AllProcessed
  | Returned
  | Propagated (ex : exception).

Definition do_mark_started (e : env (option details)) (self : SteamScraper) : SteamScraper :=
  let c := checkpoint self in
  match started_at (api_base c) with
  | None =>
      mkScraper (mkApi (mark_started (clock e (ticks self)) (api_base c)) (apps_data c)
                       (excluded_apps c) (error_apps c))
                (disk self) (requests self) (S (ticks self))
  | Some _ => self
  end.

(** [SteamScraper.run], from the set of all app IDs that
    [self.api.get_all_app_ids()] produced. [except KeyboardInterrupt]
    swallows the signal; [finally] saves whatever way the loop is left. *)
Definition run (config : ScraperConfig) (e : env (option details)) (depth : nat)
    (all_app_ids : gset Z) (self : SteamScraper) : SteamScraper * run_exit :=
  let self := do_mark_started e self in
  let remaining := get_pending (checkpoint self) all_app_ids in
  match remaining with
  | [] => (self, AllProcessed)
  | _ =>
      let remaining :=
        if test_mode config then slice_to remaining (test_limit config) else remaining in
      let '(self', ex) := run_loop config e depth remaining 1 self in
      (_save_checkpoint config e self',
       match ex with
       | None | Some KeyboardInterrupt_ => Returned
       | Some ex => Propagated ex
       end)
  end.

(** One answer of [IStoreService/GetAppList]: the ["appid"] entries of
    [data.get("apps", [])] and [data.get("have_more_results", False)]. *)
Record page := mkPage { page_apps : list Z; have_more_results : bool }.

(** [SteamAPI.get_all_app_ids]. The answer to a request depends on the
    [last_appid] it carries. [fuel] bounds the passes of [while True]:
    [None] is the loop still running when it is used up. An app dictionary
    is kept as its ["appid"], the one entry the scrapers read. *)
Fixpoint get_all_app_ids_loop (server : Z → nat → http_event page) (fuel : nat)
    (apps : list Z) (last_appid : Z) (n : nat) : option ((exception + list Z) * nat) :=
  match fuel with
  | O => None
  | S fuel' =>
      match server last_appid n with
      | Response status data =>
          if negb (status =? 200) then Some (inr apps, S n)
          else
            match page_apps data with
            | [] => Some (inr apps, S n)
            | batch =>
                let apps := apps ++ batch in
                let last_appid := List.last batch 0 in
                if negb (have_more_results data) then Some (inr apps, S n)
                else get_all_app_ids_loop server fuel' apps last_appid (S n)
            end
      | Timeout => Some (inl (RequestException "timeout"), S n)
      | RequestError msg => Some (inl (RequestException msg), S n)
      | KeyboardInterrupt => Some (inl KeyboardInterrupt_, S n)
      end
  end.

Definition get_all_app_ids (server : Z → nat → http_event page) (fuel : nat)
    : option ((exception + list Z) * nat) :=
  get_all_app_ids_loop server fuel [] 0 0.

(** [SteamScraper._load_checkpoint] *)
Definition _load_checkpoint (config : ScraperConfig) (fs : gmap string (list byte))
    : checkpoint.load_error + SteamAPICheckpoint :=
  if test_mode config then inr (mkApi (mkBase None None) ∅ ∅ ∅)
  else
    match checkpoint.load (checkpoint_mgr config) CHECKPOINT_NAME
            (Some TSteamAPICheckpoint) fs with
    | inl err => inl err
    | inr (Some (PyApi existing)) => inr existing
    | inr _ => inr (mkApi (mkBase None None) ∅ ∅ ∅)
    end.

End scraper.
End steam_api_scraper_v2.

(** ** steam_api_scraper.py *)

Module steam_api_scraper.
Section scraper.
Context `{Pickle}.

Variable set_order : gset Z → list Z.

Record ScraperConfig := mkConfig {
  checkpoint_dir : string;
  checkpoint_interval : Z;
  test_mode : bool;
  test_limit : Z
}.

(** The [CheckpointManager] of this file: [save(data, filename)] and
    [load(filename)]. *)
Definition path_of (config : ScraperConfig) (filename : string) : string :=
  checkpoint_dir config +:+ "/" +:+ filename +:+ ".pkl".

Definition save (config : ScraperConfig) (data : pyobj) (filename : string)
    (fs : gmap string (list byte)) : gmap string (list byte) :=
  <[path_of config filename := dumps data]> fs.

(** [inl tt] is [pickle.load] raising; [inr None] is [None]. *)
Definition load (config : ScraperConfig) (filename : string)
    (fs : gmap string (list byte)) : unit + option pyobj :=
  match fs !! path_of config filename with
  | None => inr None
  | Some content =>
      match loads content with
      | None => inl tt
      | Some v => inr (Some v)
      end
  end.

Record SteamScraper := mkScraper {
  apps_data : gmap Z string;
  excluded_apps : gset Z;
  error_apps : gset Z;
  disk : gmap string (list byte);
  requests : nat
}.

(** [SteamScraper.load_progress]: skipped in test mode. The files hold what
    [save_progress] wrote; an object of another class in one of them is
    outside this model and read as the default. [None] is [pickle.load]
    raising. *)
Definition load_progress (config : ScraperConfig) (self : SteamScraper) : option SteamScraper :=
  if test_mode config then Some self
  else
    match load config "apps_data" (disk self), load config "excluded_apps" (disk self),
          load config "error_apps" (disk self) with
    | inr a, inr x, inr r =>
        Some (mkScraper (match a with Some (PyDict d) => d | _ => ∅ end)
                        (match x with Some (PySet s) => s | _ => ∅ end)
                        (match r with Some (PySet s) => s | _ => ∅ end)
                        (disk self) (requests self))
    | _, _, _ => None
    end.

(** [SteamScraper.save_progress]: in test mode only [apps_data] is written. *)
Definition save_progress (config : ScraperConfig) (self : SteamScraper) : SteamScraper :=
  if test_mode config then
    mkScraper (apps_data self) (excluded_apps self) (error_apps self)
              (save config (PyDict (apps_data self)) "apps_data" (disk self)) (requests self)
  else
    let fs := save config (PyDict (apps_data self)) "apps_data" (disk self) in
    let fs := save config (PySet (excluded_apps self)) "excluded_apps" fs in
    let fs := save config (PySet (error_apps self)) "error_apps" fs in
    mkScraper (apps_data self) (excluded_apps self) (error_apps self) fs (requests self).

(** [SteamScraper.get_remaining_apps]; [all_apps] is the list of the
    ["appid"] entries of the app dictionaries. *)
Definition get_remaining_apps (apps_data : gmap Z string) (excluded_apps error_apps : gset Z)
    (all_apps : list Z) : list Z :=
  let all_ids : gset Z := list_to_set all_apps in
  let processed := dom apps_data ∪ excluded_apps ∪ error_apps in
  let remaining := all_ids ∖ processed in
  set_order remaining.

(** [data.get(str(appid))] of a 200 answer, as in steam_api_scraper_v2.py. *)
Record details := mkDetails { success : bool; data : string }.

Inductive exception :=
  | RequestException (msg : string)
  | RecursionError
  | KeyboardInterrupt_
  | ZeroDivisionError
  | UnpicklingError.

(** [SteamAPI.get_app_details]: the text of the function is the one of
    steam_api_scraper_v2.py; [depth] is the number of nested calls the
    interpreter still allows. *)
Fixpoint get_app_details (network : nat → http_event (option details)) (appid : Z)
    (depth : nat) (n : nat) : (exception + option details) * nat :=
  match depth with
  | O => (inl RecursionError, n)
  | S depth' =>
      match network n with
      | Response status entry =>
          if status =? 200 then (inr entry, S n)
          else if status =? 429 then get_app_details network appid depth' (S n)
          else if status =? 403 then get_app_details network appid depth' (S n)
          else (inr None, S n)
      | Timeout => (inl (RequestException "timeout"), S n)
      | RequestError msg => (inl (RequestException msg), S n)
      | KeyboardInterrupt => (inl KeyboardInterrupt_, S n)
      end
  end.

(** The classification in the loop body of [run]. *)
Definition record (appid : Z) (d : option details) (n : nat) (self : SteamScraper) : SteamScraper :=
  match d with
  | None => mkScraper (apps_data self) (excluded_apps self) ({[appid]} ∪ error_apps self)
                      (disk self) n
  | Some d =>
      if negb (success d)
      then mkScraper (apps_data self) ({[appid]} ∪ excluded_apps self) (error_apps self)
                     (disk self) n
      else mkScraper (<[appid := data d]> (apps_data self)) (excluded_apps self)
                     (error_apps self) (disk self) n
  end.

(** The loop [for i, appid in enumerate(remaining)]; nothing in [run] catches
    an exception. *)
Fixpoint run_loop (config : ScraperConfig) (network : nat → http_event (option details))
    (depth : nat) (remaining : list Z) (i : Z) (self : SteamScraper)
    : SteamScraper * option exception :=
  match remaining with
  | [] => (self, None)
  | appid :: remaining' =>
      match get_app_details network appid depth (requests self) with
      | (inl ex, n) =>
          (mkScraper (apps_data self) (excluded_apps self) (error_apps self) (disk self) n,
           Some ex)
      | (inr d, n) =>
          let self := record appid d n self in
          if test_mode config then run_loop config network depth remaining' (i + 1) self
          else if checkpoint_interval config =? 0 then (self, Some ZeroDivisionError)
          else
            let self := if (i + 1) `mod` checkpoint_interval config =? 0
                        then save_progress config self else self in
            run_loop config network depth remaining' (i + 1) self
      end
  end.

Inductive run_exit :=
  | Completed
  | Propagated (ex : exception).

(** [SteamScraper.run], from the app list that [self.api.get_all_app_ids()]
    produced. *)
Definition run (config : ScraperConfig) (network : nat → http_event (option details))
    (depth : nat) (all_apps : list Z) (self : SteamScraper) : SteamScraper * run_exit :=
  match load_progress config self with
  | None => (self, Propagated UnpicklingError)
  | Some self =>
      let remaining :=
        get_remaining_apps (apps_data self) (excluded_apps self) (error_apps self) all_apps in
      let remaining :=
        if test_mode config then slice_to remaining (test_limit config) else remaining in
      match run_loop config network depth remaining 0 self with
      | (self', Some ex) => (self', Propagated ex)
      | (self', None) => (save_progress config self', Completed)
      end
  end.

End scraper.
End steam_api_scraper.

(** ** steam_tags_scraper.py *)

Module steam_tags_scraper.
Section scraper.
Context `{Pickle}.

Record TagScraperConfig := mkConfig {
  checkpoint_dir : string;
  checkpoint_interval : Z;
  test_mode : bool;
  test_limit : Z;
  max_retries : Z
}.

(** The [CheckpointManager] of this file: [save(data, filename)] and
    [load(filename)], without the timestamp update. *)
Definition path_of (config : TagScraperConfig) (filename : string) : string :=
  checkpoint_dir config +:+ "/" +:+ filename +:+ ".pkl".

Definition save (config : TagScraperConfig) (data : pyobj) (filename : string)
    (fs : gmap string (list byte)) : gmap string (list byte) :=
  <[path_of config filename := dumps data]> fs.

(** [inl tt] is [pickle.load] raising; [inr None] is [None]. *)
Definition load (config : TagScraperConfig) (filename : string)
    (fs : gmap string (list byte)) : unit + option pyobj :=
  match fs !! path_of config filename with
  | None => inr None
  | Some content =>
      match loads content with
      | None => inl tt
      | Some v => inr (Some v)
      end
  end.

(** [SteamStoreScraper.get_tags]: the body of a 200 answer is the list that
    [_parse_tags] extracts. [None] is the interruption signal passing
    through, [Some None] is the function returning [None]. *)
Fixpoint get_tags_loop (network : nat → http_event (list string)) (appid : Z)
    (attempts : nat) (n : nat) : option (option (list string)) * nat :=
  match attempts with
  | O => (Some None, n)
  | S attempts' =>
      match network n with
      | Response status tags =>
          if status =? 200 then (Some (Some tags), S n)
          else if status =? 404 then (Some None, S n)
          else if status =? 429 then get_tags_loop network appid attempts' (S n)
          else if status =? 403 then get_tags_loop network appid attempts' (S n)
          else (Some None, S n)
      | Timeout => get_tags_loop network appid attempts' (S n)
      | RequestError _ => (Some None, S n)
      | KeyboardInterrupt => (None, S n)
      end
  end.

Definition get_tags (config : TagScraperConfig) (network : nat → http_event (list string))
    (appid : Z) (n : nat) : option (option (list string)) * nat :=
  get_tags_loop network appid (Z.to_nat (max_retries config)) n.

Record SteamTagsScraper := mkScraper {
  tags_data : gmap Z (list string);
  no_tags_apps : gset Z;
  error_apps : gset Z;
  disk : gmap string (list byte);
  requests : nat
}.

(** [SteamTagsScraper.save_progress] *)
Definition save_progress (config : TagScraperConfig) (self : SteamTagsScraper) : SteamTagsScraper :=
  let fs := save config (PyTags (tags_data self)) "tags_data" (disk self) in
  let fs := save config (PySet (no_tags_apps self)) "no_tags_apps" fs in
  let fs := save config (PySet (error_apps self)) "error_apps" fs in
  mkScraper (tags_data self) (no_tags_apps self) (error_apps self) fs (requests self).

(** [SteamTagsScraper.load_progress]: [x or default] keeps a loaded object
    that is truthy. The files hold what [save_progress] wrote; an object of
    another class in one of them is outside this model and read as the
    default. [None] is [pickle.load] raising. *)
Definition load_progress (config : TagScraperConfig) (self : SteamTagsScraper)
    : option SteamTagsScraper :=
  match load config "tags_data" (disk self), load config "no_tags_apps" (disk self),
        load config "error_apps" (disk self) with
  | inr t, inr n, inr r =>
      Some (mkScraper (match t with Some (PyTags d) => d | _ => ∅ end)
                      (match n with Some (PySet s) => s | _ => ∅ end)
                      (match r with Some (PySet s) => s | _ => ∅ end)
                      (disk self) (requests self))
  | _, _, _ => None
  end.

(** [SteamTagsScraper.load_appids_from_checkpoint] *)
Definition load_appids_from_checkpoint (config : TagScraperConfig) (self : SteamTagsScraper)
    : option (list Z) :=
  match load config "apps_data" (disk self) with
  | inl _ => None
  | inr (Some (PyDict d)) => Some (map_to_list d).*1
  | inr (Some (PyTags d)) => Some (map_to_list d).*1
  | inr _ => Some []
  end.

(** [SteamTagsScraper.get_pending_appids] *)
Definition get_pending_appids (self : SteamTagsScraper) (all_appids : list Z) : list Z :=
  let processed := dom (tags_data self) ∪ no_tags_apps self ∪ error_apps self in
  filter (λ appid, appid ∉ processed) all_appids.

(** The categorisation in the loop body of [run]. *)
Definition record (appid : Z) (tags : option (list string)) (n : nat)
    (self : SteamTagsScraper) : SteamTagsScraper :=
  match tags with
  | None => mkScraper (tags_data self) (no_tags_apps self) ({[appid]} ∪ error_apps self)
                      (disk self) n
  | Some [] => mkScraper (tags_data self) ({[appid]} ∪ no_tags_apps self) (error_apps self)
                         (disk self) n
  | Some tags => mkScraper (<[appid := tags]> (tags_data self)) (no_tags_apps self)
                           (error_apps self) (disk self) n
  end.

Inductive exception := UnpicklingError | KeyboardInterrupt_ | ZeroDivisionError.

(** The [for] loop of [run]; nothing in [run] catches an exception. *)
Fixpoint run_loop (config : TagScraperConfig) (network : nat → http_event (list string))
    (pending : list Z) (i : Z) (self : SteamTagsScraper) : SteamTagsScraper * option exception :=
  match pending with
  | [] => (self, None)
  | appid :: pending' =>
      match get_tags config network appid (requests self) with
      | (None, n) =>
          (mkScraper (tags_data self) (no_tags_apps self) (error_apps self) (disk self) n,
           Some KeyboardInterrupt_)
      | (Some tags, n) =>
          let self := record appid tags n self in
          if checkpoint_interval config =? 0 then (self, Some ZeroDivisionError)
          else
            let self := if i `mod` checkpoint_interval config =? 0
                        then save_progress config self else self in
            run_loop config network pending' (i + 1) self
      end
  end.

Inductive run_exit :=
  | NoAppids
  | AllProcessed
  | Completed
  | Propagated (ex : exception).

(** [SteamTagsScraper.run(appids)] *)
Definition run (config : TagScraperConfig) (network : nat → http_event (list string))
    (appids : option (list Z)) (self : SteamTagsScraper) : SteamTagsScraper * run_exit :=
  match load_progress config self with
  | None => (self, Propagated UnpicklingError)
  | Some self =>
      match (match appids with
             | None => load_appids_from_checkpoint config self
             | Some l => Some l
             end) with
      | None => (self, Propagated UnpicklingError)
      | Some [] => (self, NoAppids)
      | Some appids =>
          let pending := get_pending_appids self appids in
          let pending :=
            if test_mode config then slice_to pending (test_limit config) else pending in
          match pending with
          | [] => (self, AllProcessed)
          | _ =>
              match run_loop config network pending 1 self with
              | (self', Some ex) => (self', Propagated ex)
              | (self', None) => (save_progress config self', Completed)
              end
          end
      end
  end.

(** ["|".join(tags)] *)
Fixpoint join (sep : string) (l : list string) : string :=
  match l with
  | [] => ""
  | [x] => x
  | x :: l' => x +:+ sep +:+ join sep l'
  end.

(** [SteamTagsScraper.export_to_csv]: the rows handed to [writer.writerow]
    after the header, one for each item of [sorted(self.tags_data.items())].
    The keys of a dictionary differ, so the items are sorted by app ID. *)
Definition item_le (x y : Z * list string) : Prop := x.1 ≤ y.1.

#[local] Instance item_le_dec x y : Decision (item_le x y).
Proof. unfold item_le. apply _. Defined.

Definition export_to_csv (self : SteamTagsScraper) : list (Z * string) :=
  (λ item, (item.1, join "|" item.2)) <$> merge_sort item_le (map_to_list (tags_data self)).

End scraper.
End steam_tags_scraper.

(** ** Python containers whose order reaches the output *)

Module odict.
Section odict.
Context {K V : Type} `{EqDecision K}.

(** A [dict] as the list of its items in insertion order. *)
Definition t := list (K * V).

(** [d[k] = v]: a present key keeps its place and takes the new value, a
    new key goes to the end. *)
Fixpoint set (k : K) (v : V) (d : list (K * V)) : list (K * V) :=
  match d with
  | [] => [(k, v)]
  | (k', v') :: d' => if decide (k' = k) then (k, v) :: d' else (k', v') :: set k v d'
  end.

(** [d.get(k)] *)
Fixpoint get (k : K) (d : list (K * V)) : option V :=
  match d with
  | [] => None
  | (k', v') :: d' => if decide (k' = k) then Some v' else get k d'
  end.

(** [k in d] *)
Definition mem (k : K) (d : list (K * V)) : bool :=
  match get k d with Some _ => true | None => false end.

End odict.
End odict.

(** ** insert_app_details.py *)

Module insert_app_details.
Section pipeline.

(** [datetime.strptime(date_str, fmt).strftime("%Y-%m-%d")], [None] on
    [ValueError]; [int(s)] on a string, [None] on [ValueError]. *)
Variable strptime_strftime : string → string → option string.
Variable int_of_str : string → option Z.

(** [list(s)] for the sets of names and of pairs. *)
Variable names_order : gset string → list string.
Variable pairs_order : gset (Z * Z) → list (Z * Z).

(** [parse_release_date] *)
Definition parse_release_date (date_str : string) : option string :=
  if bool_decide (date_str = "") then None
  else
    let formats := ["%d %b, %Y"; "%b %d, %Y"; "%b %Y"; "%Y"] in
    (fix go (fmts : list string) : option string :=
       match fmts with
       | [] => None
       | fmt :: fmts' =>
           match strptime_strftime date_str fmt with
           | Some d => Some d
           | None => go fmts'
           end
       end) formats.

(** [str.translate] with the table of the ten full-width digits, on the
    UTF-8 bytes of the string: U+FF10 .. U+FF19 are [EF BC 90] .. [EF BC 99]. *)
Fixpoint translate_fullwidth (s : string) : string :=
  match s with
  | EmptyString => EmptyString
  | String a s' =>
      match s' with
      | String b (String c rest) =>
          let cn := Ascii.nat_of_ascii c in
          if (Ascii.nat_of_ascii a =? 239)%nat && (Ascii.nat_of_ascii b =? 188)%nat
             && (144 <=? cn)%nat && (cn <=? 153)%nat
          then String (Ascii.ascii_of_nat (48 + (cn - 144))) (translate_fullwidth rest)
          else String a (translate_fullwidth s')
      | _ => String a (translate_fullwidth s')
      end
  end.

Inductive age_value := AgeNone | AgeInt (n : Z) | AgeStr (s : string) | AgeOther.

(** [parse_required_age] *)
Definition parse_required_age (value : age_value) : Z :=
  match value with
  | AgeNone => 0
  | AgeInt n => n
  | AgeStr s =>
      match int_of_str (translate_fullwidth s) with
      | Some n => n
      | None => 0
      end
  | AgeOther => 0
  end.

(** One raw entry of [data], field by field as [prepare_data] reads it;
    every [get] default is already applied. *)
Record raw_app := mkRaw {
  type_ : option string;
  name : option string;
  is_free : bool;
  coming_soon : bool;
  date : string;
  windows : bool;
  mac : bool;
  linux : bool;
  metacritic_score : option Z;
  recommendations_total : option Z;
  required_age : age_value;
  genres : list (Z * string);
  categories : list (Z * string);
  developers : list string;
  publishers : list string
}.

Record game_row := mkGame {
  g_appid : Z;
  g_name : option string;
  g_is_free : bool;
  g_release_date : option string;
  g_coming_soon : bool;
  g_windows : bool;
  g_mac : bool;
  g_linux : bool;
  g_metacritic_score : option Z;
  g_recommendations_total : option Z;
  g_required_age : Z
}.

(** The local variables of [prepare_data]. *)
Record locals := mkLocals {
  l_games : list game_row;
  l_genres : list (Z * string);
  l_categories : list (Z * string);
  l_category_name_to_id : list (string * Z);
  l_developers : gset string;
  l_publishers : gset string;
  l_game_genres : list (Z * Z);
  l_game_categories : list (Z * Z);
  l_game_developers : list (Z * string);
  l_game_publishers : list (Z * string)
}.

Definition init : locals := mkLocals [] [] [] [] ∅ ∅ [] [] [] [].

(** [for genre in raw.get('genres', [])] *)
Definition genres_loop (appid : Z) (gs : list (Z * string))
    (acc : list (Z * string) * list (Z * Z)) : list (Z * string) * list (Z * Z) :=
  foldl (λ '(genres, game_genres) '(gid, description),
           (odict.set gid description genres, game_genres ++ [(appid, gid)])) acc gs.

(** One pass of [for cat in raw.get('categories', [])]. *)
Definition category_step (appid : Z)
    (acc : list (string * Z) * list (Z * string) * list (Z * Z)) (cat : Z * string)
    : list (string * Z) * list (Z * string) * list (Z * Z) :=
  let '(category_name_to_id, categories, game_categories) := acc in
  let '(cid, name) := cat in
  let '(category_name_to_id, categories) :=
    if odict.mem name category_name_to_id then (category_name_to_id, categories)
    else (odict.set name cid category_name_to_id, odict.set cid name categories) in
  match odict.get name category_name_to_id with
  | Some canonical_id =>
      (category_name_to_id, categories, game_categories ++ [(appid, canonical_id)])
  | None => (category_name_to_id, categories, game_categories)
  end.

Definition categories_loop (appid : Z) (cs : list (Z * string))
    (acc : list (string * Z) * list (Z * string) * list (Z * Z))
    : list (string * Z) * list (Z * string) * list (Z * Z) :=
  foldl (category_step appid) acc cs.

(** [for dev in raw.get('developers', [])], and the same for publishers. *)
Definition names_loop (appid : Z) (ns : list string)
    (acc : gset string * list (Z * string)) : gset string * list (Z * string) :=
  foldl (λ '(names, rows) n, ({[n]} ∪ names, rows ++ [(appid, n)])) acc ns.

(** The guard [if not raw or raw.get('type') != 'game': continue]; a falsy
    entry is [None]. *)
Definition is_game (raw : option raw_app) : bool :=
  match raw with
  | None => false
  | Some r => bool_decide (type_ r = Some "game")
  end.

Definition game_of (appid : Z) (raw : raw_app) : game_row :=
  let release_date :=
    if coming_soon raw then None else parse_release_date (date raw) in
  mkGame appid (name raw) (is_free raw) release_date (coming_soon raw)
         (windows raw) (mac raw) (linux raw) (metacritic_score raw)
         (recommendations_total raw) (parse_required_age (required_age raw)).

(** The body of [for appid, raw in data.items()]. *)
Definition item_step (st : locals) (item : Z * option raw_app) : locals :=
  let '(appid, entry) := item in
  match entry with
  | None => st
  | Some raw =>
      if negb (is_game entry) then st
      else
        let '(genres', game_genres') :=
          genres_loop appid (genres raw) (l_genres st, l_game_genres st) in
        let '(name_to_id', categories', game_categories') :=
          categories_loop appid (categories raw)
            (l_category_name_to_id st, l_categories st, l_game_categories st) in
        let '(developers', game_developers') :=
          names_loop appid (developers raw) (l_developers st, l_game_developers st) in
        let '(publishers', game_publishers') :=
          names_loop appid (publishers raw) (l_publishers st, l_game_publishers st) in
        mkLocals (l_games st ++ [game_of appid raw]) genres' categories' name_to_id'
                 developers' publishers' game_genres' game_categories'
                 game_developers' game_publishers'
  end.

(** The returned dictionary. *)
Record prepared := mkPrepared {
  games_table : list game_row;
  genres_table : list (Z * string);
  categories_table : list (Z * string);
  developers_table : list string;
  publishers_table : list string;
  game_genres_table : list (Z * Z);
  game_categories_table : list (Z * Z);
  game_developers_table : list (Z * string);
  game_publishers_table : list (Z * string)
}.

(** [prepare_data]; [data] is the list of the items of the dictionary. *)
Definition prepare_data (data : list (Z * option raw_app)) : prepared :=
  let st := foldl item_step init data in
  let game_categories := pairs_order (list_to_set (l_game_categories st)) in
  mkPrepared (l_games st) (l_genres st) (l_categories st)
             (names_order (l_developers st)) (names_order (l_publishers st))
             (l_game_genres st) game_categories
             (l_game_developers st) (l_game_publishers st).

End pipeline.
End insert_app_details.

(** ** insert_tags.py *)

Module insert_tags.

Record tag := mkTag { tagid : Z; tag_name : string; count : Z }.

(** One line of the JSONL file: ["appid"], ["scraped_at"] and the list
    under ["data"]["tags"] (empty when a key is missing). *)
Record record := mkRecord {
  appid : Z;
  scraped_at : option string;
  tag_list : list tag
}.

Record locals := mkLocals {
  l_tags : list (Z * string);
  l_game_tags : list (Z * Z * Z * option string);
  l_apps_processed : Z;
  l_apps_skipped_no_tags : Z;
  l_duplicate_tag_names : gmap string Z
}.

Definition init : locals := mkLocals [] [] 0 0 ∅.

(** The body of [for tag in tag_list]. *)
Definition tag_step (appid : Z) (scraped_at : option string)
    (acc : list (Z * string) * list (Z * Z * Z * option string) * gmap string Z) (tg : tag)
    : list (Z * string) * list (Z * Z * Z * option string) * gmap string Z :=
  let '(tags, game_tags, duplicate_tag_names) := acc in
  let tagid := tagid tg in
  let name := tag_name tg in
  let votes := count tg in
  let '(tagid, duplicate_tag_names) :=
    if bool_decide (name ∈ (filter (λ t, t.1 ≠ tagid) tags).*2) then
      match (filter (λ t, t.2 = name) tags).*1 with
      | existing_id :: _ =>
          (existing_id,
           <[name := default 0 (duplicate_tag_names !! name) + 1]> duplicate_tag_names)
      | [] => (tagid, duplicate_tag_names)
      end
    else (tagid, duplicate_tag_names) in
  (odict.set tagid name tags, game_tags ++ [(appid, tagid, votes, scraped_at)],
   duplicate_tag_names).

(** The body of [for record in records]. *)
Definition record_step (st : locals) (r : record) : locals :=
  match tag_list r with
  | [] => mkLocals (l_tags st) (l_game_tags st) (l_apps_processed st)
                   (l_apps_skipped_no_tags st + 1) (l_duplicate_tag_names st)
  | _ =>
      let '(tags, game_tags, dups) :=
        foldl (tag_step (appid r) (scraped_at r))
              (l_tags st, l_game_tags st, l_duplicate_tag_names st) (tag_list r) in
      mkLocals tags game_tags (l_apps_processed st + 1) (l_apps_skipped_no_tags st) dups
  end.

(** The de-duplication loop over [game_tags]. *)
Definition dedupe_step (acc : gset (Z * Z) * list (Z * Z * Z * option string))
    (gt : Z * Z * Z * option string) : gset (Z * Z) * list (Z * Z * Z * option string) :=
  let '(seen, game_tags_deduped) := acc in
  let key := (gt.1.1.1, gt.1.1.2) in
  if bool_decide (key ∈ seen) then (seen, game_tags_deduped)
  else ({[key]} ∪ seen, game_tags_deduped ++ [gt]).

Record stats := mkStats {
  apps_processed : Z;
  apps_skipped_no_tags : Z;
  unique_tags : Z;
  total_game_tag_rows : Z;
  duplicate_tag_names : option (gmap string Z)
}.

Record prepared := mkPrepared {
  tags_table : list (Z * string);
  game_tags_table : list (Z * Z * Z * option string);
  stats_of : stats
}.

(** [prepare_data] *)
Definition prepare_data (records : list record) : prepared :=
  let st := foldl record_step init records in
  let game_tags_deduped := (foldl dedupe_step (∅, []) (l_game_tags st)).2 in
  mkPrepared (l_tags st) game_tags_deduped
    (mkStats (l_apps_processed st) (l_apps_skipped_no_tags st)
             (Z.of_nat (length (l_tags st))) (Z.of_nat (length game_tags_deduped))
             (if bool_decide (l_duplicate_tag_names st = ∅) then None
              else Some (l_duplicate_tag_names st))).

(** [check_foreign_keys]; [existing] is the answer to
    [SELECT appid FROM games]. *)
Definition check_foreign_keys (existing : gset Z) (appids : gset Z) : gset Z :=
  appids ∩ existing.

(** What [insert_batch] hands to the two [executemany] calls, and the app
    IDs it reports as missing. *)
Record batch := mkBatch {
  tags_rows : list (Z * string);
  game_tags_rows : list (Z * Z * Z * option string);
  missing_appids : gset Z
}.

(** [insert_batch], as far as Python goes: [None] is the dry run, which
    returns before the connection is opened. *)
Definition insert_batch (existing : gset Z) (prepared : prepared) (dry_run : bool)
    : option batch :=
  if dry_run then None
  else
    let game_tag_appids : gset Z :=
      list_to_set ((λ gt, gt.1.1.1) <$> game_tags_table prepared) in
    let valid_appids := check_foreign_keys existing game_tag_appids in
    let missing_appids := game_tag_appids ∖ valid_appids in
    let game_tags_filtered :=
      filter (λ gt, gt.1.1.1 ∈ valid_appids) (game_tags_table prepared) in
    Some (mkBatch (tags_table prepared) game_tags_filtered missing_appids).

End insert_tags.

(** ** insert_reviews.py *)

Module insert_reviews.

(** One entry of ["reviews_by_language"]: [review.get('language')],
    [review.get('count', 0)], [review.get('score')] and
    [review.get('score_numeric')]. *)
Record review := mkReview {
  language : option string;
  count : Z;
  score : option string;
  score_numeric : option Z
}.

(** One line of the JSONL file: ["appid"], [record.get('scraped_at', '')]
    and the list under ["data"]["reviews_by_language"], empty when it is
    missing or null (both are falsy). *)
Record record := mkRecord {
  appid : Z;
  scraped_at : string;
  reviews_by_language : list review
}.

(** A row of [game_reviews]. *)
Record game_review := mkRow {
  r_appid : Z;
  r_language : option string;
  r_review_count : Z;
  r_score : option string;
  r_score_numeric : option Z;
  r_snapshot_date : option string
}.

(** [s[:n]]; the timestamps are ASCII, one character a byte. *)
Fixpoint str_take (n : nat) (s : string) : string :=
  match n, s with
  | S n', String a s' => String a (str_take n' s')
  | _, _ => ""
  end.

(** A [Counter]: the keys in insertion order with their counts. *)
Definition incr {K} `{EqDecision K} (k : K) (c : list (K * Z)) : list (K * Z) :=
  odict.set k (default 0 (odict.get k c) + 1) c.

(** [sorted(c.items(), key=itemgetter(1), reverse=True)]: the sort is
    stable, items with the same count stay in insertion order. *)
Fixpoint insert_desc {K} (x : K * Z) (l : list (K * Z)) : list (K * Z) :=
  match l with
  | [] => [x]
  | y :: l' => if y.2 <? x.2 then x :: y :: l' else y :: insert_desc x l'
  end.

Definition sorted_desc {K} (c : list (K * Z)) : list (K * Z) :=
  foldl (λ acc x, insert_desc x acc) [] c.

(** [Counter.most_common(n)] *)
Definition most_common {K} (n : option nat) (c : list (K * Z)) : list (K * Z) :=
  match n with
  | Some n => take n (sorted_desc c)
  | None => sorted_desc c
  end.

Record locals := mkLocals {
  l_game_reviews : list game_review;
  l_apps_processed : Z;
  l_apps_skipped_no_reviews : Z;
  l_languages_seen : list (option string * Z);
  l_scores_seen : list (option string * Z)
}.

Definition init : locals := mkLocals [] 0 0 [] [].

(** The body of [for review in reviews_by_lang]. *)
Definition review_step (appid : Z) (snapshot_date : option string)
    (acc : list game_review * list (option string * Z) * list (option string * Z))
    (rv : review)
    : list game_review * list (option string * Z) * list (option string * Z) :=
  let '(game_reviews, languages_seen, scores_seen) := acc in
  if count rv =? 0 then acc
  else
    (game_reviews ++ [mkRow appid (language rv) (count rv) (score rv) (score_numeric rv)
                            snapshot_date],
     incr (language rv) languages_seen, incr (score rv) scores_seen).

(** [scraped_at[:10] if scraped_at else None] *)
Definition snapshot_date_of (scraped_at : string) : option string :=
  if bool_decide (scraped_at = "") then None else Some (str_take 10 scraped_at).

(** The body of [for record in records]. *)
Definition record_step (st : locals) (r : record) : locals :=
  let snapshot_date := snapshot_date_of (scraped_at r) in
  match reviews_by_language r with
  | [] => mkLocals (l_game_reviews st) (l_apps_processed st)
                   (l_apps_skipped_no_reviews st + 1) (l_languages_seen st) (l_scores_seen st)
  | _ =>
      let '(game_reviews, languages_seen, scores_seen) :=
        foldl (review_step (appid r) snapshot_date)
              (l_game_reviews st, l_languages_seen st, l_scores_seen st)
              (reviews_by_language r) in
      mkLocals game_reviews (l_apps_processed st + 1) (l_apps_skipped_no_reviews st)
               languages_seen scores_seen
  end.

(** The de-duplication loop over [game_reviews]. *)
Definition dedupe_step
    (acc : gset (Z * option string * option string) * list game_review) (gr : game_review)
    : gset (Z * option string * option string) * list game_review :=
  let '(seen, game_reviews_deduped) := acc in
  let key := (r_appid gr, r_language gr, r_snapshot_date gr) in
  if bool_decide (key ∈ seen) then (seen, game_reviews_deduped)
  else ({[key]} ∪ seen, game_reviews_deduped ++ [gr]).

Record stats := mkStats {
  apps_processed : Z;
  apps_skipped_no_reviews : Z;
  total_review_rows : Z;
  unique_languages : Z;
  top_languages : list (option string * Z);
  score_distribution : list (option string * Z)
}.

Record prepared := mkPrepared {
  game_reviews_table : list game_review;
  stats_of : stats
}.

(** [prepare_data] *)
Definition prepare_data (records : list record) : prepared :=
  let st := foldl record_step init records in
  let game_reviews_deduped := (foldl dedupe_step (∅, []) (l_game_reviews st)).2 in
  mkPrepared game_reviews_deduped
    (mkStats (l_apps_processed st) (l_apps_skipped_no_reviews st)
             (Z.of_nat (length game_reviews_deduped))
             (Z.of_nat (length (l_languages_seen st)))
             (most_common (Some 15%nat) (l_languages_seen st))
             (most_common None (l_scores_seen st))).

(** [check_foreign_keys]; [existing] is the answer to
    [SELECT appid FROM games]. *)
Definition check_foreign_keys (existing : gset Z) (appids : gset Z) : gset Z :=
  appids ∩ existing.

(** What [insert_batch] hands to [executemany], and the app IDs it reports
    as missing; [None] is the dry run. *)
Definition insert_batch (existing : gset Z) (prepared : prepared) (dry_run : bool)
    : option (list game_review * gset Z) :=
  if dry_run then None
  else
    let review_appids : gset Z := list_to_set (r_appid <$> game_reviews_table prepared) in
    let valid_appids := check_foreign_keys existing review_appids in
    let missing_appids := review_appids ∖ valid_appids in
    let game_reviews_filtered :=
      filter (λ gr, r_appid gr ∈ valid_appids) (game_reviews_table prepared) in
    Some (game_reviews_filtered, missing_appids).

End insert_reviews.

(** * Properties

    From here on: the statements about the functions above. Definitions
    that only the statements need (the partition invariant, first-encounter
    order, canonical IDs) are introduced where they are first used. *)

(** Closed goals with a decision procedure are settled by evaluation. *)
Ltac by_computation := refine (bool_decide_unpack _ _); vm_compute; exact I.
Ltac refute_by_computation :=
  refine (bool_decide_eq_false_1 _ _); vm_compute; reflexivity.

(** ** First-encounter order *)

Section first_encounter.
Context {A K : Type} `{EqDecision K}.

(** The rows of [l] that are the first with their key, in the order of [l]. *)
Fixpoint firsts_by (key : A → K) (l : list A) : list A :=
  match l with
  | [] => []
  | x :: l' => x :: filter (λ y, key y ≠ key x) (firsts_by key l')
  end.

Lemma elem_of_firsts_by key l x : x ∈ firsts_by key l → x ∈ l.
Proof.
  revert x. induction l as [|a l IH]; intros x; simpl; [done|].
  rewrite !elem_of_cons. intros [->|[_ Hx]%list_elem_of_filter]; auto.
Qed.

Lemma key_elem_of_firsts_by key l k : k ∈ key <$> firsts_by key l ↔ k ∈ key <$> l.
Proof.
  induction l as [|a l IH]; simpl; [done|].
  rewrite !elem_of_cons, <- IH. rewrite !list_elem_of_fmap.
  split.
  - intros [->|(y & -> & [_ Hy]%list_elem_of_filter)]; [by left|right; eauto].
  - intros [->|(y & -> & Hy)]; [by left|].
    destruct (decide (key y = key a)) as [Heq|Hne]; [by left|].
    right. exists y. split; [done|]. by apply list_elem_of_filter.
Qed.

Lemma firsts_by_snoc key l x :
  firsts_by key (l ++ [x])
  = if decide (key x ∈ key <$> l) then firsts_by key l else firsts_by key l ++ [x].
Proof.
  induction l as [|a l IH].
  - done.
  - cbn [app firsts_by fmap list_fmap].
    rewrite IH. destruct (decide (key x ∈ key <$> l)) as [Hin|Hnotin].
    + rewrite decide_True; [done|]. by right.
    + rewrite filter_app, filter_cons, filter_nil.
      destruct (decide (key x = key a)) as [Heq|Hne].
      * rewrite decide_False by (intros ?; done).
        rewrite decide_True by (rewrite Heq; left). by rewrite app_nil_r.
      * rewrite decide_True by done.
        rewrite decide_False; [done|]. intros [?|?]%elem_of_cons; done.
Qed.

Lemma NoDup_firsts_by key l : NoDup (key <$> firsts_by key l).
Proof.
  induction l as [|a l IH]; simpl; [constructor|].
  apply NoDup_cons. split.
  - intros (y & Heq & [Hne _]%list_elem_of_filter)%list_elem_of_fmap. done.
  - eapply sublist_NoDup; [exact IH|]. apply fmap_sublist, sublist_filter.
Qed.

Lemma firsts_by_sublist key l : firsts_by key l `sublist_of` l.
Proof.
  induction l as [|a l IH]; simpl; [done|].
  apply sublist_skip. etrans; [apply sublist_filter|done].
Qed.

End first_encounter.

Definition first_occurrences {A} `{EqDecision A} (l : list A) : list A := firsts_by id l.

Lemma first_occurrences_snoc {A} `{EqDecision A} (l : list A) x :
  first_occurrences (l ++ [x])
  = if decide (x ∈ l) then first_occurrences l else first_occurrences l ++ [x].
Proof. unfold first_occurrences. rewrite firsts_by_snoc. by rewrite list_fmap_id. Qed.

Lemma elem_of_first_occurrences {A} `{EqDecision A} (l : list A) x :
  x ∈ first_occurrences l ↔ x ∈ l.
Proof.
  pose proof (key_elem_of_firsts_by (A:=A) id l x) as Hk.
  by rewrite !list_fmap_id in Hk.
Qed.

(** Dropping later rows with a repeated key does not move the first
    appearance of anything computed from the key. *)
Lemma first_occurrences_firsts_by {A K B} `{EqDecision K, EqDecision B}
    (key : A → K) (f : K → B) (l : list A) :
  first_occurrences ((f ∘ key) <$> firsts_by key l) = first_occurrences ((f ∘ key) <$> l).
Proof.
  induction l as [|x l IH] using rev_ind; [done|].
  rewrite firsts_by_snoc, fmap_app. simpl. rewrite first_occurrences_snoc.
  destruct (decide (key x ∈ key <$> l)) as [Hin|Hnotin].
  - rewrite decide_True; [done|].
    apply list_elem_of_fmap in Hin as (y & Hy & Hin).
    apply list_elem_of_fmap. exists y. split; [simpl; by rewrite Hy|done].
  - rewrite fmap_app. simpl. rewrite first_occurrences_snoc, IH.
    destruct (decide (f (key x) ∈ (f ∘ key) <$> l)) as [Hin|Hnin].
    + rewrite decide_True; [done|].
      apply list_elem_of_fmap in Hin as (y & Hy & Hin).
      assert (key y ∈ key <$> firsts_by key l) as (z & Hz & Hzin)%list_elem_of_fmap.
      { apply key_elem_of_firsts_by, list_elem_of_fmap. eauto. }
      apply list_elem_of_fmap. exists z. split; [|done]. simpl in *. by rewrite <- Hz.
    + rewrite decide_False; [done|].
      intros (y & Hy & Hin%elem_of_firsts_by)%list_elem_of_fmap.
      apply Hnin, list_elem_of_fmap. eauto.
Qed.

(** ** Insertion-ordered dictionaries *)

Section odict_facts.
Context {K V : Type} `{EqDecision K}.
Implicit Types d : list (K * V).

Lemma odict_set_keys k v d :
  (odict.set k v d).*1 = if decide (k ∈ d.*1) then d.*1 else d.*1 ++ [k].
Proof.
  induction d as [|[k' v'] d IH].
  - done.
  - cbn [odict.set fmap list_fmap fst].
    destruct (decide (k' = k)) as [->|Hne]; cbn [fmap list_fmap fst].
    + rewrite decide_True; [done|]. left.
    + rewrite IH. destruct (decide (k ∈ d.*1)) as [Hin|Hnin].
      * rewrite decide_True; [done|]. by right.
      * rewrite decide_False; [done|]. intros [?|?]%elem_of_cons; done.
Qed.

Lemma odict_set_fresh k v d : k ∉ d.*1 → odict.set k v d = d ++ [(k, v)].
Proof.
  induction d as [|[k' v'] d IH]; simpl; [done|].
  intros [Hne Hnin]%not_elem_of_cons.
  rewrite decide_False by done. by rewrite IH.
Qed.

Lemma odict_set_same k v d : NoDup d.*1 → (k, v) ∈ d → odict.set k v d = d.
Proof.
  induction d as [|[k' v'] d IH]; simpl; [by intros _ ?%elem_of_nil|].
  intros [Hnin Hnd]%NoDup_cons [[= <- <-]|Hin]%elem_of_cons.
  - by rewrite decide_True.
  - destruct (decide (k' = k)) as [->|Hne].
    + exfalso. apply Hnin. apply list_elem_of_fmap. by exists (k, v).
    + by rewrite IH.
Qed.

Lemma odict_set_NoDup k v d : NoDup d.*1 → NoDup (odict.set k v d).*1.
Proof.
  intros Hnd. rewrite odict_set_keys. destruct (decide (k ∈ d.*1)); [done|].
  apply NoDup_app. split; [done|]. split; [|apply NoDup_singleton].
  intros x Hx ->%list_elem_of_singleton. done.
Qed.

Lemma odict_get_elem_of k v d : odict.get k d = Some v → (k, v) ∈ d.
Proof.
  induction d as [|[k' v'] d IH]; simpl; [done|].
  destruct (decide (k' = k)) as [->|Hne]; [intros [= ->]; left|intros ?; right; auto].
Qed.

Lemma odict_get_None k d : odict.get k d = None ↔ k ∉ d.*1.
Proof.
  induction d as [|[k' v'] d IH]; simpl.
  - split; [by intros _ ?%elem_of_nil|done].
  - destruct (decide (k' = k)) as [->|Hne].
    + split; [done|]. intros Hn. exfalso. apply Hn. left.
    + rewrite IH, not_elem_of_cons. naive_solver.
Qed.

Lemma odict_mem_spec k d : odict.mem k d = true ↔ k ∈ d.*1.
Proof.
  unfold odict.mem. destruct (odict.get k d) as [v|] eqn:Hg.
  - split; [|done]. intros _. apply odict_get_elem_of in Hg.
    apply list_elem_of_fmap. by exists (k, v).
  - apply odict_get_None in Hg. split; [done|]. intros ?. done.
Qed.

Lemma odict_get_set_eq k v d : odict.get k (odict.set k v d) = Some v.
Proof.
  induction d as [|[k' v'] d IH]; simpl.
  - by rewrite decide_True.
  - destruct (decide (k' = k)) as [->|Hne]; simpl.
    + by rewrite decide_True.
    + by rewrite decide_False.
Qed.

Lemma odict_get_set_ne k k' v d : k ≠ k' → odict.get k' (odict.set k v d) = odict.get k' d.
Proof.
  intros Hne. induction d as [|[k0 v0] d IH]; simpl.
  - by rewrite decide_False.
  - destruct (decide (k0 = k)) as [->|Hne0]; simpl.
    + by rewrite !decide_False.
    + destruct (decide (k0 = k')); [done|]. exact IH.
Qed.

Lemma odict_get_app k d1 d2 :
  odict.get k (d1 ++ d2) = match odict.get k d1 with Some v => Some v | None => odict.get k d2 end.
Proof.
  induction d1 as [|[k' v'] d1 IH]; simpl; [done|].
  destruct (decide (k' = k)); [done|]. exact IH.
Qed.

End odict_facts.

Section odict_more.
Context {K V : Type} `{EqDecision K}.
Implicit Types d : list (K * V).

Lemma elem_of_odict_set k v d x :
  NoDup d.*1 → x ∈ odict.set k v d → x = (k, v) ∨ (x ∈ d ∧ x.1 ≠ k).
Proof.
  induction d as [|[k' v'] d IH]; simpl.
  - intros _ ->%list_elem_of_singleton. by left.
  - intros [Hnin Hnd]%NoDup_cons. destruct (decide (k' = k)) as [->|Hne].
    + intros [->|Hin]%elem_of_cons; [by left|]. right. split; [by right|].
      intros Heq. apply Hnin. apply list_elem_of_fmap. exists x. by rewrite Heq.
    + intros [->|Hin]%elem_of_cons; [right; split; [left|done]|].
      destruct (IH Hnd Hin) as [->|[Hd Hx]]; [by left|right; split; [by right|done]].
Qed.

Lemma odict_elem_of_get k v d : NoDup d.*1 → (k, v) ∈ d → odict.get k d = Some v.
Proof.
  induction d as [|[k' v'] d IH]; simpl; [by intros _ ?%elem_of_nil|].
  intros [Hnin Hnd]%NoDup_cons [[= <- <-]|Hin]%elem_of_cons.
  - by rewrite decide_True.
  - rewrite decide_False; [by apply IH|].
    intros ->. apply Hnin. apply list_elem_of_fmap. by exists (k, v).
Qed.

(** Rows with distinct keys whose value determines the key have distinct
    values. *)
Lemma NoDup_values d :
  NoDup d.*1 → (∀ x y, x ∈ d → y ∈ d → x.2 = y.2 → x.1 = y.1) → NoDup d.*2.
Proof.
  induction d as [|[k v] d IH]; simpl; [constructor|].
  intros [Hnin Hnd]%NoDup_cons Hfun. apply NoDup_cons. split.
  - intros ([k' v'] & Hv & Hin)%list_elem_of_fmap. simpl in Hv. subst v'.
    apply Hnin. apply list_elem_of_fmap. exists (k', v). split; [|done].
    simpl. apply (Hfun (k, v) (k', v)); [left|by right|done].
  - apply IH; [done|]. intros x y Hx Hy. apply Hfun; by right.
Qed.

End odict_more.

Lemma omap_ext_elem {A B} (f g : A → option B) (l : list A) :
  (∀ x, x ∈ l → f x = g x) → omap f l = omap g l.
Proof.
  induction l as [|a l IH]; intros Hfg; [done|]. simpl.
  rewrite (Hfg a) by left.
  assert (omap f l = omap g l) as Hl by (apply IH; intros x Hx; apply Hfg; by right).
  destruct (g a); [f_equal|]; exact Hl.
Qed.

(** ** checkpoint.py *)

Section checkpoint_facts.
Context `{Pickle}.
Import checkpoint.

Lemma isinstance_setattr t v ty :
  isinstance (setattr_last_saved_at t v) ty = isinstance v ty.
Proof. by destruct v, ty. Qed.

Lemma load_insert_dumps mgr name v fs :
  load mgr name None (<[_get_path mgr name := dumps v]> fs) = inr (Some v).
Proof. unfold load. by rewrite lookup_insert_eq, loads_dumps. Qed.

Lemma load_insert_nil mgr name expected fs :
  load mgr name expected (<[_get_path mgr name := []]> fs) = inl UnpicklingError.
Proof. unfold load. by rewrite lookup_insert_eq, loads_nil. Qed.

Lemma write_states_lookup path content fs k :
  (k ≤ length content)%nat →
  write_states path content fs !! k = Some (<[path := take k content]> fs).
Proof.
  intros Hk. unfold write_states.
  rewrite list_lookup_fmap, lookup_seq_lt by lia. done.
Qed.

Lemma write_states_elem path content fs s :
  s ∈ write_states path content fs →
  ∃ k, (k ≤ length content)%nat ∧ s = <[path := take k content]> fs.
Proof.
  unfold write_states. intros (k & -> & Hk)%list_elem_of_fmap.
  apply elem_of_seq in Hk. exists k. split; [lia | done].
Qed.

Lemma write_states_last path content fs :
  last (write_states path content fs) = Some (<[path := content]> fs).
Proof.
  unfold write_states. rewrite seq_S, fmap_app. simpl.
  by rewrite last_snoc, firstn_all.
Qed.

Lemma save_states_head mgr name data now fs :
  head (save_states mgr name data now fs) = Some (<[_get_path mgr name := []]> fs).
Proof. done. Qed.

End checkpoint_facts.

Section checkpoint_claims.
Context `{Pickle}.
Import checkpoint.

Lemma save_unfold mgr name S now w v :
  heap w !! S = Some v →
  save mgr name S now w =
    let v' := if hasattr_last_saved_at v then setattr_last_saved_at now v else v in
    mkWorld (<[S := v']> (heap w)) (<[_get_path mgr name := dumps v']> (disk w)).
Proof. intros Hv. unfold save, save_value. by rewrite Hv. Qed.


(** C10: when the object passed to [save] has a [last_saved_at]
    attribute, [save] sets it to the current time on the caller's own object
    before it writes the file, every other field of the object stays as it
    was, and the file holds the updated object; an object without the
    attribute is written as it is; no other object is touched. *)
Theorem save_sets_last_saved_at_in_place
    (mgr : CheckpointManager) (name : string) (S : nat) (now : Z) (w : world) (v : pyobj) :
  heap w !! S = Some v →
  let w' := save mgr name S now w in
  (hasattr_last_saved_at v = true →
     ∃ v', heap w' !! S = Some v'
       ∧ getattr_last_saved_at v' = Some (Some now)
       ∧ fields_but_last_saved_at v' = fields_but_last_saved_at v
       ∧ disk w' !! _get_path mgr name = Some (dumps v'))
  ∧ (hasattr_last_saved_at v = false →
       heap w' !! S = Some v ∧ disk w' !! _get_path mgr name = Some (dumps v))
  ∧ (∀ r, r ≠ S → heap w' !! r = heap w !! r).
Proof.
  intros Hv w'. subst w'. rewrite (save_unfold _ _ _ _ _ _ Hv). cbn zeta. simpl.
  split; [|split].
  - intros Hattr. rewrite Hattr. exists (setattr_last_saved_at now v).
    rewrite !lookup_insert_eq. by destruct v.
  - intros Hattr. rewrite Hattr. by rewrite !lookup_insert_eq.
  - intros r Hr. by rewrite lookup_insert_ne.
Qed.

(** C6, as the code has it: [save(N, value)] opens the file of [N] for
    writing, which empties it, and writes the new bytes in place. When
    [save] has returned, the file is the complete new value whatever it held
    before, and no other file has changed. While [save] runs the file holds
    a prefix of the new bytes, the empty prefix first, and nothing of the
    old content. *)
Theorem save_truncates_then_writes
    (mgr : CheckpointManager) (name : string) (data : pyobj) (now : Z)
    (fs : gmap string (list byte)) :
  let data' := (save_value mgr name data now fs).1 in
  let fs' := (save_value mgr name data now fs).2 in
  last (save_states mgr name data now fs) = Some fs'
  ∧ load mgr name None fs' = inr (Some data')
  ∧ (∀ p, p ≠ _get_path mgr name → fs' !! p = fs !! p)
  ∧ (∀ s, s ∈ save_states mgr name data now fs →
       (∃ k, s !! _get_path mgr name = Some (take k (dumps data')))
       ∧ ∀ p, p ≠ _get_path mgr name → s !! p = fs !! p)
  ∧ head (save_states mgr name data now fs) = Some (<[_get_path mgr name := []]> fs).
Proof.
  unfold save_value, save_states. cbn zeta. simpl.
  set (data' := if hasattr_last_saved_at data then _ else _).
  repeat split.
  - apply write_states_last.
  - apply load_insert_dumps.
  - intros p Hp. by rewrite lookup_insert_ne.
  - match goal with Hs : _ ∈ write_states _ _ _ |- _ =>
      apply write_states_elem in Hs as (k & _ & ->) end.
    exists k. by rewrite lookup_insert_eq.
  - intros p Hp.
    match goal with Hs : _ ∈ write_states _ _ _ |- _ =>
      apply write_states_elem in Hs as (k & _ & ->) end.
    by rewrite lookup_insert_ne.
Qed.

End checkpoint_claims.

Module examples_checkpoint.
Import checkpoint.
#[local] Existing Instance unary_pickle.unary.

Definition mgr := mkManager "checkpoints".
Definition old_state : SteamSpyCheckpoint :=
  mkSpy (mkBase (Some 10) (Some 20)) [1; 2; 3] {[1]} ∅ ∅.
Definition new_state : SteamSpyCheckpoint :=
  mkSpy (mkBase (Some 10) (Some 20)) [1; 2; 3] {[1; 2]} ∅ ∅.
Definition w0 : world := mkWorld {[ 0%nat := PySpy new_state ]} ∅.


Lemma save_in_place_witness :
  heap w0 !! 0%nat = Some (PySpy new_state)
  ∧ let w' := save mgr "steamspy" 0 30 w0 in
  (hasattr_last_saved_at (PySpy new_state) = true →
     ∃ v', heap w' !! 0%nat = Some v'
       ∧ getattr_last_saved_at v' = Some (Some 30)
       ∧ fields_but_last_saved_at v' = fields_but_last_saved_at (PySpy new_state)
       ∧ disk w' !! _get_path mgr "steamspy" = Some (dumps v'))
  ∧ (hasattr_last_saved_at (PySpy new_state) = false →
       heap w' !! 0%nat = Some (PySpy new_state)
       ∧ disk w' !! _get_path mgr "steamspy" = Some (dumps (PySpy new_state)))
  ∧ (∀ r, r ≠ 0%nat → heap w' !! r = heap w0 !! r).
Proof.
  split; [reflexivity|].
  exact (save_sets_last_saved_at_in_place mgr "steamspy" 0 30 w0 (PySpy new_state) eq_refl).
Defined.

(** C6 does not hold as stated: the file holds the last complete value,
    a second [save] starts, and a read at that moment finds an empty file
    and raises instead of returning the last complete value. *)
Lemma save_is_not_atomic :
  let fs0 := <[_get_path mgr "steamspy" := dumps (PySpy old_state)]> (∅ : gmap string (list byte)) in
  load mgr "steamspy" None fs0 = inr (Some (PySpy old_state))
  ∧ ∃ fs, head (save_states mgr "steamspy" (PySpy new_state) 30 fs0) = Some fs
      ∧ load mgr "steamspy" None fs = inl UnpicklingError.
Proof.
  intros fs0. split.
  - apply load_insert_dumps.
  - exists (<[_get_path mgr "steamspy" := []]> fs0). split.
    + apply save_states_head.
    + apply load_insert_nil.
Qed.
End examples_checkpoint.

(** ** The harvest state of steamspy_scraper.py *)

Definition done_ids (c : SteamSpyCheckpoint) : gset Z :=
  completed_ids c ∪ no_data_ids c ∪ dom (failed_ids c).

Definition partitions_disjoint (c : SteamSpyCheckpoint) : Prop :=
  completed_ids c ## no_data_ids c
  ∧ completed_ids c ## dom (failed_ids c)
  ∧ no_data_ids c ## dom (failed_ids c).

Definition universe (c : SteamSpyCheckpoint) : gset Z := list_to_set (app_ids_to_scrape c).

Section steamspy_facts.
Context `{Pickle}.
Import steamspy_scraper.

Definition partitions_cover (c : SteamSpyCheckpoint) : Prop :=
  list_to_set (get_pending c) ∪ completed_ids c ∪ no_data_ids c ∪ dom (failed_ids c)
  = universe c.

Lemma elem_of_get_pending c x :
  x ∈ get_pending c ↔ x ∈ app_ids_to_scrape c ∧ x ∉ done_ids c.
Proof. unfold get_pending, done_ids. rewrite list_elem_of_filter. tauto. Qed.

Lemma cover_of_done_in_universe c :
  done_ids c ⊆ universe c → partitions_cover c.
Proof.
  unfold partitions_cover, universe. intros Hsub. apply set_eq. intros x.
  specialize (Hsub x). revert Hsub. unfold done_ids, universe.
  rewrite !elem_of_union, !elem_of_list_to_set, elem_of_get_pending.
  unfold done_ids. rewrite !elem_of_union. intros Hsub.
  destruct (decide (x ∈ completed_ids c)); destruct (decide (x ∈ no_data_ids c));
    destruct (decide (x ∈ dom (failed_ids c))); tauto.
Qed.

(** *** The fetch function *)

Lemma get_app_details_loop_requests network appid attempts n :
  (n ≤ (get_app_details_loop network appid attempts n).2
   ∧ (get_app_details_loop network appid attempts n).2 ≤ n + attempts)%nat.
Proof.
  revert n. induction attempts as [|a IH]; intros n; simpl; [lia|].
  destruct (network n) as [status b| |msg|]; simpl; try lia.
  - destruct (status =? 200); [destruct (_ || _); simpl; lia|].
    destruct (status =? 429); [|simpl; lia].
    specialize (IH (S n)). lia.
  - specialize (IH (S n)). lia.
Qed.

(** A request whose outcome makes the loop go round again. *)
Definition retried (ev : http_event spy_body) : Prop :=
  match ev with
  | Response status _ => status = 429
  | Timeout => True
  | _ => False
  end.

Lemma get_app_details_loop_exhausted network appid attempts n :
  (∀ k, (n ≤ k < n + attempts)%nat → retried (network k)) →
  get_app_details_loop network appid attempts n
  = (Raised ("Max retries exceeded for appid " +:+ pretty appid), (n + attempts)%nat).
Proof.
  revert n. induction attempts as [|a IH]; intros n Hre; simpl.
  - by rewrite Nat.add_0_r.
  - pose proof (Hre n ltac:(lia)) as Hn.
    destruct (network n) as [status b| |msg|]; simpl in Hn; try done.
    + subst status. simpl. rewrite IH; [f_equal; lia|].
      intros k Hk. apply Hre. lia.
    + rewrite IH; [f_equal; lia|].
      intros k Hk. apply Hre. lia.
Qed.

Lemma get_app_details_loop_request_error network appid attempts n k msg :
  (k < attempts)%nat →
  (∀ j, (n ≤ j < n + k)%nat → retried (network j)) →
  network (n + k)%nat = RequestError msg →
  get_app_details_loop network appid attempts n = (Raised msg, S (n + k)).
Proof.
  revert attempts n. induction k as [|k IH]; intros [|a] n Hk Hre Hnet; try lia.
  - rewrite Nat.add_0_r in Hnet. simpl. rewrite Hnet. by rewrite Nat.add_0_r.
  - pose proof (Hre n ltac:(lia)) as Hn. simpl.
    assert (get_app_details_loop network appid a (S n) = (Raised msg, S (n + S k))) as Hrec.
    { replace (n + S k)%nat with (S n + k)%nat by lia. apply IH; [lia| |].
      - intros j Hj. apply Hre. lia.
      - by replace (S n + k)%nat with (n + S k)%nat by lia. }
    destruct (network n) as [status b| |m|]; simpl in Hn; try done.
    subst status. done.
Qed.

(** When the fetch function raises, it is for one of two reasons. *)
Lemma get_app_details_loop_raised network appid attempts n reason m :
  get_app_details_loop network appid attempts n = (Raised reason, m) →
  (reason = "Max retries exceeded for appid " +:+ pretty appid
   ∧ m = (n + attempts)%nat
   ∧ ∀ k, (n ≤ k < n + attempts)%nat → retried (network k))
  ∨ (∃ k, (n ≤ k < n + attempts)%nat ∧ network k = RequestError reason ∧ m = S k
       ∧ ∀ j, (n ≤ j < k)%nat → retried (network j)).
Proof.
  revert n. induction attempts as [|a IH]; intros n; simpl.
  - intros [= <- <-]. left. split; [done|]. split; [lia|]. intros k Hk. lia.
  - destruct (network n) as [status b| |msg|] eqn:Hev.
    + destruct (status =? 200) eqn:H200; [by destruct (_ || _)|].
      destruct (status =? 429) eqn:H429; [|done].
      intros Hrec. apply IH in Hrec as [(-> & -> & Hall)|(k & Hk & Hnet & -> & Hall)].
      * left. split; [done|]. split; [lia|]. intros k Hk.
        destruct (decide (k = n)) as [->|]; [rewrite Hev; simpl; lia|apply Hall; lia].
      * right. exists k. split; [lia|]. split; [done|]. split; [done|]. intros j Hj.
        destruct (decide (j = n)) as [->|]; [rewrite Hev; simpl; lia|apply Hall; lia].
    + intros Hrec. apply IH in Hrec as [(-> & -> & Hall)|(k & Hk & Hnet & -> & Hall)].
      * left. split; [done|]. split; [lia|]. intros k Hk.
        destruct (decide (k = n)) as [->|]; [by rewrite Hev|apply Hall; lia].
      * right. exists k. split; [lia|]. split; [done|]. split; [done|]. intros j Hj.
        destruct (decide (j = n)) as [->|]; [by rewrite Hev|apply Hall; lia].
    + intros [= <- <-]. right. exists n. split; [lia|]. split; [done|]. split; [done|].
      intros j Hj. lia.
    + done.
Qed.

End steamspy_facts.

Section steamspy_loop.
Context `{Pickle}.
Import steamspy_scraper.

(** The partition part of a checkpoint: everything but the two timestamps. *)
Definition parts (c : SteamSpyCheckpoint) :=
  (app_ids_to_scrape c, completed_ids c, no_data_ids c, failed_ids c).

Lemma save_checkpoint_parts config e self :
  parts (checkpoint (_save_checkpoint config e self)) = parts (checkpoint self).
Proof. by destruct self as [[]]. Qed.

Lemma save_checkpoint_disk config e self :
  checkpoint.load (checkpoint_mgr config) CHECKPOINT_NAME (Some TSteamSpyCheckpoint)
    (disk (_save_checkpoint config e self))
  = inr (Some (PySpy (checkpoint (_save_checkpoint config e self)))).
Proof.
  destruct self as [c fs out n t]. unfold _save_checkpoint, checkpoint.save_value. simpl.
  unfold checkpoint.load. by rewrite lookup_insert_eq, loads_dumps.
Qed.

(** What one recorded fetch does to the checkpoint. *)
Inductive recorded (appid : Z) (c : SteamSpyCheckpoint) : SteamSpyCheckpoint → Prop :=
  | recorded_completed : recorded appid c (add_completed appid c)
  | recorded_no_data : recorded appid c (add_no_data appid c)
  | recorded_failed reason : recorded appid c (set_failed appid reason c).

Lemma fetch_and_record_recorded config e appid self self' :
  fetch_and_record config e appid self = Some self' →
  recorded appid (checkpoint self) (checkpoint self').
Proof.
  unfold fetch_and_record.
  destruct (get_app_details _ _ _ _) as [[doc| |reason|] n]; intros [= <-]; simpl; constructor.
Qed.

Definition loop_inv (pending : list Z) (c : SteamSpyCheckpoint) : Prop :=
  partitions_disjoint c
  ∧ NoDup pending
  ∧ (∀ x, x ∈ pending → (x ∉ done_ids c) ∧ (x ∈ universe c))
  ∧ done_ids c ⊆ universe c.

Lemma loop_inv_parts pending c c' :
  parts c' = parts c → loop_inv pending c → loop_inv pending c'.
Proof.
  unfold parts, loop_inv, partitions_disjoint, done_ids, universe.
  intros [= -> -> -> ->]. done.
Qed.

Lemma recorded_inv appid pending c c' :
  recorded appid c c' → loop_inv (appid :: pending) c → loop_inv pending c'.
Proof.
  unfold loop_inv, partitions_disjoint, done_ids, universe.
  intros Hrec (Hdis & Hnd & Hpend & Hsub).
  apply NoDup_cons in Hnd as [Hnotin Hnd].
  pose proof (Hpend appid ltac:(left)) as [Hfresh Hin].
  assert (∀ x, x ∈ pending → x ≠ appid) as Hne by (intros x Hx ->; done).
  assert (∀ x, x ∈ pending →
            (x ∉ completed_ids c ∪ no_data_ids c ∪ dom (failed_ids c))
            ∧ (x ∈ (list_to_set (app_ids_to_scrape c) : gset Z))) as Hpend'
    by (intros x Hx; apply Hpend; by right).
  destruct Hrec; simpl; (split; [|split; [done|split]]).
  - set_solver.
  - intros x Hx. specialize (Hpend' x Hx). specialize (Hne x Hx). set_solver.
  - set_solver.
  - set_solver.
  - intros x Hx. specialize (Hpend' x Hx). specialize (Hne x Hx). set_solver.
  - set_solver.
  - rewrite dom_insert_L. set_solver.
  - intros x Hx. specialize (Hpend' x Hx). specialize (Hne x Hx).
    rewrite dom_insert_L. set_solver.
  - rewrite dom_insert_L. set_solver.
Qed.

Lemma loop_body_inv config e i appid pending self self' ex :
  loop_body config e i appid self = (self', ex) →
  loop_inv (appid :: pending) (checkpoint self) →
  match ex with
  | Some Interrupt => checkpoint self' = checkpoint self
  | _ => loop_inv pending (checkpoint self')
  end.
Proof.
  unfold loop_body. intros Hbody Hinv.
  destruct (fetch_and_record config e appid self) as [self1|] eqn:Hf.
  - apply fetch_and_record_recorded in Hf.
    pose proof (recorded_inv _ _ _ _ Hf Hinv) as Hinv1.
    destruct (checkpoint_interval config =? 0).
    { injection Hbody as <- <-. done. }
    destruct (_ `mod` _ =? 0); injection Hbody as <- <-; [|done].
    eapply loop_inv_parts; [apply save_checkpoint_parts|done].
  - injection Hbody as <- <-. done.
Qed.

Lemma loop_states_inv config e pending i self s :
  loop_inv pending (checkpoint self) →
  s ∈ loop_states config e pending i self →
  partitions_disjoint (checkpoint s) ∧ done_ids (checkpoint s) ⊆ universe (checkpoint s).
Proof.
  revert i self. induction pending as [|appid pending IH]; intros i self Hinv; simpl.
  - by intros ?%elem_of_nil.
  - destruct (loop_body config e i appid self) as [self' ex] eqn:Hbody.
    pose proof (loop_body_inv _ _ _ _ _ _ _ _ Hbody Hinv) as Hstep.
    destruct ex as [[]|].
    + intros ->%list_elem_of_singleton. destruct Hstep as (? & ? & ? & ?). done.
    + by intros ?%elem_of_nil.
    + intros ->%list_elem_of_singleton. destruct Hstep as (? & ? & ? & ?). done.
    + intros [->|Hs]%elem_of_cons.
      * destruct Hstep as (? & ? & ? & ?). done.
      * by eapply IH.
Qed.

Lemma run_loop_inv config e pending i self :
  loop_inv pending (checkpoint self) →
  let c := checkpoint (run_loop config e pending i self).1 in
  partitions_disjoint c ∧ done_ids c ⊆ universe c.
Proof.
  revert i self. induction pending as [|appid pending IH]; intros i self Hinv; simpl.
  - destruct Hinv as (? & ? & ? & ?). done.
  - destruct (loop_body config e i appid self) as [self' ex] eqn:Hbody.
    pose proof (loop_body_inv _ _ _ _ _ _ _ _ Hbody Hinv) as Hstep.
    destruct ex as [[]|]; simpl.
    + destruct Hstep as (? & ? & ? & ?). done.
    + rewrite Hstep. destruct Hinv as (? & ? & ? & ?). done.
    + destruct Hstep as (? & ? & ? & ?). done.
    + by apply IH.
Qed.

End steamspy_loop.

Section steamspy_run.
Context `{Pickle}.
Import steamspy_scraper.

Lemma sublist_filter_mono {A} (P : A → Prop) `{!∀ x, Decision (P x)} (l1 l2 : list A) :
  l1 `sublist_of` l2 → filter P l1 `sublist_of` filter P l2.
Proof.
  induction 1 as [|x l1 l2 _ IH|x l1 l2 _ IH]; [done| |].
  - rewrite !filter_cons. destruct (decide (P x)); [by apply sublist_skip|done].
  - rewrite filter_cons. destruct (decide (P x)); [by apply sublist_cons|done].
Qed.

Lemma filter_all {A} (P : A → Prop) `{!∀ x, Decision (P x)} (l : list A) :
  Forall P l → filter P l = l.
Proof.
  induction 1 as [|x l Hx _ IH]; [done|].
  rewrite filter_cons, decide_True by done. by f_equal.
Qed.

Lemma slice_to_sublist {A} (l : list A) n : slice_to l n `sublist_of` l.
Proof. unfold slice_to. destruct (n <? 0); apply sublist_take. Qed.

Lemma loop_inv_sublist l' l c :
  l' `sublist_of` l → loop_inv l c → loop_inv l' c.
Proof.
  intros Hsub (Hdis & Hnd & Hpend & Hdone). split; [done|]. split; [|split; [|done]].
  - by eapply sublist_NoDup.
  - intros x Hx. apply Hpend. by eapply sublist_subseteq.
Qed.

Lemma loop_inv_initial c :
  partitions_disjoint c → NoDup (get_pending c) → done_ids c ⊆ universe c →
  loop_inv (get_pending c) c.
Proof.
  intros Hdis Hnd Hdone. split; [done|]. split; [|split; [|done]].
  - done.
  - intros x [Hin Hx]%elem_of_get_pending. split; [done|].
    unfold universe. by apply elem_of_list_to_set.
Qed.

Lemma mark_started_parts e self :
  parts (checkpoint (do_mark_started e self)) = parts (checkpoint self).
Proof. unfold do_mark_started. by destruct (started_at _). Qed.

Lemma get_pending_parts c c' : parts c' = parts c → get_pending c' = get_pending c.
Proof. unfold parts, get_pending. by intros [= -> -> -> ->]. Qed.

Lemma initial_conditions_parts c c' :
  parts c' = parts c →
  partitions_disjoint c ∧ NoDup (get_pending c) ∧ done_ids c ⊆ universe c →
  partitions_disjoint c' ∧ NoDup (get_pending c') ∧ done_ids c' ⊆ universe c'.
Proof.
  unfold parts, partitions_disjoint, done_ids, universe, get_pending.
  by intros [= -> -> -> ->].
Qed.

(** Loading the universe happens only when there is none yet; nothing can
    then be recorded, and a dictionary has no repeated key. *)
Lemma load_app_ids_conditions config self self' :
  app_ids_to_scrape (checkpoint self) = [] →
  done_ids (checkpoint self) ⊆ universe (checkpoint self) →
  load_app_ids_from_steam_checkpoint config self = inr (Some self') →
  let c' := checkpoint self' in
  partitions_disjoint c' ∧ NoDup (get_pending c') ∧ done_ids c' ⊆ universe c'.
Proof.
  intros Hnil Hdone. unfold universe in Hdone. rewrite Hnil in Hdone.
  assert (done_ids (checkpoint self) = ∅) as Hempty by set_solver.
  unfold done_ids in Hempty.
  unfold load_app_ids_from_steam_checkpoint.
  destruct (disk self !! _) as [content|]; [|done].
  destruct (loads content) as [[c|c|d|d|s]|]; try done;
    intros [= <-]; simpl; unfold partitions_disjoint, done_ids, universe, get_pending; simpl;
    (split; [set_solver|split; [apply NoDup_filter, NoDup_fst_map_to_list|set_solver]]).
Qed.

Definition loop_input (config : ScraperConfig) (c : SteamSpyCheckpoint) : list Z :=
  if test_mode config then slice_to (get_pending c) (test_limit config) else get_pending c.

Lemma loop_inv_input config c :
  partitions_disjoint c → NoDup (get_pending c) → done_ids c ⊆ universe c →
  loop_inv (loop_input config c) c.
Proof.
  intros ???. unfold loop_input. destruct (test_mode config).
  - eapply loop_inv_sublist; [apply slice_to_sublist|by apply loop_inv_initial].
  - by apply loop_inv_initial.
Qed.

(** C1, as the code guarantees it: from an initial state whose
    partitions are pairwise disjoint, whose pending IDs are listed once each
    and whose recorded IDs all belong to the universe, after every per-ID
    step of the run loop, and when [run] returns, [completed], [excluded]
    and the keys of [failed] are pairwise disjoint, and [pending] together
    with them is the universe. *)
Theorem run_keeps_partition_invariant
    (config : ScraperConfig) (e : env spy_body) (self : SteamSpyScraper) :
  partitions_disjoint (checkpoint self) →
  NoDup (get_pending (checkpoint self)) →
  done_ids (checkpoint self) ⊆ universe (checkpoint self) →
  (∀ s, s ∈ run_states config e self →
        partitions_disjoint (checkpoint s) ∧ partitions_cover (checkpoint s))
  ∧ partitions_disjoint (checkpoint (run config e self).1)
  ∧ partitions_cover (checkpoint (run config e self).1).
Proof.
  intros Hdis Hnd Hdone.
  pose proof (initial_conditions_parts _ _ (mark_started_parts e self)
                (conj Hdis (conj Hnd Hdone))) as (Hdis1 & Hnd1 & Hdone1).
  assert (∀ self1 : SteamSpyScraper,
    partitions_disjoint (checkpoint self1) → NoDup (get_pending (checkpoint self1)) →
    done_ids (checkpoint self1) ⊆ universe (checkpoint self1) →
    (∀ s, s ∈ loop_states config e (loop_input config (checkpoint self1)) 1 self1 →
          partitions_disjoint (checkpoint s) ∧ partitions_cover (checkpoint s))
    ∧ partitions_disjoint (checkpoint (run_pending config e self1).1)
    ∧ partitions_cover (checkpoint (run_pending config e self1).1)) as Hgo.
  { intros self1 Hd Hn Hs. pose proof (loop_inv_input config _ Hd Hn Hs) as Hinv. split.
    - intros s Hin. destruct (loop_states_inv _ _ _ _ _ _ Hinv Hin) as [? ?].
      split; [done|by apply cover_of_done_in_universe].
    - unfold run_pending. fold (loop_input config (checkpoint self1)).
      destruct (get_pending (checkpoint self1)) eqn:Hpend.
      + simpl. split; [done|by apply cover_of_done_in_universe].
      + pose proof (run_loop_inv config e _ 1 _ Hinv) as Hfin. cbn zeta in Hfin.
        destruct (run_loop config e _ 1 self1) as [self' ex]. simpl in Hfin. simpl.
        pose proof (save_checkpoint_parts config e self') as Hparts.
        assert (partitions_disjoint (checkpoint (_save_checkpoint config e self'))
                ∧ done_ids (checkpoint (_save_checkpoint config e self'))
                  ⊆ universe (checkpoint (_save_checkpoint config e self'))) as [? ?].
        { exact Hfin. }
        split; [done|by apply cover_of_done_in_universe]. }
  unfold run_states, run. cbn zeta.
  destruct (app_ids_to_scrape (checkpoint (do_mark_started e self))) eqn:Hids.
  - destruct (load_app_ids_from_steam_checkpoint config (do_mark_started e self))
      as [[]|[self'|]] eqn:Hload; simpl.
    + split; [by intros ? ?%elem_of_nil|].
      split; [done|by apply cover_of_done_in_universe].
    + destruct (load_app_ids_conditions _ _ _ Hids Hdone1 Hload) as (? & ? & ?).
      by apply Hgo.
    + split; [by intros ? ?%elem_of_nil|].
      split; [done|by apply cover_of_done_in_universe].
  - cbv beta iota. by apply Hgo.
Qed.

(** The pending IDs of the harvest state that keeps its universe as a
    sequence: exactly the IDs not yet recorded, in the order of the
    universe, with their repetitions. *)
Lemma get_pending_exact_and_ordered (c : SteamSpyCheckpoint) :
  (∀ x, x ∈ get_pending c ↔
        x ∈ app_ids_to_scrape c
        ∧ (x ∉ completed_ids c) ∧ (x ∉ no_data_ids c) ∧ (x ∉ dom (failed_ids c)))
  ∧ get_pending c `sublist_of` app_ids_to_scrape c
  ∧ (∀ l, l `sublist_of` app_ids_to_scrape c →
          Forall (λ x, x ∉ done_ids c) l → l `sublist_of` get_pending c).
Proof.
  split; [|split].
  - intros x. rewrite elem_of_get_pending. unfold done_ids. rewrite !not_elem_of_union. tauto.
  - apply sublist_filter.
  - intros l Hsub Hall. unfold get_pending. fold (done_ids c).
    rewrite <- (filter_all (λ x, x ∉ done_ids c) l Hall). by apply sublist_filter_mono.
Qed.

End steamspy_run.

Section steamspy_failures.
Context `{Pickle}.
Import steamspy_scraper.

Lemma recorded_failed_other appid x c c' :
  recorded appid c c' → x ≠ appid → failed_ids c' !! x = failed_ids c !! x.
Proof. intros [] Hne; simpl; [done|done|]. by rewrite lookup_insert_ne. Qed.

Lemma loop_body_failed_other config e i appid self x :
  x ≠ appid →
  failed_ids (checkpoint (loop_body config e i appid self).1) !! x
  = failed_ids (checkpoint self) !! x.
Proof.
  intros Hne. unfold loop_body.
  destruct (fetch_and_record config e appid self) as [self1|] eqn:Hf; [|done].
  apply fetch_and_record_recorded in Hf.
  pose proof (recorded_failed_other _ x _ _ Hf Hne) as Heq.
  destruct (checkpoint_interval config =? 0); [done|].
  destruct (_ `mod` _ =? 0); [|done].
  rewrite <- Heq. by destruct self1 as [[]].
Qed.

Lemma run_loop_failed_other config e pending i self x :
  x ∉ pending →
  failed_ids (checkpoint (run_loop config e pending i self).1) !! x
  = failed_ids (checkpoint self) !! x.
Proof.
  revert i self. induction pending as [|appid pending IH]; intros i self Hx; [done|].
  apply not_elem_of_cons in Hx as [Hne Hx]. simpl.
  pose proof (loop_body_failed_other config e i appid self x Hne) as Hb.
  destruct (loop_body config e i appid self) as [self' [ex|]]; simpl in *; [done|].
  by rewrite IH.
Qed.

(** A fetch that raises is recorded under [failed] with its message, the
    loop goes on with the next ID, and the message stays. *)
Lemma failed_fetch_is_recorded_with_reason
    (config : ScraperConfig) (e : env spy_body) (i : Z) (appid : Z) (pending : list Z)
    (self : SteamSpyScraper) (reason : string) (n : nat) :
  checkpoint_interval config ≠ 0 →
  get_app_details config (net e) appid (requests self) = (Raised reason, n) →
  ∃ self',
    loop_body config e i appid self = (self', None)
    ∧ failed_ids (checkpoint self') !! appid = Some reason
    ∧ run_loop config e (appid :: pending) i self = run_loop config e pending (i + 1) self'
    ∧ (appid ∉ pending →
         failed_ids (checkpoint (run_loop config e (appid :: pending) i self).1) !! appid
         = Some reason).
Proof.
  intros Hint Hfetch.
  assert (∃ self', loop_body config e i appid self = (self', None)
                   ∧ failed_ids (checkpoint self') !! appid = Some reason)
    as (self' & Hbody & Hfailed).
  { unfold loop_body, fetch_and_record. rewrite Hfetch.
    apply Z.eqb_neq in Hint. rewrite Hint.
    destruct (_ `mod` _ =? 0); eexists; (split; [reflexivity|]).
    - unfold _save_checkpoint. simpl. apply lookup_insert_eq.
    - simpl. apply lookup_insert_eq. }
  exists self'. split; [done|]. split; [done|].
  assert (run_loop config e (appid :: pending) i self
          = run_loop config e pending (i + 1) self') as Hstep.
  { simpl. by rewrite Hbody. }
  split; [done|]. intros Hnotin. rewrite Hstep.
  by rewrite run_loop_failed_other.
Qed.

(** Whichever way the loop of [run] is left, the checkpoint file holds the
    final state; a run that never reaches the loop writes nothing. *)
Lemma steamspy_run_persists
    (config : ScraperConfig) (e : env spy_body) (self : SteamSpyScraper) :
  match (run config e self).2 with
  | LoopLeft _ =>
      checkpoint.load (checkpoint_mgr config) CHECKPOINT_NAME (Some TSteamSpyCheckpoint)
        (disk (run config e self).1)
      = inr (Some (PySpy (checkpoint (run config e self).1)))
  | _ => disk (run config e self).1 = disk self
  end.
Proof.
  assert (∀ self1, match (run_pending config e self1).2 with
    | LoopLeft _ =>
        checkpoint.load (checkpoint_mgr config) CHECKPOINT_NAME (Some TSteamSpyCheckpoint)
          (disk (run_pending config e self1).1)
        = inr (Some (PySpy (checkpoint (run_pending config e self1).1)))
    | _ => disk (run_pending config e self1).1 = disk self1
    end) as Hgo.
  { intros self1. unfold run_pending.
    destruct (get_pending (checkpoint self1)); [done|].
    destruct (run_loop config e _ 1 self1) as [self' ex]. simpl.
    apply save_checkpoint_disk. }
  assert (disk (do_mark_started e self) = disk self) as Hdisk.
  { unfold do_mark_started. by destruct (started_at _). }
  unfold run. cbn zeta.
  destruct (app_ids_to_scrape (checkpoint (do_mark_started e self))).
  - destruct (load_app_ids_from_steam_checkpoint config (do_mark_started e self))
      as [[]|[self'|]] eqn:Hload; simpl; [done| |done].
    assert (disk self' = disk self) as Hdisk'.
    { rewrite <- Hdisk. revert Hload. unfold load_app_ids_from_steam_checkpoint.
      destruct (disk (do_mark_started e self) !! _) as [content|]; [|done].
      destruct (loads content) as [[]|]; try done; by intros [= <-]. }
    specialize (Hgo self').
    destruct (run_pending config e self').2; try done; by rewrite Hgo.
  - specialize (Hgo (do_mark_started e self)).
    destruct (run_pending config e (do_mark_started e self)).2; try done; by rewrite Hgo.
Qed.

Lemma steamspy_run_enters_loop
    (config : ScraperConfig) (e : env spy_body) (self : SteamSpyScraper) :
  get_pending (checkpoint self) ≠ [] →
  ∃ ex, (run config e self).2 = LoopLeft ex.
Proof.
  intros Hpend.
  rewrite <- (get_pending_parts _ _ (mark_started_parts e self)) in Hpend.
  unfold run. cbn zeta.
  destruct (app_ids_to_scrape (checkpoint (do_mark_started e self))) eqn:Hids.
  { exfalso. apply Hpend. unfold get_pending. by rewrite Hids. }
  unfold run_pending.
  destruct (get_pending (checkpoint (do_mark_started e self))); [done|].
  destruct (run_loop config e _ 1 _) as [self' ex]. by exists ex.
Qed.

End steamspy_failures.

Module examples_steamspy.
Import steamspy_scraper.
#[local] Existing Instance unary_pickle.unary.

Definition config : ScraperConfig :=
  mkConfig "checkpoints" "checkpoints/apps_data.pkl" 100 3 false 20.

Definition portal : spy_body := mkBody "{name: Portal}" false (Some "Portal").

Definition fresh (ids : list Z) : SteamSpyScraper :=
  mkScraper (mkSpy (mkBase None None) ids ∅ ∅ ∅) ∅ [] 0 0.

(** A state whose [completed] set holds an ID outside its universe. *)
Definition stale : SteamSpyScraper :=
  mkScraper (mkSpy (mkBase None None) [1] {[5]} ∅ ∅) ∅ [] 0 0.

(** The first request succeeds, every later one fails at the transport. *)
Definition flaky : env spy_body :=
  mkEnv (λ n, match n with
              | O => Response 200 portal
              | _ => RequestError "connection reset"
              end)
        (λ n, Z.of_nat n).

(** Every request fails at the transport. *)
Definition unreachable : env spy_body :=
  mkEnv (λ _, RequestError "connection reset") (λ n, Z.of_nat n).

#[local] Instance partitions_disjoint_dec c : Decision (partitions_disjoint c).
Proof. unfold partitions_disjoint. apply _. Defined.
#[local] Instance partitions_cover_dec c : Decision (partitions_cover c).
Proof. unfold partitions_cover. apply _. Defined.

Lemma run_keeps_partition_invariant_witness :
  partitions_disjoint (checkpoint (fresh [1; 2; 3]))
  ∧ NoDup (get_pending (checkpoint (fresh [1; 2; 3])))
  ∧ done_ids (checkpoint (fresh [1; 2; 3])) ⊆ universe (checkpoint (fresh [1; 2; 3]))
  ∧ (∀ s, s ∈ run_states config flaky (fresh [1; 2; 3]) →
          partitions_disjoint (checkpoint s) ∧ partitions_cover (checkpoint s))
  ∧ partitions_disjoint (checkpoint (run config flaky (fresh [1; 2; 3])).1)
  ∧ partitions_cover (checkpoint (run config flaky (fresh [1; 2; 3])).1).
Proof.
  assert (partitions_disjoint (checkpoint (fresh [1; 2; 3]))) as H1 by by_computation.
  assert (NoDup (get_pending (checkpoint (fresh [1; 2; 3])))) as H2 by by_computation.
  assert (done_ids (checkpoint (fresh [1; 2; 3])) ⊆ universe (checkpoint (fresh [1; 2; 3])))
    as H3 by by_computation.
  split; [exact H1|]. split; [exact H2|]. split; [exact H3|].
  exact (run_keeps_partition_invariant config flaky (fresh [1; 2; 3]) H1 H2 H3).
Defined.

(** C1 does not hold as stated. With the universe [1, 1] and empty
    partitions, the first fetch of 1 succeeds and the second raises: 1 is
    then both completed and failed. With the universe [1] and 5 already
    completed, the partitions are disjoint and stay so, and their union with
    the pending IDs is not the universe. *)
Lemma partition_invariant_needs_a_proper_universe :
  (partitions_disjoint (checkpoint (fresh [1; 1]))
   ∧ ∃ s, s ∈ run_states config flaky (fresh [1; 1])
        ∧ 1 ∈ completed_ids (checkpoint s)
        ∧ failed_ids (checkpoint s) !! 1 = Some "connection reset"
        ∧ ¬ partitions_disjoint (checkpoint s))
  ∧ (partitions_disjoint (checkpoint stale)
     ∧ ∃ s, s ∈ run_states config flaky stale
          ∧ completed_ids (checkpoint s) = {[1; 5]}
          ∧ ¬ partitions_cover (checkpoint s)).
Proof.
  split.
  - split; [by_computation|].
    eexists. split.
    { apply list_elem_of_lookup. exists 1%nat. vm_compute. reflexivity. }
    split; [by_computation|]. split; [vm_compute; reflexivity|].
    refute_by_computation.
  - split; [by_computation|].
    eexists. split.
    { apply list_elem_of_lookup. exists 0%nat. vm_compute. reflexivity. }
    split; [vm_compute; reflexivity|].
    refute_by_computation.
Qed.

End examples_steamspy.

(** ** The set-based pending computations *)

Section set_based_pending.
Variable set_order : gset Z → list Z.
Hypothesis set_order_enumerates : ∀ s, set_order s ≡ₚ elements s.

Lemma elem_of_set_order s x : x ∈ set_order s ↔ x ∈ s.
Proof. by rewrite set_order_enumerates, elem_of_elements. Qed.

Lemma NoDup_set_order s : NoDup (set_order s).
Proof. rewrite set_order_enumerates. apply NoDup_elements. Qed.

Lemma api_get_pending_exact (c : SteamAPICheckpoint) (all_app_ids : gset Z) :
  (∀ x, x ∈ steam_api_scraper_v2.get_pending set_order c all_app_ids ↔
        x ∈ all_app_ids
        ∧ (x ∉ dom (apps_data c)) ∧ (x ∉ excluded_apps c) ∧ (x ∉ error_apps c))
  ∧ NoDup (steam_api_scraper_v2.get_pending set_order c all_app_ids).
Proof.
  unfold steam_api_scraper_v2.get_pending. split; [|apply NoDup_set_order].
  intros x. rewrite elem_of_set_order, elem_of_difference, !not_elem_of_union. tauto.
Qed.

Lemma get_remaining_apps_exact (apps : gmap Z string) (excluded errors : gset Z)
    (all_apps : list Z) :
  (∀ x, x ∈ steam_api_scraper.get_remaining_apps set_order apps excluded errors all_apps ↔
        x ∈ all_apps ∧ (x ∉ dom apps) ∧ (x ∉ excluded) ∧ (x ∉ errors))
  ∧ NoDup (steam_api_scraper.get_remaining_apps set_order apps excluded errors all_apps).
Proof.
  unfold steam_api_scraper.get_remaining_apps. split; [|apply NoDup_set_order].
  intros x.
  rewrite elem_of_set_order, elem_of_difference, !not_elem_of_union, elem_of_list_to_set.
  tauto.
Qed.

End set_based_pending.

(** ** The other fetch functions *)

Section fetch_bounds.

Lemma get_store_data_loop_requests network appid attempts n :
  (n ≤ (steam_store_scraper_v2.get_store_data_loop network appid attempts n).2
   ∧ (steam_store_scraper_v2.get_store_data_loop network appid attempts n).2 ≤ n + attempts)%nat.
Proof.
  revert n. induction attempts as [|a IH]; intros n; simpl; [lia|].
  destruct (network n) as [status b| |msg|]; simpl; try lia.
  - destruct (status =? 200); [simpl; lia|].
    destruct (status =? 404); [simpl; lia|].
    destruct (status =? 429); [specialize (IH (S n)); lia|].
    destruct (status =? 403); [specialize (IH (S n)); lia|simpl; lia].
  - specialize (IH (S n)). lia.
Qed.

Definition store_retried (ev : http_event (option string)) : Prop :=
  match ev with
  | Response status _ => status = 429 ∨ status = 403
  | Timeout => True
  | _ => False
  end.

Lemma get_store_data_loop_exhausted network appid attempts n :
  (∀ k, (n ≤ k < n + attempts)%nat → store_retried (network k)) →
  steam_store_scraper_v2.get_store_data_loop network appid attempts n
  = (Raised ("Max retries exceeded for appid " +:+ pretty appid), (n + attempts)%nat).
Proof.
  revert n. induction attempts as [|a IH]; intros n Hre; simpl.
  - by rewrite Nat.add_0_r.
  - pose proof (Hre n ltac:(lia)) as Hn.
    assert (∀ k, (S n ≤ k < S n + a)%nat → store_retried (network k)) as Hre'
      by (intros k Hk; apply Hre; lia).
    destruct (network n) as [status b| |msg|]; simpl in Hn; try done.
    + destruct Hn as [-> | ->]; simpl; (rewrite IH; [f_equal; lia|done]).
    + rewrite IH; [f_equal; lia|done].
Qed.

(** C7 on the fetch function of steam_api_scraper_v2.py: while the server
    answers 429 the function calls itself again; no attempt counter stops
    it. It makes one request per nested call the interpreter allows and
    ends in [RecursionError], whatever [depth] is. *)
Theorem recursive_fetch_has_no_retry_bound appid depth n entry :
  steam_api_scraper_v2.get_app_details (λ _, Response 429 entry) appid depth n
  = (inl steam_api_scraper_v2.RecursionError, (n + depth)%nat).
Proof.
  revert n. induction depth as [|d IH]; intros n; simpl.
  - by rewrite Nat.add_0_r.
  - rewrite IH. f_equal. lia.
Qed.

End fetch_bounds.

(** ** The run of steam_api_scraper_v2.py *)

Section api_run.
Context `{Pickle}.
Variable set_order : gset Z → list Z.
Import steam_api_scraper_v2.

Lemma api_save_checkpoint_disk config e self :
  checkpoint.load (checkpoint_mgr config) CHECKPOINT_NAME (Some TSteamAPICheckpoint)
    (disk (_save_checkpoint config e self))
  = inr (Some (PyApi (checkpoint (_save_checkpoint config e self)))).
Proof.
  destruct self as [c fs n t]. unfold _save_checkpoint, checkpoint.save_value. simpl.
  unfold checkpoint.load. by rewrite lookup_insert_eq, loads_dumps.
Qed.

Lemma api_run_persists config e depth all_app_ids self :
  match (run set_order config e depth all_app_ids self).2 with
  | AllProcessed => disk (run set_order config e depth all_app_ids self).1 = disk self
  | _ =>
      checkpoint.load (checkpoint_mgr config) CHECKPOINT_NAME (Some TSteamAPICheckpoint)
        (disk (run set_order config e depth all_app_ids self).1)
      = inr (Some (PyApi (checkpoint (run set_order config e depth all_app_ids self).1)))
  end.
Proof.
  unfold run. cbn zeta.
  destruct (get_pending set_order _ all_app_ids).
  - simpl. unfold do_mark_started. by destruct (started_at _).
  - destruct (run_loop config e depth _ 1 _) as [self' ex]. simpl.
    destruct ex as [[]|]; apply api_save_checkpoint_disk.
Qed.

(** A fetch that returns nothing is recorded in the error set and the loop
    goes on with the next ID. *)
Lemma api_failed_fetch_is_recorded config e depth i appid remaining self n :
  checkpoint_interval config ≠ 0 →
  get_app_details (net e) appid depth (requests self) = (inr None, n) →
  ∃ self',
    appid ∈ error_apps (checkpoint self')
    ∧ run_loop config e depth (appid :: remaining) i self
      = run_loop config e depth remaining (i + 1) self'.
Proof.
  intros Hint Hfetch. simpl. rewrite Hfetch.
  apply Z.eqb_neq in Hint. rewrite Hint.
  destruct (_ `mod` _ =? 0); eexists; (split; [|reflexivity]).
  - unfold _save_checkpoint. simpl. set_solver.
  - simpl. set_solver.
Qed.

End api_run.

(** ** The run of steam_tags_scraper.py *)

Section tags_run.
Context `{Pickle}.
Import steam_tags_scraper.

Lemma path_of_suffix config f1 f2 :
  path_of config f1 = path_of config f2 → f1 +:+ ".pkl" = f2 +:+ ".pkl".
Proof.
  unfold path_of. intros Heq.
  apply (inj (String.app _)) in Heq. by apply (inj (String.app _)) in Heq.
Qed.

Lemma tags_save_progress_disk config self :
  let self' := save_progress config self in
  load config "tags_data" (disk self') = inr (Some (PyTags (tags_data self')))
  ∧ load config "no_tags_apps" (disk self') = inr (Some (PySet (no_tags_apps self')))
  ∧ load config "error_apps" (disk self') = inr (Some (PySet (error_apps self'))).
Proof.
  unfold save_progress, save, load. simpl.
  assert (path_of config "no_tags_apps" ≠ path_of config "tags_data")
    by (intros ?%path_of_suffix; done).
  assert (path_of config "error_apps" ≠ path_of config "tags_data")
    by (intros ?%path_of_suffix; done).
  assert (path_of config "error_apps" ≠ path_of config "no_tags_apps")
    by (intros ?%path_of_suffix; done).
  repeat split.
  - rewrite lookup_insert_ne, lookup_insert_ne, lookup_insert_eq by done.
    by rewrite loads_dumps.
  - rewrite lookup_insert_ne, lookup_insert_eq by done. by rewrite loads_dumps.
  - rewrite lookup_insert_eq. by rewrite loads_dumps.
Qed.

Lemma tags_run_persists_on_completion config network appids self :
  match (run config network appids self).2 with
  | Completed =>
      let self' := (run config network appids self).1 in
      load config "tags_data" (disk self') = inr (Some (PyTags (tags_data self')))
      ∧ load config "no_tags_apps" (disk self') = inr (Some (PySet (no_tags_apps self')))
      ∧ load config "error_apps" (disk self') = inr (Some (PySet (error_apps self')))
  | _ => True
  end.
Proof.
  unfold run.
  destruct (load_progress config self) as [self0|]; [|done].
  destruct (match appids with None => _ | Some l => Some l end) as [[|a l]|]; [done| |done].
  destruct (if test_mode config then _ else _); [done|].
  destruct (run_loop config network _ 1 self0) as [self' [ex|]]; [done|].
  apply tags_save_progress_disk.
Qed.

End tags_run.

(** ** The run of steam_api_scraper.py *)

Section legacy_api_run.
Context `{Pickle}.
Variable set_order : gset Z → list Z.
Import steam_api_scraper.

Lemma legacy_path_of_suffix config f1 f2 :
  path_of config f1 = path_of config f2 → f1 +:+ ".pkl" = f2 +:+ ".pkl".
Proof.
  unfold path_of. intros Heq.
  apply (inj (String.app _)) in Heq. by apply (inj (String.app _)) in Heq.
Qed.

Lemma legacy_save_progress_disk config self :
  let self' := save_progress config self in
  load config "apps_data" (disk self') = inr (Some (PyDict (apps_data self')))
  ∧ if test_mode config then True
    else load config "excluded_apps" (disk self') = inr (Some (PySet (excluded_apps self')))
         ∧ load config "error_apps" (disk self') = inr (Some (PySet (error_apps self'))).
Proof.
  unfold save_progress, save, load. destruct (test_mode config); simpl.
  - split; [|done]. by rewrite lookup_insert_eq, loads_dumps.
  - assert (path_of config "excluded_apps" ≠ path_of config "apps_data")
      by (intros ?%legacy_path_of_suffix; done).
    assert (path_of config "error_apps" ≠ path_of config "apps_data")
      by (intros ?%legacy_path_of_suffix; done).
    assert (path_of config "error_apps" ≠ path_of config "excluded_apps")
      by (intros ?%legacy_path_of_suffix; done).
    repeat split.
    + rewrite lookup_insert_ne, lookup_insert_ne, lookup_insert_eq by done.
      by rewrite loads_dumps.
    + rewrite lookup_insert_ne, lookup_insert_eq by done. by rewrite loads_dumps.
    + rewrite lookup_insert_eq. by rewrite loads_dumps.
Qed.

Lemma legacy_api_run_persists_on_completion config network depth all_apps self :
  match (run set_order config network depth all_apps self).2 with
  | Completed =>
      let self' := (run set_order config network depth all_apps self).1 in
      load config "apps_data" (disk self') = inr (Some (PyDict (apps_data self')))
      ∧ if test_mode config then True
        else load config "excluded_apps" (disk self') = inr (Some (PySet (excluded_apps self')))
             ∧ load config "error_apps" (disk self') = inr (Some (PySet (error_apps self')))
  | _ => True
  end.
Proof.
  unfold run.
  destruct (load_progress config self) as [self0|]; [|done].
  destruct (run_loop config network depth _ 0 self0) as [self' [ex|]]; [done|].
  apply legacy_save_progress_disk.
Qed.

End legacy_api_run.

(** ** The engines side by side *)

Section engines.
Context `{Pickle}.

(** C4, as the code has it: in steamspy_scraper.py and
    steam_api_scraper_v2.py, whichever way the fetch loop is left, by
    exhausting the pending IDs, by the interruption signal or by an
    exception, the checkpoint store holds the final harvest state when [run]
    returns; a run that finds nothing pending, or no universe, returns
    without writing. In steam_tags_scraper.py and steam_api_scraper.py a
    run that exhausts its pending IDs leaves its partitions in the store
    (in the test mode of steam_api_scraper.py, the fetched payloads
    only). *)
Theorem state_persisted_when_loop_is_left :
  (∀ config e self,
     match (steamspy_scraper.run config e self).2 with
     | steamspy_scraper.LoopLeft _ =>
         checkpoint.load (steamspy_scraper.checkpoint_mgr config)
           steamspy_scraper.CHECKPOINT_NAME (Some TSteamSpyCheckpoint)
           (steamspy_scraper.disk (steamspy_scraper.run config e self).1)
         = inr (Some (PySpy (steamspy_scraper.checkpoint (steamspy_scraper.run config e self).1)))
     | _ =>
         steamspy_scraper.disk (steamspy_scraper.run config e self).1
         = steamspy_scraper.disk self
     end)
  ∧ (∀ config e self,
       match steamspy_scraper.get_pending (steamspy_scraper.checkpoint self) with
       | [] => True
       | _ :: _ => ∃ ex, (steamspy_scraper.run config e self).2 = steamspy_scraper.LoopLeft ex
       end)
  ∧ (∀ set_order config e depth all_app_ids self,
       match (steam_api_scraper_v2.run set_order config e depth all_app_ids self).2 with
       | steam_api_scraper_v2.AllProcessed =>
           steam_api_scraper_v2.disk
             (steam_api_scraper_v2.run set_order config e depth all_app_ids self).1
           = steam_api_scraper_v2.disk self
       | _ =>
           checkpoint.load (steam_api_scraper_v2.checkpoint_mgr config)
             steam_api_scraper_v2.CHECKPOINT_NAME (Some TSteamAPICheckpoint)
             (steam_api_scraper_v2.disk
                (steam_api_scraper_v2.run set_order config e depth all_app_ids self).1)
           = inr (Some (PyApi (steam_api_scraper_v2.checkpoint
                   (steam_api_scraper_v2.run set_order config e depth all_app_ids self).1)))
       end)
  ∧ (∀ config network appids self,
       match (steam_tags_scraper.run config network appids self).2 with
       | steam_tags_scraper.Completed =>
           let self' := (steam_tags_scraper.run config network appids self).1 in
           steam_tags_scraper.load config "tags_data" (steam_tags_scraper.disk self')
           = inr (Some (PyTags (steam_tags_scraper.tags_data self')))
           ∧ steam_tags_scraper.load config "no_tags_apps" (steam_tags_scraper.disk self')
             = inr (Some (PySet (steam_tags_scraper.no_tags_apps self')))
           ∧ steam_tags_scraper.load config "error_apps" (steam_tags_scraper.disk self')
             = inr (Some (PySet (steam_tags_scraper.error_apps self')))
       | _ => True
       end)
  ∧ (∀ set_order config network depth all_apps self,
       match (steam_api_scraper.run set_order config network depth all_apps self).2 with
       | steam_api_scraper.Completed =>
           let self' := (steam_api_scraper.run set_order config network depth all_apps self).1 in
           steam_api_scraper.load config "apps_data" (steam_api_scraper.disk self')
           = inr (Some (PyDict (steam_api_scraper.apps_data self')))
           ∧ if steam_api_scraper.test_mode config then True
             else steam_api_scraper.load config "excluded_apps" (steam_api_scraper.disk self')
                  = inr (Some (PySet (steam_api_scraper.excluded_apps self')))
                  ∧ steam_api_scraper.load config "error_apps" (steam_api_scraper.disk self')
                    = inr (Some (PySet (steam_api_scraper.error_apps self')))
       | _ => True
       end).
Proof.
  split; [|split; [|split; [|split]]].
  - apply steamspy_run_persists.
  - intros config e self.
    destruct (steamspy_scraper.get_pending (steamspy_scraper.checkpoint self)) eqn:Hp;
      [done|].
    apply steamspy_run_enters_loop. by rewrite Hp.
  - apply api_run_persists.
  - apply tags_run_persists_on_completion.
  - apply legacy_api_run_persists_on_completion.
Qed.

(** C8, as the code has it. In steamspy_scraper.py, with a checkpoint
    interval other than zero: when the fetch function raises, the engine
    files the ID under [failed] with the message of the exception, goes on
    with the remaining pending IDs, and the message is still there when the
    loop ends unless the ID is pending a second time; the fetch function
    raises with "Max retries exceeded ..." when every one of its attempts was
    rate-limited or timed out, and with the message of the request error
    when an attempt fails at the transport. In steam_api_scraper_v2.py,
    under the same condition on the interval, a fetch that returns nothing
    puts the ID in the error set, which keeps no reason, and the loop goes
    on. *)
Theorem failed_fetch_recorded_and_run_continues :
  (∀ config e i appid pending self reason n,
     steamspy_scraper.checkpoint_interval config ≠ 0 →
     steamspy_scraper.get_app_details config (net e) appid (steamspy_scraper.requests self)
     = (Raised reason, n) →
     ∃ self',
       steamspy_scraper.loop_body config e i appid self = (self', None)
       ∧ failed_ids (steamspy_scraper.checkpoint self') !! appid = Some reason
       ∧ steamspy_scraper.run_loop config e (appid :: pending) i self
         = steamspy_scraper.run_loop config e pending (i + 1) self'
       ∧ (appid ∉ pending →
            failed_ids (steamspy_scraper.checkpoint
              (steamspy_scraper.run_loop config e (appid :: pending) i self).1) !! appid
            = Some reason))
  ∧ (∀ network appid attempts n,
       (∀ k, (n ≤ k < n + attempts)%nat → retried (network k)) →
       steamspy_scraper.get_app_details_loop network appid attempts n
       = (Raised ("Max retries exceeded for appid " +:+ pretty appid), (n + attempts)%nat))
  ∧ (∀ network appid attempts n k msg,
       (k < attempts)%nat →
       (∀ j, (n ≤ j < n + k)%nat → retried (network j)) →
       network (n + k)%nat = RequestError msg →
       steamspy_scraper.get_app_details_loop network appid attempts n
       = (Raised msg, S (n + k)))
  ∧ (∀ config e depth i appid remaining self n,
       steam_api_scraper_v2.checkpoint_interval config ≠ 0 →
       steam_api_scraper_v2.get_app_details (net e) appid depth
         (steam_api_scraper_v2.requests self) = (inr None, n) →
       ∃ self',
         appid ∈ error_apps (steam_api_scraper_v2.checkpoint self')
         ∧ steam_api_scraper_v2.run_loop config e depth (appid :: remaining) i self
           = steam_api_scraper_v2.run_loop config e depth remaining (i + 1) self').
Proof.
  split; [|split; [|split]].
  - apply failed_fetch_is_recorded_with_reason.
  - apply get_app_details_loop_exhausted.
  - apply get_app_details_loop_request_error.
  - apply api_failed_fetch_is_recorded.
Qed.

End engines.

(** C5, as the code has it: the harvest state that keeps its universe as
    a sequence returns exactly the IDs of the universe that are in none of
    [completed], [excluded] and the keys of [failed], in the order of the
    universe; the set-based variants of steam_api_scraper_v2.py and
    steam_api_scraper.py return exactly those IDs, each once, in the order
    in which Python enumerates the set. *)
Theorem pending_ids_exact (set_order : gset Z → list Z) :
  (∀ s, set_order s ≡ₚ elements s) →
  (∀ c : SteamSpyCheckpoint,
     (∀ x, x ∈ steamspy_scraper.get_pending c ↔
           x ∈ app_ids_to_scrape c
           ∧ (x ∉ completed_ids c) ∧ (x ∉ no_data_ids c) ∧ (x ∉ dom (failed_ids c)))
     ∧ steamspy_scraper.get_pending c `sublist_of` app_ids_to_scrape c
     ∧ (∀ l, l `sublist_of` app_ids_to_scrape c →
             Forall (λ x, x ∉ done_ids c) l → l `sublist_of` steamspy_scraper.get_pending c))
  ∧ (∀ (c : SteamAPICheckpoint) (all_app_ids : gset Z),
       (∀ x, x ∈ steam_api_scraper_v2.get_pending set_order c all_app_ids ↔
             x ∈ all_app_ids
             ∧ (x ∉ dom (apps_data c)) ∧ (x ∉ excluded_apps c) ∧ (x ∉ error_apps c))
       ∧ NoDup (steam_api_scraper_v2.get_pending set_order c all_app_ids))
  ∧ (∀ (apps : gmap Z string) (excluded errors : gset Z) (all_apps : list Z),
       (∀ x, x ∈ steam_api_scraper.get_remaining_apps set_order apps excluded errors all_apps ↔
             x ∈ all_apps ∧ (x ∉ dom apps) ∧ (x ∉ excluded) ∧ (x ∉ errors))
       ∧ NoDup (steam_api_scraper.get_remaining_apps set_order apps excluded errors all_apps)).
Proof.
  intros Horder. split; [|split].
  - apply get_pending_exact_and_ordered.
  - by apply api_get_pending_exact.
  - by apply get_remaining_apps_exact.
Qed.

Module examples_engines.
#[local] Existing Instance unary_pickle.unary.

(** One enumeration of a set: in increasing order. CPython gives it for
    a set of up to four non-negative integers below 8; it is not the order
    of every set, {1, 8} is enumerated as 8, 1. *)
Definition ascending (s : gset Z) : list Z := merge_sort Z.le (elements s).

Lemma ascending_enumerates s : ascending s ≡ₚ elements s.
Proof. apply merge_sort_Permutation. Qed.

(** C5 does not hold as stated: for the app list [2, 1] and nothing
    processed, the set-based [get_remaining_apps] returns [1, 2] under an
    enumeration of the set in increasing order. *)
Lemma set_based_pending_loses_order :
  (∀ s, ascending s ≡ₚ elements s)
  ∧ steam_api_scraper.get_remaining_apps ascending ∅ ∅ ∅ [2; 1] = [1; 2]
  ∧ ¬ ([1; 2] `sublist_of` [2; 1]).
Proof.
  split; [apply ascending_enumerates|]. split; [vm_compute; reflexivity|].
  intros Hsub. apply sublist_cons_l in Hsub as (k1 & k2 & Hk & Hsub).
  apply sublist_cons_l in Hsub as (k3 & k4 & -> & _).
  destruct k1 as [|? [|? [|? ?]]]; simplify_eq/=.
  destruct k3; simplify_eq/=.
Qed.

Definition spy_config : steamspy_scraper.ScraperConfig :=
  steamspy_scraper.mkConfig "checkpoints" "checkpoints/apps_data.pkl" 100 3 false 20.

Definition tags_config : steam_tags_scraper.TagScraperConfig :=
  steam_tags_scraper.mkConfig "checkpoints" 500 false 20 3.

Definition tags_fresh : steam_tags_scraper.SteamTagsScraper :=
  steam_tags_scraper.mkScraper ∅ ∅ ∅ ∅ 0.

(** The first page is fetched, the signal arrives during the second
    request. *)
Definition interrupted_network : nat → http_event (list string) :=
  λ n, match n with O => Response 200 ["RPG"] | _ => KeyboardInterrupt end.

Definition api_config : steam_api_scraper_v2.ScraperConfig :=
  steam_api_scraper_v2.mkConfig "checkpoints" 2000 false 20.

Definition api_fresh : steam_api_scraper_v2.SteamScraper :=
  steam_api_scraper_v2.mkScraper (mkApi (mkBase None None) ∅ ∅ ∅) ∅ 0 0.

Definition always (status : Z) : env (option steam_api_scraper_v2.details) :=
  mkEnv (λ _, Response status None) (λ n, Z.of_nat n).

Definition broken_pipe : env (option steam_api_scraper_v2.details) :=
  mkEnv (λ _, RequestError "connection reset") (λ n, Z.of_nat n).

(** C4 does not hold as stated. A run of steam_api_scraper_v2.py that
    finds no app to fetch marks its start and returns without writing: no
    checkpoint is in the store. A run of the tags scraper that is
    interrupted during its second request has recorded the first app and
    leaves by the exception: nothing of it is in the store. *)
Lemma runs_that_leave_nothing_on_disk :
  (let r := steam_api_scraper_v2.run ascending api_config (always 200) 1000 ∅ api_fresh in
   r.2 = steam_api_scraper_v2.AllProcessed
   ∧ started_at (api_base (steam_api_scraper_v2.checkpoint r.1)) = Some 0
   ∧ checkpoint.load (steam_api_scraper_v2.checkpoint_mgr api_config)
       steam_api_scraper_v2.CHECKPOINT_NAME None (steam_api_scraper_v2.disk r.1) = inr None)
  ∧ (let r := steam_tags_scraper.run tags_config interrupted_network (Some [1; 2]) tags_fresh in
     r.2 = steam_tags_scraper.Propagated steam_tags_scraper.KeyboardInterrupt_
     ∧ steam_tags_scraper.tags_data r.1 !! 1 = Some ["RPG"]
     ∧ steam_tags_scraper.load tags_config "tags_data" (steam_tags_scraper.disk r.1)
       = inr None).
Proof. split; vm_compute; done. Qed.

(** C8 does not hold as stated for steam_api_scraper_v2.py. A fetch that
    fails with HTTP 500 and one that fails with HTTP 418 leave the same
    harvest state: the ID is in the error set and no reason is kept. A
    request that fails at the transport raises through the loop: the ID is
    not recorded and the next ID is never requested. *)
Lemma error_set_keeps_no_reason :
  (let r500 := steam_api_scraper_v2.run_loop api_config (always 500) 1000 [7] 1 api_fresh in
   let r418 := steam_api_scraper_v2.run_loop api_config (always 418) 1000 [7] 1 api_fresh in
   error_apps (steam_api_scraper_v2.checkpoint r500.1) = {[7]}
   ∧ steam_api_scraper_v2.checkpoint r500.1 = steam_api_scraper_v2.checkpoint r418.1)
  ∧ (let r := steam_api_scraper_v2.run_loop api_config broken_pipe 1000 [7; 8] 1 api_fresh in
     r.2 = Some (steam_api_scraper_v2.RequestException "connection reset")
     ∧ error_apps (steam_api_scraper_v2.checkpoint r.1) = ∅
     ∧ steam_api_scraper_v2.requests r.1 = 1%nat).
Proof. split; vm_compute; done. Qed.

Definition spy_unreachable : env steamspy_scraper.spy_body :=
  mkEnv (λ _, RequestError "connection reset") (λ n, Z.of_nat n).

Definition spy_fresh (ids : list Z) : steamspy_scraper.SteamSpyScraper :=
  steamspy_scraper.mkScraper (mkSpy (mkBase None None) ids ∅ ∅ ∅) ∅ [] 0 0.

Lemma failed_fetch_recorded_witness :
  steamspy_scraper.checkpoint_interval spy_config ≠ 0
  ∧ steamspy_scraper.get_app_details spy_config (net spy_unreachable) 7
      (steamspy_scraper.requests (spy_fresh [7; 8]))
    = (Raised "connection reset", 1%nat)
  ∧ ∃ self',
      steamspy_scraper.loop_body spy_config spy_unreachable 1 7 (spy_fresh [7; 8])
      = (self', None)
      ∧ failed_ids (steamspy_scraper.checkpoint self') !! 7 = Some "connection reset"
      ∧ steamspy_scraper.run_loop spy_config spy_unreachable [7; 8] 1 (spy_fresh [7; 8])
        = steamspy_scraper.run_loop spy_config spy_unreachable [8] (1 + 1) self'
      ∧ (7 ∉ [8] →
           failed_ids (steamspy_scraper.checkpoint
             (steamspy_scraper.run_loop spy_config spy_unreachable [7; 8] 1
                (spy_fresh [7; 8])).1) !! 7
           = Some "connection reset").
Proof.
  assert (steamspy_scraper.checkpoint_interval spy_config ≠ 0) as H1 by by_computation.
  split; [exact H1|]. split; [reflexivity|].
  exact (proj1 failed_fetch_recorded_and_run_continues
           spy_config spy_unreachable 1 7 [8] (spy_fresh [7; 8]) "connection reset" 1%nat
           H1 eq_refl).
Defined.

Lemma pending_ids_exact_witness :
  (∀ s : gset Z, elements s ≡ₚ elements s)
  ∧ steamspy_scraper.get_pending (mkSpy (mkBase None None) [3; 1; 2; 1] {[2]} ∅ ∅)
    `sublist_of` [3; 1; 2; 1]
  ∧ NoDup (steam_api_scraper.get_remaining_apps elements ∅ ∅ ∅ [2; 1]).
Proof.
  assert (∀ s : gset Z, elements s ≡ₚ elements s) as H1 by done.
  split; [exact H1|].
  pose proof (pending_ids_exact elements H1) as (Hspy & _ & Hv1).
  split.
  - apply (Hspy (mkSpy (mkBase None None) [3; 1; 2; 1] {[2]} ∅ ∅)).
  - apply (Hv1 ∅ ∅ ∅ [2; 1]).
Defined.

End examples_engines.

(** ** insert_app_details.prepare_data *)

Section app_details.
Import insert_app_details.

Variable strptime_strftime : string → string → option string.
Variable int_of_str : string → option Z.
Variable names_order : gset string → list string.
Variable pairs_order : gset (Z * Z) → list (Z * Z).

Abbreviation game_of := (game_of strptime_strftime int_of_str).
Abbreviation item_step := (item_step strptime_strftime int_of_str).
Abbreviation prepare_data :=
  (prepare_data strptime_strftime int_of_str names_order pairs_order).

(** The entries that pass the guard, in input order. *)
Definition games_in (data : list (Z * option raw_app)) : list (Z * raw_app) :=
  omap (λ '(appid, entry), if is_game entry then pair appid <$> entry else None) data.

(** The lookup references of the batch, each with the ID of its game, in
    input order. *)
Definition refs_of {X} (proj : raw_app → list X) (data : list (Z * option raw_app))
    : list (Z * X) :=
  games_in data ≫= λ '(appid, raw), pair appid <$> proj raw.

(** The numeric ID of the first reference that carries [name]. *)
Fixpoint first_id (name : string) (refs : list (Z * string)) : option Z :=
  match refs with
  | [] => None
  | (cid, n) :: refs' => if decide (n = name) then Some cid else first_id name refs'
  end.

Lemma games_in_cons item data :
  games_in (item :: data) = games_in [item] ++ games_in data.
Proof.
  unfold games_in. destruct item as [appid entry]. simpl.
  by destruct (is_game entry), entry.
Qed.

Lemma refs_of_cons {X} (proj : raw_app → list X) item data :
  refs_of proj (item :: data) = refs_of proj [item] ++ refs_of proj data.
Proof. unfold refs_of. by rewrite games_in_cons, bind_app. Qed.

Lemma refs_of_skipped {X} (proj : raw_app → list X) appid entry :
  is_game entry = false → refs_of proj [(appid, entry)] = [].
Proof. unfold refs_of, games_in. simpl. by intros ->. Qed.

Lemma refs_of_game {X} (proj : raw_app → list X) appid raw :
  is_game (Some raw) = true → refs_of proj [(appid, Some raw)] = pair appid <$> proj raw.
Proof. unfold refs_of, games_in. simpl. intros ->. simpl. by rewrite app_nil_r. Qed.

Lemma games_in_game appid raw :
  is_game (Some raw) = true → games_in [(appid, Some raw)] = [(appid, raw)].
Proof. intros Hg. unfold games_in. simpl. unfold is_game in Hg. by rewrite Hg. Qed.

Lemma games_in_skipped appid entry :
  is_game entry = false → games_in [(appid, entry)] = [].
Proof. intros Hg. unfold games_in. simpl omap. by rewrite Hg. Qed.

(** The loop bodies over one reference. *)
Definition genre_ref_step (acc : list (Z * string) * list (Z * Z)) (r : Z * (Z * string))
    : list (Z * string) * list (Z * Z) :=
  (odict.set r.2.1 r.2.2 acc.1, acc.2 ++ [(r.1, r.2.1)]).

Definition category_ref_step
    (acc : list (string * Z) * list (Z * string) * list (Z * Z)) (r : Z * (Z * string)) :=
  category_step r.1 acc r.2.

Definition name_ref_step (acc : gset string * list (Z * string)) (r : Z * string)
    : gset string * list (Z * string) :=
  ({[r.2]} ∪ acc.1, acc.2 ++ [r]).

Lemma genres_loop_refs appid gs acc :
  genres_loop appid gs acc = foldl genre_ref_step acc (pair appid <$> gs).
Proof.
  unfold genres_loop. revert acc. induction gs as [|[gid d] gs IH]; intros [g gg]; [done|].
  simpl. by rewrite IH.
Qed.

Lemma categories_loop_refs appid cs acc :
  categories_loop appid cs acc = foldl category_ref_step acc (pair appid <$> cs).
Proof.
  unfold categories_loop. revert acc. induction cs as [|c cs IH]; intros acc; [done|].
  simpl. by rewrite IH.
Qed.

Lemma names_loop_refs appid ns acc :
  names_loop appid ns acc = foldl name_ref_step acc (pair appid <$> ns).
Proof.
  unfold names_loop. revert acc. induction ns as [|n ns IH]; intros [s rows]; [done|].
  simpl. by rewrite IH.
Qed.

(** The local variables after the outer loop, table by table. *)
Record unfolded (st st' : locals) (data : list (Z * option raw_app)) : Prop := {
  unf_games : l_games st' = l_games st ++ ((λ g, game_of g.1 g.2) <$> games_in data);
  unf_genres :
    (l_genres st', l_game_genres st')
    = foldl genre_ref_step (l_genres st, l_game_genres st) (refs_of genres data);
  unf_categories :
    (l_category_name_to_id st', l_categories st', l_game_categories st')
    = foldl category_ref_step
        (l_category_name_to_id st, l_categories st, l_game_categories st)
        (refs_of categories data);
  unf_developers :
    (l_developers st', l_game_developers st')
    = foldl name_ref_step (l_developers st, l_game_developers st) (refs_of developers data);
  unf_publishers :
    (l_publishers st', l_game_publishers st')
    = foldl name_ref_step (l_publishers st, l_game_publishers st) (refs_of publishers data)
}.

Lemma item_step_unfolded st item : unfolded st (item_step st item) [item].
Proof.
  destruct item as [appid [raw|]].
  - unfold item_step. cbv beta iota.
    destruct (is_game (Some raw)) eqn:Hgame; simpl negb; cbv iota.
    + rewrite genres_loop_refs, categories_loop_refs, !names_loop_refs.
      destruct (foldl genre_ref_step _ _) as [g gg] eqn:Hg.
      destruct (foldl category_ref_step _ _) as [[m c] gc] eqn:Hc.
      destruct (foldl name_ref_step (l_developers st, _) _) as [d gd] eqn:Hd.
      destruct (foldl name_ref_step (l_publishers st, _) _) as [p gp] eqn:Hp.
      split; rewrite ?refs_of_game, ?games_in_game by done; simpl; done.
    + split; rewrite ?refs_of_skipped, ?games_in_skipped by done; simpl; try done.
      by rewrite app_nil_r.
  - split; rewrite ?refs_of_skipped by done; simpl; try done. by rewrite app_nil_r.
Qed.

Lemma unfolded_trans st1 st2 st3 d1 d2 :
  unfolded st1 st2 d1 → unfolded st2 st3 d2 → unfolded st1 st3 (d1 ++ d2).
Proof.
  assert (∀ d, games_in (d1 ++ d) = games_in d1 ++ games_in d) as Hg.
  { intros d. unfold games_in. by rewrite omap_app. }
  assert (∀ X (proj : raw_app → list X) d,
            refs_of proj (d1 ++ d) = refs_of proj d1 ++ refs_of proj d) as Hr.
  { intros X proj d. unfold refs_of. by rewrite Hg, bind_app. }
  intros [A1 B1 C1 D1 E1] [A2 B2 C2 D2 E2].
  split; rewrite ?Hr, ?Hg, ?foldl_app.
  - by rewrite A2, A1, fmap_app, app_assoc.
  - by rewrite <- B1.
  - by rewrite <- C1.
  - by rewrite <- D1.
  - by rewrite <- E1.
Qed.

Lemma foldl_item_step_unfolded st data : unfolded st (foldl item_step st data) data.
Proof.
  revert st. induction data as [|item data IH]; intros st.
  - split; simpl; try done. by rewrite app_nil_r.
  - change (item :: data) with ([item] ++ data). simpl foldl.
    eapply unfolded_trans; [apply item_step_unfolded|apply IH].
Qed.

End app_details.

Section app_details_tables.
Import insert_app_details.

(** *** Genres *)

Lemma genre_fold refs g gg :
  foldl genre_ref_step (g, gg) refs
  = (foldl (λ d r, odict.set r.2.1 r.2.2 d) g refs, gg ++ ((λ r, (r.1, r.2.1)) <$> refs)).
Proof.
  revert g gg. induction refs as [|r refs IH]; intros g gg; simpl.
  - by rewrite app_nil_r.
  - unfold genre_ref_step at 2. simpl. rewrite IH. by rewrite <- app_assoc.
Qed.

Lemma genre_keys (refs : list (Z * (Z * string))) :
  (foldl (λ d r, odict.set r.2.1 r.2.2 d) [] refs).*1
  = first_occurrences ((λ r, r.2.1) <$> refs).
Proof.
  induction refs as [|r refs IH] using rev_ind; [done|].
  rewrite foldl_app, fmap_app. simpl. rewrite odict_set_keys, first_occurrences_snoc, IH.
  destruct (decide (r.2.1 ∈ (λ r, r.2.1) <$> refs)) as [Hin|Hnin].
  - rewrite decide_True; [done|]. by apply elem_of_first_occurrences.
  - rewrite decide_False; [done|]. by rewrite elem_of_first_occurrences.
Qed.

Lemma genre_keys_NoDup (refs : list (Z * (Z * string))) :
  NoDup (foldl (λ d r, odict.set r.2.1 r.2.2 d) [] refs).*1.
Proof.
  induction refs as [|r refs IH] using rev_ind; [constructor|].
  rewrite foldl_app. simpl. by apply odict_set_NoDup.
Qed.

(** *** Developers and publishers *)

Lemma name_fold refs (s : gset string) rows :
  foldl name_ref_step (s, rows) refs = (list_to_set refs.*2 ∪ s, rows ++ refs).
Proof.
  revert s rows. induction refs as [|r refs IH]; intros s rows; simpl.
  - rewrite app_nil_r. f_equal. set_solver.
  - unfold name_ref_step at 2. simpl. rewrite IH. rewrite <- app_assoc. f_equal. set_solver.
Qed.

(** *** Categories *)

Lemma first_id_snoc name refs cid n :
  first_id name (refs ++ [(cid, n)])
  = match first_id name refs with
    | Some c => Some c
    | None => if decide (n = name) then Some cid else None
    end.
Proof.
  induction refs as [|[c' n'] refs IH]; simpl; [done|].
  destruct (decide (n' = name)); [done|]. exact IH.
Qed.

Lemma first_id_Some name refs c :
  first_id name refs = Some c → (c, name) ∈ refs.
Proof.
  induction refs as [|[c' n'] refs IH]; simpl; [done|].
  destruct (decide (n' = name)) as [->|]; [intros [= ->]; left|intros ?; right; auto].
Qed.

Lemma first_id_None name refs : first_id name refs = None ↔ name ∉ refs.*2.
Proof.
  induction refs as [|[c' n'] refs IH]; simpl.
  - split; [by intros _ ?%elem_of_nil|done].
  - destruct (decide (n' = name)) as [->|Hne].
    + split; [done|]. intros Hn. exfalso. apply Hn. left.
    + rewrite IH, not_elem_of_cons. naive_solver.
Qed.

Lemma first_id_is_Some name refs : name ∈ refs.*2 → is_Some (first_id name refs).
Proof.
  intros Hin. destruct (first_id name refs) eqn:Hf; [by eexists|].
  by apply first_id_None in Hf.
Qed.

(** The junction rows of the category references [p], with the canonical
    IDs taken from the references [all]. *)
Definition canonical_rows (all p : list (Z * (Z * string))) : list (Z * Z) :=
  omap (λ r, pair r.1 <$> first_id r.2.2 all.*2) p.

Lemma canonical_rows_prefix p r :
  canonical_rows (p ++ [r]) p = canonical_rows p p.
Proof.
  unfold canonical_rows. apply omap_ext_elem. intros x Hx.
  rewrite fmap_app. simpl. destruct r as [a [cid n]]. simpl. rewrite first_id_snoc.
  destruct (first_id_is_Some x.2.2 p.*2) as [c ->]; [|done].
  apply list_elem_of_fmap. exists x.2. split; [done|].
  apply list_elem_of_fmap. by exists x.
Qed.

Record cat_inv (p : list (Z * (Z * string)))
    (acc : list (string * Z) * list (Z * string) * list (Z * Z)) : Prop := {
  ci_map_keys : NoDup acc.1.1.*1;
  ci_map : ∀ name, odict.get name acc.1.1 = first_id name p.*2;
  ci_table_keys : NoDup acc.1.2.*1;
  ci_table : ∀ row, row ∈ acc.1.2 → odict.get row.2 acc.1.1 = Some row.1;
  ci_rows : acc.2 = canonical_rows p p;
  ci_order : acc.1.2.*1 = first_occurrences acc.2.*2
}.

Lemma cat_inv_init : cat_inv [] ([], [], []).
Proof. split; simpl; try done; try constructor. by intros ? ?%elem_of_nil. Qed.

Lemma cat_inv_step p acc r :
  cat_inv p acc → cat_inv (p ++ [r]) (category_ref_step acc r).
Proof.
  destruct acc as [[m c] gc]. destruct r as [appid [cid name]].
  intros [Hmk Hm Hck Hc Hrows Hord]. simpl in *.
  unfold category_ref_step, category_step. simpl.
  assert (∀ n, first_id n (p ++ [(appid, (cid, name))]).*2
               = match first_id n p.*2 with
                 | Some c => Some c
                 | None => if decide (name = n) then Some cid else None
                 end) as Hsnoc.
  { intros n. rewrite fmap_app. simpl. apply first_id_snoc. }
  destruct (odict.mem name m) eqn:Hmem.
  - (* the name has its canonical ID already *)
    apply odict_mem_spec in Hmem.
    destruct (odict.get name m) as [c0|] eqn:Hget;
      [|apply odict_get_None in Hget; done].
    assert (first_id name p.*2 = Some c0) as Hfirst by (by rewrite <- Hm).
    split; simpl; try done.
    + intros n. rewrite Hsnoc, Hm. destruct (first_id n p.*2) eqn:Hn; [done|].
      destruct (decide (name = n)) as [->|]; [congruence|done].
    + unfold canonical_rows. rewrite omap_app. fold (canonical_rows (p ++ [(appid, (cid, name))]) p).
      rewrite canonical_rows_prefix, <- Hrows. simpl. rewrite Hsnoc, Hfirst. done.
    + rewrite Hord, fmap_app. simpl. rewrite first_occurrences_snoc.
      rewrite decide_True; [done|].
      apply first_id_Some in Hfirst.
      apply list_elem_of_fmap in Hfirst as ([a0 [c1 n1]] & [= <- <-] & Hin).
      rewrite Hrows. apply list_elem_of_fmap. exists (a0, c0). split; [done|].
      unfold canonical_rows. apply list_elem_of_omap. exists (a0, (c0, name)).
      split; [done|]. simpl. rewrite <- Hm, Hget. done.
  - (* a new name: the ID of this record becomes canonical *)
    assert (name ∉ m.*1) as Hfresh.
    { intros Hin%odict_mem_spec. congruence. }
    assert (first_id name p.*2 = None) as Hfirst.
    { rewrite <- Hm. by apply odict_get_None. }
    rewrite odict_get_set_eq.
    split; simpl.
    + by apply odict_set_NoDup.
    + intros n. rewrite Hsnoc. destruct (decide (name = n)) as [<-|Hne].
      * by rewrite odict_get_set_eq, Hfirst.
      * rewrite odict_get_set_ne by done. rewrite Hm. by destruct (first_id n p.*2).
    + by apply odict_set_NoDup.
    + intros row Hrow. destruct (elem_of_odict_set _ _ _ _ Hck Hrow) as [->|[Hin Hne]].
      * simpl. apply odict_get_set_eq.
      * rewrite odict_get_set_ne; [by apply Hc|].
        intros Heq. specialize (Hc _ Hin). apply odict_get_None in Hfresh. congruence.
    + unfold canonical_rows. rewrite omap_app. fold (canonical_rows (p ++ [(appid, (cid, name))]) p).
      rewrite canonical_rows_prefix, <- Hrows. simpl. rewrite Hsnoc, Hfirst.
      by rewrite decide_True.
    + rewrite odict_set_keys, fmap_app. simpl. rewrite first_occurrences_snoc, Hord.
      destruct (decide (cid ∈ gc.*2)) as [Hin|Hnin].
      * rewrite decide_True; [done|]. by apply elem_of_first_occurrences.
      * rewrite decide_False; [done|]. by rewrite elem_of_first_occurrences.
Qed.

Lemma cat_inv_fold refs : cat_inv refs (foldl category_ref_step ([], [], []) refs).
Proof.
  induction refs as [|r refs IH] using rev_ind; [apply cat_inv_init|].
  rewrite foldl_app. simpl. by apply cat_inv_step.
Qed.

End app_details_tables.

Section app_details_output.
Import insert_app_details.

Variable strptime_strftime : string → string → option string.
Variable int_of_str : string → option Z.
Variable names_order : gset string → list string.
Variable pairs_order : gset (Z * Z) → list (Z * Z).

Abbreviation prepare := (prepare_data strptime_strftime int_of_str names_order pairs_order).

Lemma prepare_games data :
  games_table (prepare data)
  = (λ g, game_of strptime_strftime int_of_str g.1 g.2) <$> games_in data.
Proof.
  unfold prepare_data. simpl.
  by rewrite (unf_games _ _ _ _ _ (foldl_item_step_unfolded _ _ init data)).
Qed.

Lemma prepare_genres data :
  genres_table (prepare data)
  = foldl (λ d r, odict.set r.2.1 r.2.2 d) [] (refs_of genres data)
  ∧ game_genres_table (prepare data) = (λ r, (r.1, r.2.1)) <$> refs_of genres data.
Proof.
  unfold prepare_data. simpl.
  pose proof (unf_genres _ _ _ _ _ (foldl_item_step_unfolded
                strptime_strftime int_of_str init data)) as Hg.
  simpl in Hg. rewrite genre_fold in Hg. by injection Hg as -> ->.
Qed.

Lemma prepare_categories data :
  let acc := foldl category_ref_step ([], [], []) (refs_of categories data) in
  categories_table (prepare data) = acc.1.2
  ∧ game_categories_table (prepare data) = pairs_order (list_to_set acc.2).
Proof.
  unfold prepare_data. simpl.
  pose proof (unf_categories _ _ _ _ _ (foldl_item_step_unfolded
                strptime_strftime int_of_str init data)) as Hc.
  simpl in Hc. destruct (foldl category_ref_step _ _) as [[m c] gc].
  by injection Hc as _ -> ->.
Qed.

Lemma prepare_developers data :
  developers_table (prepare data) = names_order (list_to_set (refs_of developers data).*2)
  ∧ game_developers_table (prepare data) = refs_of developers data.
Proof.
  unfold prepare_data. simpl.
  pose proof (unf_developers _ _ _ _ _ (foldl_item_step_unfolded
                strptime_strftime int_of_str init data)) as Hd.
  simpl in Hd. rewrite name_fold in Hd. injection Hd as -> ->.
  by rewrite (right_id_L ∅ (∪)).
Qed.

Lemma prepare_publishers data :
  publishers_table (prepare data) = names_order (list_to_set (refs_of publishers data).*2)
  ∧ game_publishers_table (prepare data) = refs_of publishers data.
Proof.
  unfold prepare_data. simpl.
  pose proof (unf_publishers _ _ _ _ _ (foldl_item_step_unfolded
                strptime_strftime int_of_str init data)) as Hd.
  simpl in Hd. rewrite name_fold in Hd. injection Hd as -> ->.
  by rewrite (right_id_L ∅ (∪)).
Qed.

(** Categories: one row per name, and the canonical ID in every junction
    row, whatever enumeration the set of pairs gets. *)
Lemma categories_names_unique data : NoDup (categories_table (prepare data)).*2.
Proof.
  destruct (prepare_categories data) as [-> _].
  destruct (cat_inv_fold (refs_of categories data)) as [Hmk Hm Hck Hc _ _].
  apply NoDup_values; [done|].
  intros x y Hx Hy Heq. apply Hc in Hx, Hy. rewrite Heq in Hx. congruence.
Qed.

Lemma categories_order data :
  (categories_table (prepare data)).*1
  = first_occurrences
      (canonical_rows (refs_of categories data) (refs_of categories data)).*2.
Proof.
  destruct (prepare_categories data) as [-> _].
  destruct (cat_inv_fold (refs_of categories data)) as [_ _ _ _ Hrows Hord].
  by rewrite Hord, Hrows.
Qed.

Hypothesis pairs_order_enumerates : ∀ s, pairs_order s ≡ₚ elements s.
Hypothesis names_order_enumerates : ∀ s, names_order s ≡ₚ elements s.

Lemma game_categories_canonical data :
  NoDup (game_categories_table (prepare data))
  ∧ ∀ row, row ∈ game_categories_table (prepare data) ↔
      ∃ r, r ∈ refs_of categories data
           ∧ row.1 = r.1
           ∧ first_id r.2.2 (refs_of categories data).*2 = Some row.2.
Proof.
  destruct (prepare_categories data) as [_ ->].
  destruct (cat_inv_fold (refs_of categories data)) as [_ _ _ _ -> _].
  split.
  - rewrite pairs_order_enumerates. apply NoDup_elements.
  - intros row. rewrite pairs_order_enumerates, elem_of_elements, elem_of_list_to_set.
    unfold canonical_rows. rewrite list_elem_of_omap. split.
    + intros (r & Hr & Hrow). exists r. split; [done|].
      destruct (first_id _ _) as [c|]; [|done]. simpl in Hrow. by injection Hrow as <-.
    + intros (r & Hr & H1 & H2). exists r. split; [done|]. rewrite H2. simpl.
      destruct row. simpl in *. by subst.
Qed.

Lemma names_tables_unique data :
  NoDup (developers_table (prepare data))
  ∧ (∀ n, n ∈ developers_table (prepare data) ↔ n ∈ (refs_of developers data).*2)
  ∧ NoDup (publishers_table (prepare data))
  ∧ (∀ n, n ∈ publishers_table (prepare data) ↔ n ∈ (refs_of publishers data).*2).
Proof.
  destruct (prepare_developers data) as [-> _].
  destruct (prepare_publishers data) as [-> _].
  repeat split; try (rewrite names_order_enumerates; apply NoDup_elements);
    rewrite names_order_enumerates, elem_of_elements, elem_of_list_to_set; done.
Qed.

End app_details_output.

(** ** insert_tags.prepare_data *)

Section tags.
Import insert_tags.

(** The tag references of the batch, each with the app ID and the
    timestamp of its record, in input order. *)
Definition tag_refs (records : list record) : list (Z * option string * tag) :=
  records ≫= λ r, (λ t, (appid r, scraped_at r, t)) <$> tag_list r.

Definition id_names (refs : list (Z * option string * tag)) : list (Z * string) :=
  (λ r, (tagid r.2, tag_name r.2)) <$> refs.

(** The rows appended to [game_tags], before the de-duplication. *)
Definition emitted_game_tags (records : list record) : list (Z * Z * Z * option string) :=
  l_game_tags (foldl record_step init records).

Definition key_of (gt : Z * Z * Z * option string) : Z * Z := (gt.1.1.1, gt.1.1.2).

Definition tag_ref_step
    (acc : list (Z * string) * list (Z * Z * Z * option string) * gmap string Z)
    (r : Z * option string * tag) :=
  tag_step r.1.1 r.1.2 acc r.2.

(** The ID under which a tag is filed: the first one in the table with its
    name, its own when the name is new. *)
Definition resolved (tags : list (Z * string)) (tg : tag) : Z :=
  default (tagid tg) (first_id (tag_name tg) tags).

Lemma first_id_filter name (tags : list (Z * string)) :
  first_id name tags = head (filter (λ t, t.2 = name) tags).*1.
Proof.
  induction tags as [|[t n] tags IH]; [done|]. simpl. rewrite filter_cons. simpl.
  destruct (decide (n = name)); [done|]. exact IH.
Qed.

Lemma tag_step_resolved a ts tags game_tags dups tg :
  ∃ dups',
    tag_step a ts (tags, game_tags, dups) tg
    = (odict.set (resolved tags tg) (tag_name tg) tags,
       game_tags ++ [(a, resolved tags tg, count tg, ts)], dups').
Proof.
  unfold tag_step, resolved. cbv zeta.
  pose proof (first_id_filter (tag_name tg) tags) as Hf.
  case_bool_decide as Hcond.
  - destruct ((filter (λ t, t.2 = tag_name tg) tags).*1) as [|e l] eqn:He.
    + exfalso.
      apply list_elem_of_fmap in Hcond as (x & Hx & [_ Hin]%list_elem_of_filter).
      assert (x.1 ∈ (filter (λ t, t.2 = tag_name tg) tags).*1) as Hin'.
      { apply list_elem_of_fmap. exists x. split; [done|]. by apply list_elem_of_filter. }
      rewrite He in Hin'. by apply elem_of_nil in Hin'.
    + simpl in Hf. rewrite Hf. simpl. eauto.
  - exists dups. destruct (first_id (tag_name tg) tags) as [e|] eqn:He; [|done]. simpl.
    destruct (decide (e = tagid tg)) as [->|Hne]; [done|].
    exfalso. apply Hcond. apply first_id_Some in He.
    apply list_elem_of_fmap. exists (e, tag_name tg). split; [done|].
    by apply list_elem_of_filter.
Qed.

Lemma record_step_refs records st :
  let st' := foldl record_step st records in
  (l_tags st', l_game_tags st', l_duplicate_tag_names st')
  = foldl tag_ref_step (l_tags st, l_game_tags st, l_duplicate_tag_names st) (tag_refs records).
Proof.
  revert st. induction records as [|r records IH]; intros st; [done|].
  cbn zeta in *. simpl foldl. rewrite IH.
  unfold tag_refs. simpl. rewrite foldl_app. f_equal.
  unfold record_step.
  assert (∀ l acc, foldl tag_ref_step acc ((λ t, (appid r, scraped_at r, t)) <$> l)
                   = foldl (tag_step (appid r) (scraped_at r)) acc l) as Hmap.
  { induction l as [|t l IHl]; intros acc; [done|]. simpl. by rewrite IHl. }
  rewrite Hmap. destruct (tag_list r) as [|t l] eqn:Hl; [done|].
  by destruct (foldl _ _ (t :: l)) as [[? ?] ?].
Qed.

(** What holds of the local variables after any prefix of the references. *)
Record tag_inv (p : list (Z * option string * tag))
    (acc : list (Z * string) * list (Z * Z * Z * option string) * gmap string Z) : Prop := {
  ti_keys : NoDup acc.1.1.*1;
  ti_names : ∀ x y, x ∈ acc.1.1 → y ∈ acc.1.1 → x.2 = y.2 → x.1 = y.1;
  ti_order : acc.1.1.*1 = first_occurrences ((λ gt, gt.1.1.2) <$> acc.1.2);
  ti_rows :
    (λ gt, (gt.1.1.1, gt.1.2, gt.2)) <$> acc.1.2 = (λ r, (r.1.1, count r.2, r.1.2)) <$> p
}.

Lemma tag_inv_init dups : tag_inv [] ([], [], dups).
Proof. split; simpl; try done; try constructor. by intros ? ? ?%elem_of_nil. Qed.

Lemma tag_inv_step p acc r : tag_inv p acc → tag_inv (p ++ [r]) (tag_ref_step acc r).
Proof.
  destruct acc as [[tags game_tags] dups]. destruct r as [[a ts] tg].
  intros [Hk Hn Ho Hr]. simpl in Hk, Hn, Ho, Hr. unfold tag_ref_step. cbn [fst snd].
  destruct (tag_step_resolved a ts tags game_tags dups tg) as [dups' ->].
  split; simpl.
  - by apply odict_set_NoDup.
  - unfold resolved. destruct (first_id (tag_name tg) tags) as [e|] eqn:He; simpl.
    + apply first_id_Some in He. by rewrite odict_set_same.
    + apply first_id_None in He.
      intros x y Hx Hy Heq.
      destruct (elem_of_odict_set _ _ _ _ Hk Hx) as [->|[Hx' _]];
        destruct (elem_of_odict_set _ _ _ _ Hk Hy) as [->|[Hy' _]]; simpl in *.
      * done.
      * exfalso. apply He. apply list_elem_of_fmap. by exists y.
      * exfalso. apply He. apply list_elem_of_fmap. by exists x.
      * by apply Hn.
  - rewrite odict_set_keys, fmap_app. simpl. rewrite first_occurrences_snoc, Ho.
    destruct (decide (resolved tags tg ∈ (λ gt, gt.1.1.2) <$> game_tags)) as [Hin|Hnin].
    + rewrite decide_True; [done|]. by apply elem_of_first_occurrences.
    + rewrite decide_False; [done|]. by rewrite elem_of_first_occurrences.
  - by rewrite !fmap_app, Hr.
Qed.

Lemma tag_inv_fold refs dups : tag_inv refs (foldl tag_ref_step ([], [], dups) refs).
Proof.
  induction refs as [|r refs IH] using rev_ind; [apply tag_inv_init|].
  rewrite foldl_app. simpl. by apply tag_inv_step.
Qed.

(** *** The de-duplication loop *)

Lemma dedupe_fold (l : list (Z * Z * Z * option string)) :
  foldl dedupe_step (∅, []) l = (list_to_set (key_of <$> l), firsts_by key_of l).
Proof.
  induction l as [|gt l IH] using rev_ind; [done|].
  rewrite foldl_app, IH. simpl. unfold dedupe_step. fold (key_of gt).
  rewrite firsts_by_snoc, fmap_app, list_to_set_app_L. simpl.
  generalize (list_to_set (key_of <$> l) : gset (Z * Z)) (elem_of_list_to_set
    (C:=gset (Z * Z)) (key_of gt) (key_of <$> l)).
  intros seen Hiff.
  case_bool_decide as Hseen.
  - rewrite decide_True by (by apply Hiff).
    f_equal. apply set_eq. intros x.
    rewrite !elem_of_union, elem_of_singleton, elem_of_empty. naive_solver.
  - rewrite decide_False by (by rewrite <- Hiff).
    f_equal. apply set_eq. intros x.
    rewrite !elem_of_union, elem_of_singleton, elem_of_empty. naive_solver.
Qed.

(** *** The two tables *)

Lemma prepare_tags_tables records :
  let acc := foldl tag_ref_step ([], [], ∅) (tag_refs records) in
  tags_table (prepare_data records) = acc.1.1
  ∧ emitted_game_tags records = acc.1.2
  ∧ game_tags_table (prepare_data records) = firsts_by key_of (emitted_game_tags records).
Proof.
  pose proof (record_step_refs records init) as Hrefs. cbn zeta in Hrefs |- *.
  unfold prepare_data, emitted_game_tags. simpl. rewrite dedupe_fold. simpl.
  simpl in Hrefs. destruct (foldl tag_ref_step _ _) as [[t g] d].
  by injection Hrefs as -> -> _.
Qed.

Lemma tags_names_unique records : NoDup (tags_table (prepare_data records)).*2.
Proof.
  destruct (prepare_tags_tables records) as (-> & _ & _).
  destruct (tag_inv_fold (tag_refs records) ∅) as [Hk Hn _ _].
  by apply NoDup_values.
Qed.

Lemma tags_order records :
  (tags_table (prepare_data records)).*1
  = first_occurrences ((λ gt, gt.1.1.2) <$> game_tags_table (prepare_data records))
  ∧ game_tags_table (prepare_data records) = firsts_by key_of (emitted_game_tags records)
  ∧ (λ gt, (gt.1.1.1, gt.1.2, gt.2)) <$> emitted_game_tags records
    = (λ r, (r.1.1, count r.2, r.1.2)) <$> tag_refs records.
Proof.
  destruct (prepare_tags_tables records) as (Ht & He & Hg).
  destruct (tag_inv_fold (tag_refs records) ∅) as [_ _ Ho Hr].
  rewrite Ht, Hg, He. split; [|split; [done|exact Hr]].
  rewrite Ho. symmetry.
  exact (first_occurrences_firsts_by key_of snd _).
Qed.

End tags.

Section tags_canonical.
Import insert_tags.

Lemma first_id_filter_ne name other (l : list (Z * string)) :
  name ≠ other → first_id name (filter (λ y, y.2 ≠ other) l) = first_id name l.
Proof.
  intros Hne. induction l as [|[t n] l IH]; [done|].
  rewrite filter_cons. simpl. destruct (decide (n ≠ other)) as [Hn|Hn]; simpl.
  - destruct (decide (n = name)); [done|]. exact IH.
  - apply dec_stable in Hn. subst n. rewrite decide_False by done. exact IH.
Qed.

Lemma first_id_firsts_by name (l : list (Z * string)) :
  first_id name (firsts_by snd l) = first_id name l.
Proof.
  induction l as [|[t n] l IH]; [done|]. simpl.
  destruct (decide (n = name)) as [|Hne]; [done|].
  rewrite first_id_filter_ne by done. exact IH.
Qed.

(** No tag ID comes with two different names. *)
Definition ids_named_consistently (refs : list (Z * option string * tag)) : Prop :=
  ∀ x y, x ∈ id_names refs → y ∈ id_names refs → x.1 = y.1 → x.2 = y.2.

(** The junction rows of the references [p], with the canonical IDs taken
    from the references [all]. *)
Definition canonical_tag_rows (all p : list (Z * option string * tag))
    : list (Z * Z * Z * option string) :=
  omap (λ r, (λ t, (r.1.1, t, count r.2, r.1.2)) <$> first_id (tag_name r.2) (id_names all)) p.

Lemma canonical_tag_rows_prefix p r :
  canonical_tag_rows (p ++ [r]) p = canonical_tag_rows p p.
Proof.
  unfold canonical_tag_rows. apply omap_ext_elem. intros x Hx.
  unfold id_names. rewrite fmap_app. simpl. rewrite first_id_snoc.
  destruct (first_id_is_Some (tag_name x.2) ((λ r, (tagid r.2, tag_name r.2)) <$> p))
    as [c ->]; [|done].
  apply list_elem_of_fmap. exists (tagid x.2, tag_name x.2). split; [done|].
  apply list_elem_of_fmap. by exists x.
Qed.

Lemma ids_named_consistently_prefix p r :
  ids_named_consistently (p ++ [r]) → ids_named_consistently p.
Proof.
  unfold ids_named_consistently, id_names. intros H x y Hx Hy.
  apply H; rewrite fmap_app, elem_of_app; by left.
Qed.

Lemma tag_canonical_step p acc r :
  ids_named_consistently (p ++ [r]) →
  tag_inv p acc →
  acc.1.1 = firsts_by snd (id_names p) →
  acc.1.2 = canonical_tag_rows p p →
  (tag_ref_step acc r).1.1 = firsts_by snd (id_names (p ++ [r]))
  ∧ (tag_ref_step acc r).1.2 = canonical_tag_rows (p ++ [r]) (p ++ [r]).
Proof.
  destruct acc as [[tags game_tags] dups]. destruct r as [[a ts] tg].
  intros Hcons [Hk _ _ _] Htags Hrows. simpl in Hk, Htags, Hrows.
  unfold tag_ref_step. cbn [fst snd].
  destruct (tag_step_resolved a ts tags game_tags dups tg) as [dups' ->]. cbn [fst snd].
  assert (id_names (p ++ [(a, ts, tg)]) = id_names p ++ [(tagid tg, tag_name tg)]) as Hsnoc.
  { unfold id_names. by rewrite fmap_app. }
  assert (first_id (tag_name tg) tags = first_id (tag_name tg) (id_names p)) as Hfirst.
  { rewrite Htags. apply first_id_firsts_by. }
  unfold canonical_tag_rows at 1. rewrite omap_app.
  fold (canonical_tag_rows (p ++ [(a, ts, tg)]) p).
  rewrite canonical_tag_rows_prefix, <- Hrows. simpl.
  rewrite Hsnoc, firsts_by_snoc, first_id_snoc. simpl.
  unfold resolved. rewrite Hfirst.
  destruct (first_id (tag_name tg) (id_names p)) as [e|] eqn:He; simpl.
  - (* the name is known: nothing changes in the table *)
    rewrite decide_True.
    2:{ apply first_id_Some in He. apply list_elem_of_fmap. by exists (e, tag_name tg). }
    split; [|done]. rewrite <- Htags. apply odict_set_same; [done|].
    apply first_id_Some. congruence.
  - (* a new name: the ID cannot be in the table under another name *)
    pose proof He as Hnew. apply first_id_None in Hnew.
    rewrite decide_False by done. rewrite decide_True by done.
    split; [|done]. rewrite <- Htags. apply odict_set_fresh.
    intros ([t n] & Ht & Hin)%list_elem_of_fmap. simpl in Ht. subst t.
    rewrite Htags in Hin. apply elem_of_firsts_by in Hin.
    apply Hnew. apply list_elem_of_fmap. exists (tagid tg, n). split; [|done]. simpl.
    symmetry. apply (Hcons (tagid tg, n) (tagid tg, tag_name tg)); [| |done].
    + rewrite Hsnoc, elem_of_app. by left.
    + rewrite Hsnoc, elem_of_app. right. left.
Qed.

Lemma tag_canonical_fold refs dups :
  ids_named_consistently refs →
  let acc := foldl tag_ref_step ([], [], dups) refs in
  acc.1.1 = firsts_by snd (id_names refs) ∧ acc.1.2 = canonical_tag_rows refs refs.
Proof.
  induction refs as [|r refs IH] using rev_ind; intros Hcons; [done|].
  cbn zeta in *. rewrite foldl_app. simpl.
  destruct (IH (ids_named_consistently_prefix _ _ Hcons)) as [Ht Hr].
  apply tag_canonical_step; [done|apply tag_inv_fold|done|done].
Qed.

Lemma tags_canonical records :
  ids_named_consistently (tag_refs records) →
  tags_table (prepare_data records) = firsts_by snd (id_names (tag_refs records))
  ∧ game_tags_table (prepare_data records)
    = firsts_by key_of (canonical_tag_rows (tag_refs records) (tag_refs records)).
Proof.
  intros Hcons.
  destruct (prepare_tags_tables records) as (-> & He & ->). rewrite He.
  destruct (tag_canonical_fold _ ∅ Hcons) as [-> ->]. done.
Qed.

End tags_canonical.

(** ** The two pipelines side by side *)

Lemma ids_named_consistently_Forall refs :
  ids_named_consistently refs ↔
  Forall (λ x, Forall (λ y, x.1 = y.1 → x.2 = y.2) (id_names refs)) (id_names refs).
Proof.
  unfold ids_named_consistently. rewrite Forall_forall. split.
  - intros Hc x Hx. apply Forall_forall. intros y Hy. by apply Hc.
  - intros Hf x y Hx Hy. specialize (Hf x Hx). rewrite Forall_forall in Hf. by apply Hf.
Qed.

#[local] Instance ids_named_consistently_dec refs : Decision (ids_named_consistently refs).
Proof.
  refine (cast_if (decide (Forall (λ x, Forall (λ y, x.1 = y.1 → x.2 = y.2)
                                      (id_names refs)) (id_names refs))));
    by rewrite ids_named_consistently_Forall.
Defined.

(** C3, as the code has it. For every input batch, whatever order Python
    gives the sets: the categories table has one row per name, and a
    [game_categories] row is there exactly for a category reference of a
    game, with the numeric ID of the first reference that carries its name;
    developers and publishers are listed once each; the tags table has one
    row per name and, when no tag ID comes under two names, holds for every
    name the ID of its first reference, which is the ID in every
    [game_tags] row of that name; genres are keyed by numeric ID, one row
    per ID, and a [game_genres] row carries the ID of its own record. *)
Theorem lookup_tables_canonical_by_name
    (strptime_strftime : string → string → option string) (int_of_str : string → option Z)
    (names_order : gset string → list string) (pairs_order : gset (Z * Z) → list (Z * Z)) :
  (∀ s, names_order s ≡ₚ elements s) →
  (∀ s, pairs_order s ≡ₚ elements s) →
  ∀ (data : list (Z * option insert_app_details.raw_app)) (records : list insert_tags.record),
  let out :=
    insert_app_details.prepare_data strptime_strftime int_of_str names_order pairs_order data in
  let tout := insert_tags.prepare_data records in
  NoDup (insert_app_details.categories_table out).*2
  ∧ NoDup (insert_app_details.game_categories_table out)
  ∧ (∀ row, row ∈ insert_app_details.game_categories_table out ↔
        ∃ r, r ∈ refs_of insert_app_details.categories data
             ∧ row.1 = r.1
             ∧ first_id r.2.2 (refs_of insert_app_details.categories data).*2 = Some row.2)
  ∧ NoDup (insert_app_details.developers_table out)
  ∧ (∀ n, n ∈ insert_app_details.developers_table out ↔
          n ∈ (refs_of insert_app_details.developers data).*2)
  ∧ NoDup (insert_app_details.publishers_table out)
  ∧ (∀ n, n ∈ insert_app_details.publishers_table out ↔
          n ∈ (refs_of insert_app_details.publishers data).*2)
  ∧ NoDup (insert_tags.tags_table tout).*2
  ∧ (ids_named_consistently (tag_refs records) →
       insert_tags.tags_table tout = firsts_by snd (id_names (tag_refs records))
       ∧ insert_tags.game_tags_table tout
         = firsts_by key_of (canonical_tag_rows (tag_refs records) (tag_refs records)))
  ∧ NoDup (insert_app_details.genres_table out).*1
  ∧ insert_app_details.game_genres_table out
    = (λ r, (r.1, r.2.1)) <$> refs_of insert_app_details.genres data.
Proof.
  intros Hnames Hpairs data records out tout. subst out tout.
  destruct (game_categories_canonical strptime_strftime int_of_str names_order pairs_order
              Hpairs data) as [Hgc1 Hgc2].
  destruct (names_tables_unique strptime_strftime int_of_str names_order pairs_order
              Hnames data) as (Hd1 & Hd2 & Hp1 & Hp2).
  destruct (prepare_genres strptime_strftime int_of_str names_order pairs_order data)
    as [Hg1 Hg2].
  split; [apply categories_names_unique|].
  split; [exact Hgc1|]. split; [exact Hgc2|].
  split; [exact Hd1|]. split; [exact Hd2|]. split; [exact Hp1|]. split; [exact Hp2|].
  split; [apply tags_names_unique|].
  split; [apply tags_canonical|].
  split; [|exact Hg2].
  rewrite Hg1. apply genre_keys_NoDup.
Qed.

(** C9, as the code has it. For every input batch the tables [games],
    [genres], [categories], [game_genres], [game_developers] and
    [game_publishers] of insert_app_details.py and [tags] and [game_tags] of
    insert_tags.py list their rows in first-encounter order of the input,
    and are the same whatever order Python gives the sets. ([developers],
    [publishers] and [game_categories] are enumerations of sets.) *)
Theorem ordered_tables_keep_first_encounter_order
    (strptime_strftime : string → string → option string) (int_of_str : string → option Z)
    (names_order : gset string → list string) (pairs_order : gset (Z * Z) → list (Z * Z))
    (data : list (Z * option insert_app_details.raw_app)) (records : list insert_tags.record) :
  let out :=
    insert_app_details.prepare_data strptime_strftime int_of_str names_order pairs_order data in
  let tout := insert_tags.prepare_data records in
  insert_app_details.games_table out
  = (λ g, insert_app_details.game_of strptime_strftime int_of_str g.1 g.2) <$> games_in data
  ∧ insert_app_details.game_genres_table out
    = (λ r, (r.1, r.2.1)) <$> refs_of insert_app_details.genres data
  ∧ (insert_app_details.genres_table out).*1
    = first_occurrences (insert_app_details.game_genres_table out).*2
  ∧ (insert_app_details.categories_table out).*1
    = first_occurrences
        (canonical_rows (refs_of insert_app_details.categories data)
                        (refs_of insert_app_details.categories data)).*2
  ∧ insert_app_details.game_developers_table out = refs_of insert_app_details.developers data
  ∧ insert_app_details.game_publishers_table out = refs_of insert_app_details.publishers data
  ∧ (insert_tags.tags_table tout).*1
    = first_occurrences ((λ gt, gt.1.1.2) <$> insert_tags.game_tags_table tout)
  ∧ insert_tags.game_tags_table tout = firsts_by key_of (emitted_game_tags records)
  ∧ (λ gt, (gt.1.1.1, gt.1.2, gt.2)) <$> emitted_game_tags records
    = (λ r, (r.1.1, insert_tags.count r.2, r.1.2)) <$> tag_refs records
  ∧ ∀ names_order' pairs_order',
      let out' :=
        insert_app_details.prepare_data strptime_strftime int_of_str names_order' pairs_order'
          data in
      insert_app_details.games_table out' = insert_app_details.games_table out
      ∧ insert_app_details.genres_table out' = insert_app_details.genres_table out
      ∧ insert_app_details.categories_table out' = insert_app_details.categories_table out
      ∧ insert_app_details.game_genres_table out' = insert_app_details.game_genres_table out
      ∧ insert_app_details.game_developers_table out'
        = insert_app_details.game_developers_table out
      ∧ insert_app_details.game_publishers_table out'
        = insert_app_details.game_publishers_table out.
Proof.
  intros out tout. subst out tout.
  destruct (prepare_genres strptime_strftime int_of_str names_order pairs_order data)
    as [Hg1 Hg2].
  destruct (prepare_developers strptime_strftime int_of_str names_order pairs_order data)
    as [_ Hd].
  destruct (prepare_publishers strptime_strftime int_of_str names_order pairs_order data)
    as [_ Hp].
  destruct (tags_order records) as (Ht1 & Ht2 & Ht3).
  split; [apply prepare_games|]. split; [exact Hg2|].
  split.
  { rewrite Hg1, Hg2, genre_keys. f_equal. by rewrite <- list_fmap_compose. }
  split; [apply categories_order|].
  split; [exact Hd|]. split; [exact Hp|].
  split; [exact Ht1|]. split; [exact Ht2|]. split; [exact Ht3|].
  intros names_order' pairs_order' out'. subst out'.
  rewrite !prepare_games.
  destruct (prepare_genres strptime_strftime int_of_str names_order' pairs_order' data)
    as [-> ->].
  destruct (prepare_developers strptime_strftime int_of_str names_order' pairs_order' data)
    as [_ ->].
  destruct (prepare_publishers strptime_strftime int_of_str names_order' pairs_order' data)
    as [_ ->].
  destruct (prepare_categories strptime_strftime int_of_str names_order' pairs_order' data)
    as [-> _].
  destruct (prepare_categories strptime_strftime int_of_str names_order pairs_order data)
    as [-> _].
  by rewrite Hg1, Hg2, Hd, Hp.
Qed.

Module examples_pipeline.
Import insert_app_details.

Definition no_date : string → string → option string := λ _ _, None.
Definition no_int : string → option Z := λ _, None.

Definition game (genres categories : list (Z * string)) (developers : list string) : raw_app :=
  mkRaw (Some "game") (Some "A game") false false "" true false false None None AgeNone
        genres categories developers [].

Definition reversed {A} `{Countable A} (s : gset A) : list A := reverse (elements s).

Lemma reversed_enumerates {A} `{Countable A} (s : gset A) : reversed s ≡ₚ elements s.
Proof. apply reverse_Permutation. Qed.

Definition two_rpg : list (Z * option raw_app) :=
  [(1, Some (game [(10, "RPG")] [] [])); (2, Some (game [(99, "RPG")] [] []))].

Definition renamed_tag : list insert_tags.record :=
  [insert_tags.mkRecord 1 None [insert_tags.mkTag 1 "A" 5];
   insert_tags.mkRecord 2 None [insert_tags.mkTag 1 "B" 5];
   insert_tags.mkRecord 3 None [insert_tags.mkTag 2 "A" 5]].

(** C3 does not hold as stated. Two games with the genre references
    (10, "RPG") and (99, "RPG"): the genres table gets two rows named "RPG"
    and the junction row of the second game carries 99. A tag ID presented
    under two names: 1 comes as "A", then as "B", and "A" comes back under
    2; the first ID observed for "A" was 1 and the junction row of the
    third app carries 2. *)
Lemma genres_are_not_canonicalized :
  (let out := prepare_data no_date no_int elements elements two_rpg in
   genres_table out = [(10, "RPG"); (99, "RPG")]
   ∧ game_genres_table out = [(1, 10); (2, 99)]
   ∧ ¬ NoDup (genres_table out).*2)
  ∧ (let out := insert_tags.prepare_data renamed_tag in
     first_id "A" (id_names (tag_refs renamed_tag)) = Some 1
     ∧ insert_tags.game_tags_table out = [(1, 1, 5, None); (2, 1, 5, None); (3, 2, 5, None)]).
Proof.
  split; [split; [|split]|split]; try (vm_compute; reflexivity).
  refute_by_computation.
Qed.

Definition two_developers : list (Z * option raw_app) :=
  [(1, Some (game [] [(30, "Multi-player"); (2, "Single-player")] ["Valve"; "Id"]))].

(** C9 does not hold as stated: two enumerations of the same sets give
    different [developers] and [game_categories] tables for the same
    input. *)
Lemma set_tables_follow_the_set_order :
  (∀ s : gset string, elements s ≡ₚ elements s)
  ∧ (∀ s : gset string, reversed s ≡ₚ elements s)
  ∧ (∀ s : gset (Z * Z), reversed s ≡ₚ elements s)
  ∧ developers_table (prepare_data no_date no_int elements elements two_developers)
    ≠ developers_table (prepare_data no_date no_int reversed reversed two_developers)
  ∧ game_categories_table (prepare_data no_date no_int elements elements two_developers)
    ≠ game_categories_table (prepare_data no_date no_int reversed reversed two_developers).
Proof.
  split; [done|]. split; [apply reversed_enumerates|]. split; [apply reversed_enumerates|].
  split; vm_compute; discriminate.
Qed.

Definition two_coop : list (Z * option raw_app) :=
  [(1, Some (game [] [(30, "Co-op")] ["Valve"]));
   (2, Some (game [] [(51, "Co-op")] ["Valve"]))].

Definition two_rpg_tags : list insert_tags.record :=
  [insert_tags.mkRecord 1 None [insert_tags.mkTag 10 "RPG" 5];
   insert_tags.mkRecord 2 None [insert_tags.mkTag 99 "RPG" 7]].

Lemma lookup_tables_canonical_witness :
  (∀ s : gset string, elements s ≡ₚ elements s)
  ∧ (∀ s : gset (Z * Z), elements s ≡ₚ elements s)
  ∧ ids_named_consistently (tag_refs two_rpg_tags)
  ∧ NoDup (categories_table (prepare_data no_date no_int elements elements two_coop)).*2
  ∧ ((2, 30) ∈ game_categories_table (prepare_data no_date no_int elements elements two_coop))
  ∧ insert_tags.game_tags_table (insert_tags.prepare_data two_rpg_tags)
    = firsts_by key_of (canonical_tag_rows (tag_refs two_rpg_tags) (tag_refs two_rpg_tags)).
Proof.
  assert (∀ s : gset string, elements s ≡ₚ elements s) as H1 by done.
  assert (∀ s : gset (Z * Z), elements s ≡ₚ elements s) as H2 by done.
  assert (ids_named_consistently (tag_refs two_rpg_tags)) as H3 by by_computation.
  split; [exact H1|]. split; [exact H2|]. split; [exact H3|].
  pose proof (lookup_tables_canonical_by_name no_date no_int elements elements H1 H2
                two_coop two_rpg_tags)
    as (Hc & _ & Hrows & _ & _ & _ & _ & _ & Htags & _).
  split; [exact Hc|]. split.
  - apply Hrows. exists (2, (51, "Co-op")). split; [|split]; by_computation.
  - apply Htags, H3.
Defined.

End examples_pipeline.

(** * Further properties

    Properties of the functions above that the code itself shows: what
    they do at the edges, what they keep, and how they compose. *)

(** ** checkpoint.py: what is in the store *)

Section checkpoint_store.
Context `{Pickle}.
Import checkpoint.

Lemma load_of_absent mgr name expected fs :
  exists_ mgr name fs = false → load mgr name expected fs = inr None.
Proof.
  unfold exists_, load. intros Hex. apply bool_decide_eq_false_1 in Hex.
  destruct (fs !! _get_path mgr name) as [content|]; [|done].
  exfalso. apply Hex. by eexists.
Qed.

(** X1: [exists], [delete] and [load] agree on what the store holds.
    When [exists(name)] is false, [load(name)] returns [None] and raises
    nothing, with or without an expected type; so a [load] that returns an
    object or raises has found the file. The converse is not stated: the
    [None] of [load] does not tell an absent file from a file that holds
    [None]. [delete(name)] returns whether the checkpoint existed,
    afterwards it does not exist and [load] returns [None], no other file is
    touched, and deleting an absent checkpoint changes nothing; after a
    [save] the checkpoint exists, a [delete] then returns true, and a second
    [delete] returns false. *)
Theorem exists_delete_and_load_agree
    (mgr : CheckpointManager) (name : string) (expected : option pytype)
    (fs : gmap string (list byte)) :
  let r := delete_ mgr name fs in
  (exists_ mgr name fs = false → load mgr name expected fs = inr None)
  ∧ (load mgr name expected fs ≠ inr None → exists_ mgr name fs = true)
  ∧ r.1 = exists_ mgr name fs
  ∧ exists_ mgr name r.2 = false
  ∧ load mgr name expected r.2 = inr None
  ∧ (∀ p, p ≠ _get_path mgr name → r.2 !! p = fs !! p)
  ∧ (r.1 = false → r.2 = fs)
  ∧ (delete_ mgr name r.2).1 = false
  ∧ (∀ data now,
       let fs' := (save_value mgr name data now fs).2 in
       exists_ mgr name fs' = true ∧ (delete_ mgr name fs').1 = true).
Proof.
  intros r. subst r.
  assert (∀ fs0, (delete_ mgr name fs0).1 = exists_ mgr name fs0) as Hret.
  { intros fs0. unfold delete_, exists_. by case_bool_decide. }
  assert (exists_ mgr name (delete_ mgr name fs).2 = false) as Hgone.
  { unfold delete_, exists_.
    destruct (bool_decide (is_Some (fs !! _get_path mgr name))) eqn:Hex; simpl.
    - apply bool_decide_eq_false_2. rewrite lookup_delete_eq. by intros [? ?].
    - exact Hex. }
  assert (∀ data now, exists_ mgr name (save_value mgr name data now fs).2 = true)
    as Hsaved.
  { intros data now. unfold exists_, save_value. simpl.
    apply bool_decide_eq_true_2. rewrite lookup_insert_eq. by eexists. }
  split; [apply load_of_absent|].
  split.
  { intros Hload. destruct (exists_ mgr name fs) eqn:Hex; [done|].
    by apply (load_of_absent _ _ expected) in Hex. }
  split; [apply Hret|].
  split; [exact Hgone|].
  split; [by apply load_of_absent|].
  split; [|split; [|split]].
  - intros p Hp. unfold delete_. case_bool_decide; simpl; [|done].
    by rewrite lookup_delete_ne.
  - unfold delete_. by case_bool_decide.
  - by rewrite Hret.
  - intros data now. cbv zeta. split; [apply Hsaved|]. rewrite Hret. apply Hsaved.
Qed.

(** X2: [load] with an expected type checks the class of what the file
    holds. After [save(name, data)], [load(name, T)] returns the saved
    object when it is an instance of [T] and raises [TypeError], naming the
    object found and [T], when it is not; the timestamp that [save] sets
    does not change the class. *)
Theorem load_checks_the_expected_type
    (mgr : CheckpointManager) (name : string) (data : pyobj) (t : pytype) (now : Z)
    (fs : gmap string (list byte)) :
  let saved := save_value mgr name data now fs in
  load mgr name (Some t) saved.2
  = if isinstance data t then inr (Some saved.1) else inl (TypeError name saved.1 t).
Proof.
  unfold save_value, load. simpl. rewrite lookup_insert_eq, loads_dumps.
  destruct (hasattr_last_saved_at data); [rewrite isinstance_setattr|]; done.
Qed.

End checkpoint_store.

(** ** steamspy_scraper.py: the counters of the harvest state *)

Section counters.
Import steamspy_scraper.

Lemma length_filter_in_out (s : gset Z) (l : list Z) :
  length l = (length (filter (λ x, x ∈ s) l) + length (filter (λ x, x ∉ s) l))%nat.
Proof.
  induction l as [|a l IH]; [done|].
  rewrite !filter_cons. destruct (decide (a ∈ s)), (decide (a ∉ s)); simpl; try done; lia.
Qed.

Lemma length_filter_elem_of (s : gset Z) (l : list Z) :
  NoDup l → s ⊆ list_to_set l → length (filter (λ x, x ∈ s) l) = size s.
Proof.
  intros Hnd Hsub. unfold size, set_size. simpl. apply Permutation_length.
  apply NoDup_Permutation; [by apply NoDup_filter|apply NoDup_elements|].
  intros x. rewrite list_elem_of_filter, elem_of_elements. split; [tauto|].
  intros Hx. split; [done|]. apply (elem_of_list_to_set (C:=gset Z)). by apply Hsub.
Qed.

(** X3: the counters of the harvest state. When the universe lists no ID
    twice, the partitions are pairwise disjoint and every recorded ID is in
    the universe, [processed] is the number of recorded IDs and [remaining]
    is the number of IDs that [get_pending] returns. *)
Theorem remaining_counts_the_pending_ids (c : SteamSpyCheckpoint) :
  NoDup (app_ids_to_scrape c) →
  partitions_disjoint c →
  done_ids c ⊆ universe c →
  processed c = Z.of_nat (size (done_ids c))
  ∧ remaining c = Z.of_nat (length (get_pending c))
  ∧ total c = processed c + Z.of_nat (length (get_pending c)).
Proof.
  intros Hnd (H1 & H2 & H3) Hsub.
  assert (processed c = Z.of_nat (size (done_ids c))) as Hproc.
  { unfold processed, done_ids.
    rewrite size_union by set_solver. rewrite size_union by done.
    rewrite size_dom. lia. }
  assert (total c = processed c + Z.of_nat (length (get_pending c))) as Htot.
  { rewrite Hproc. unfold total, get_pending. fold (done_ids c).
    rewrite (length_filter_in_out (done_ids c) (app_ids_to_scrape c)).
    rewrite length_filter_elem_of by done. lia. }
  split; [done|]. split; [|done]. unfold remaining. lia.
Qed.

End counters.

(** ** steamspy_scraper.py: what a run does to the scraper *)

Section steamspy_effects.
Context `{Pickle}.
Import steamspy_scraper.

(** The number of passes of the retry loop of the fetch function. *)
Definition retries (config : ScraperConfig) : nat := Z.to_nat (max_retries config).

(** What a stretch of the run does: [processed] are the IDs whose fetch
    was recorded, in order, [new] the lines added to the output file, and
    [budget] the number of fetches started. *)
Record loop_effect (config : ScraperConfig) (processed : list Z)
    (new : list (Z * Z * string)) (budget : nat) (self self' : SteamSpyScraper) : Prop := {
  le_ids : app_ids_to_scrape (checkpoint self') = app_ids_to_scrape (checkpoint self);
  le_started :
    started_at (spy_base (checkpoint self')) = started_at (spy_base (checkpoint self));
  le_output : output_file self' = output_file self ++ new;
  le_new : new.*1.*1 `sublist_of` processed;
  le_completed :
    completed_ids (checkpoint self')
    = completed_ids (checkpoint self) ∪ list_to_set new.*1.*1;
  le_no_data : no_data_ids (checkpoint self) ⊆ no_data_ids (checkpoint self');
  le_failed : dom (failed_ids (checkpoint self)) ⊆ dom (failed_ids (checkpoint self'));
  le_done : done_ids (checkpoint self') = done_ids (checkpoint self) ∪ list_to_set processed;
  le_requests :
    (requests self ≤ requests self'
     ∧ requests self' ≤ requests self + budget * retries config)%nat
}.

Lemma loop_effect_refl config self : loop_effect config [] [] 0 self self.
Proof.
  split; simpl; try done; try set_solver.
  - by rewrite app_nil_r.
  - lia.
Qed.

Lemma loop_effect_trans config d1 d2 n1 n2 b1 b2 s1 s2 s3 :
  loop_effect config d1 n1 b1 s1 s2 → loop_effect config d2 n2 b2 s2 s3 →
  loop_effect config (d1 ++ d2) (n1 ++ n2) (b1 + b2) s1 s3.
Proof.
  intros [A1 B1 C1 D1 E1 F1 G1 H1 I1] [A2 B2 C2 D2 E2 F2 G2 H2 I2].
  split.
  - congruence.
  - congruence.
  - by rewrite C2, C1, app_assoc.
  - rewrite !fmap_app. by apply sublist_app.
  - rewrite E2, E1, !fmap_app, list_to_set_app_L. set_solver.
  - set_solver.
  - set_solver.
  - rewrite H2, H1, list_to_set_app_L. set_solver.
  - nia.
Qed.

Lemma loop_effect_save config e self :
  loop_effect config [] [] 0 self (_save_checkpoint config e self).
Proof.
  destruct self as [[b ids c n f] fs out rq t].
  split; simpl; try done; try set_solver.
  - by rewrite app_nil_r.
  - lia.
Qed.

Lemma loop_effect_fetch config e appid self self' :
  fetch_and_record config e appid self = Some self' →
  ∃ new, loop_effect config [appid] new 1 self self'.
Proof.
  unfold fetch_and_record, get_app_details.
  pose proof (get_app_details_loop_requests (net e) appid (retries config) (requests self))
    as Hreq. fold (retries config).
  destruct (get_app_details_loop _ _ _ _) as [[doc| |reason|] n]; simpl in Hreq;
    [| | |done]; intros [= <-].
  - exists [(appid, clock e (ticks self), doc)]. split; simpl; try done.
    + set_solver.
    + unfold done_ids. simpl. set_solver.
    + lia.
  - exists []. split; simpl; try done.
    + by rewrite app_nil_r.
    + apply sublist_nil_l.
    + set_solver.
    + set_solver.
    + unfold done_ids. simpl. set_solver.
    + lia.
  - exists []. split; simpl; try done.
    + by rewrite app_nil_r.
    + apply sublist_nil_l.
    + set_solver.
    + rewrite dom_insert_L. set_solver.
    + unfold done_ids. simpl. rewrite dom_insert_L. set_solver.
    + lia.
Qed.

Lemma loop_effect_interrupted config e appid self :
  loop_effect config [] [] 1 self
    (with_requests (get_app_details config (net e) appid (requests self)).2 self).
Proof.
  unfold get_app_details.
  pose proof (get_app_details_loop_requests (net e) appid (retries config) (requests self))
    as Hreq. fold (retries config).
  split; simpl; try done; try set_solver.
  - by rewrite app_nil_r.
  - lia.
Qed.

(** One pass of the loop body. *)
Lemma loop_body_effect config e i appid self :
  let r := loop_body config e i appid self in
  r.2 ≠ Some Exhausted
  ∧ ∃ new,
      loop_effect config (match r.2 with Some Interrupt => [] | _ => [appid] end) new 1
        self r.1.
Proof.
  unfold loop_body.
  destruct (fetch_and_record config e appid self) as [self1|] eqn:Hf.
  - apply loop_effect_fetch in Hf as [new Hf].
    destruct (checkpoint_interval config =? 0); [split; [done|by exists new]|].
    destruct (_ `mod` _ =? 0); [|split; [done|by exists new]].
    split; [done|]. exists new. simpl.
    pose proof (loop_effect_trans _ _ _ _ _ _ _ _ _ _ Hf (loop_effect_save config e self1))
      as Ht.
    by rewrite !app_nil_r, Nat.add_0_r in Ht.
  - split; [done|]. exists []. simpl. apply loop_effect_interrupted.
Qed.

(** The loop of [run]. *)
Lemma run_loop_effect config e pending i self :
  let r := run_loop config e pending i self in
  ∃ processed new budget,
    processed `prefix_of` pending
    ∧ (budget ≤ length pending)%nat
    ∧ (r.2 = Exhausted → processed = pending)
    ∧ loop_effect config processed new budget self r.1.
Proof.
  revert i self. induction pending as [|appid pending IH]; intros i self; simpl.
  - exists [], [], 0%nat. split; [done|]. split; [done|]. split; [done|].
    apply loop_effect_refl.
  - destruct (loop_body_effect config e i appid self) as [Hne [new Hbody]].
    destruct (loop_body config e i appid self) as [self1 [ex|]]; simpl in *.
    + exists (match ex with Interrupt => [] | _ => [appid] end), new, 1%nat.
      split; [destruct ex; [by apply prefix_cons, prefix_nil|apply prefix_nil|
                            by apply prefix_cons, prefix_nil]|].
      split; [lia|]. split; [|done]. by intros ->.
    + destruct (IH (i + 1) self1) as (processed & new' & budget & Hpre & Hb & Hex & Heff).
      exists (appid :: processed), (new ++ new'), (S budget).
      split; [by apply prefix_cons|]. split; [lia|]. split.
      * intros Hexit. by rewrite Hex.
      * exact (loop_effect_trans _ _ _ _ _ _ _ _ _ _ Hbody Heff).
Qed.

(** [run] from the point where the pending IDs are computed. *)
Lemma run_pending_effect config e self1 :
  let r := run_pending config e self1 in
  ∃ processed new budget,
    processed `prefix_of` loop_input config (checkpoint self1)
    ∧ (budget ≤ length (loop_input config (checkpoint self1)))%nat
    ∧ (r.2 = LoopLeft Exhausted → processed = loop_input config (checkpoint self1))
    ∧ loop_effect config processed new budget self1 r.1.
Proof.
  unfold run_pending. fold (loop_input config (checkpoint self1)).
  destruct (get_pending (checkpoint self1)) eqn:Hpend.
  - exists [], [], 0%nat. simpl. split; [apply prefix_nil|]. split; [lia|].
    split; [done|]. apply loop_effect_refl.
  - destruct (run_loop_effect config e (loop_input config (checkpoint self1)) 1 self1)
      as (processed & new & budget & Hpre & Hb & Hex & Heff).
    destruct (run_loop config e _ 1 self1) as [self' ex]. simpl in *.
    exists processed, new, budget. split; [done|]. split; [done|]. split.
    + intros [= ->]. by apply Hex.
    + pose proof (loop_effect_trans _ _ _ _ _ _ _ _ _ _ Heff
                    (loop_effect_save config e self')) as Ht.
      by rewrite !app_nil_r, Nat.add_0_r in Ht.
Qed.

(** The whole of [run]: [entered] is the scraper when the pending IDs are
    computed, after the start is marked and the universe is loaded. *)
Lemma run_effect config e self :
  let r := run config e self in
  ∃ entered processed new budget,
    completed_ids (checkpoint entered) = completed_ids (checkpoint self)
    ∧ no_data_ids (checkpoint entered) = no_data_ids (checkpoint self)
    ∧ failed_ids (checkpoint entered) = failed_ids (checkpoint self)
    ∧ output_file entered = output_file self
    ∧ requests entered = requests self
    ∧ (app_ids_to_scrape (checkpoint self) ≠ [] →
         app_ids_to_scrape (checkpoint entered) = app_ids_to_scrape (checkpoint self))
    ∧ started_at (spy_base (checkpoint entered))
      = Some (default (clock e (ticks self)) (started_at (spy_base (checkpoint self))))
    ∧ processed `prefix_of` loop_input config (checkpoint entered)
    ∧ (budget ≤ length (loop_input config (checkpoint entered)))%nat
    ∧ (r.2 = LoopLeft Exhausted → processed = loop_input config (checkpoint entered))
    ∧ loop_effect config processed new budget entered r.1.
Proof.
  set (self0 := do_mark_started e self).
  assert (completed_ids (checkpoint self0) = completed_ids (checkpoint self)
          ∧ no_data_ids (checkpoint self0) = no_data_ids (checkpoint self)
          ∧ failed_ids (checkpoint self0) = failed_ids (checkpoint self)
          ∧ output_file self0 = output_file self
          ∧ requests self0 = requests self
          ∧ app_ids_to_scrape (checkpoint self0) = app_ids_to_scrape (checkpoint self)
          ∧ started_at (spy_base (checkpoint self0))
            = Some (default (clock e (ticks self)) (started_at (spy_base (checkpoint self)))))
    as (M1 & M2 & M3 & M4 & M5 & M6 & M7).
  { subst self0. unfold do_mark_started, mark_started.
    destruct (started_at (spy_base (checkpoint self))) eqn:Hs; simpl; rewrite ?Hs; done. }
  assert (∀ self1,
    completed_ids (checkpoint self1) = completed_ids (checkpoint self0) →
    no_data_ids (checkpoint self1) = no_data_ids (checkpoint self0) →
    failed_ids (checkpoint self1) = failed_ids (checkpoint self0) →
    output_file self1 = output_file self0 →
    requests self1 = requests self0 →
    (app_ids_to_scrape (checkpoint self0) ≠ [] →
       app_ids_to_scrape (checkpoint self1) = app_ids_to_scrape (checkpoint self0)) →
    started_at (spy_base (checkpoint self1)) = started_at (spy_base (checkpoint self0)) →
    ∀ r, (r = (self1, NoAppIds) ∨ r = (self1, UnpicklingFailed)
          ∨ r = run_pending config e self1) →
    ∃ entered processed new budget,
      completed_ids (checkpoint entered) = completed_ids (checkpoint self)
      ∧ no_data_ids (checkpoint entered) = no_data_ids (checkpoint self)
      ∧ failed_ids (checkpoint entered) = failed_ids (checkpoint self)
      ∧ output_file entered = output_file self
      ∧ requests entered = requests self
      ∧ (app_ids_to_scrape (checkpoint self) ≠ [] →
           app_ids_to_scrape (checkpoint entered) = app_ids_to_scrape (checkpoint self))
      ∧ started_at (spy_base (checkpoint entered))
        = Some (default (clock e (ticks self)) (started_at (spy_base (checkpoint self))))
      ∧ processed `prefix_of` loop_input config (checkpoint entered)
      ∧ (budget ≤ length (loop_input config (checkpoint entered)))%nat
      ∧ (r.2 = LoopLeft Exhausted → processed = loop_input config (checkpoint entered))
      ∧ loop_effect config processed new budget entered r.1) as Hgo.
  { intros self1 E1 E2 E3 E4 E5 E6 E7 r Hr.
    assert (∃ processed new budget,
      processed `prefix_of` loop_input config (checkpoint self1)
      ∧ (budget ≤ length (loop_input config (checkpoint self1)))%nat
      ∧ (r.2 = LoopLeft Exhausted → processed = loop_input config (checkpoint self1))
      ∧ loop_effect config processed new budget self1 r.1)
      as (processed & new & budget & P1 & P2 & P3 & P4).
    { destruct Hr as [->|[->| ->]]; [| |apply run_pending_effect];
        (exists [], [], 0%nat; simpl; split; [apply prefix_nil|]; split; [lia|];
         split; [done|]; apply loop_effect_refl). }
    exists self1, processed, new, budget.
    split; [congruence|]. split; [congruence|]. split; [congruence|].
    split; [congruence|]. split; [congruence|]. split.
    { intros Hne. rewrite E6; [done|]. by rewrite M6. }
    split; [congruence|]. done. }
  cbn zeta. unfold run. fold self0.
  destruct (app_ids_to_scrape (checkpoint self0)) as [|a ids] eqn:Hids.
  - destruct (load_app_ids_from_steam_checkpoint config self0) as [[]|[self'|]] eqn:Hload.
    + apply (Hgo self0); try done. by right; left.
    + apply (Hgo self'); [..|by right; right]; revert Hload;
        unfold load_app_ids_from_steam_checkpoint;
        (destruct (disk self0 !! _) as [content|]; [|done]);
        (destruct (loads content) as [[]|]; try done); intros [= <-]; try done.
    + apply (Hgo self0); try done. by left.
  - apply (Hgo self0); try done. by right; right.
Qed.

End steamspy_effects.

Section steamspy_run_more.
Context `{Pickle}.
Import steamspy_scraper.

Lemma prefix_is_sublist {A} (l1 l2 : list A) : l1 `prefix_of` l2 → l1 `sublist_of` l2.
Proof. intros [k ->]. by apply sublist_inserts_r. Qed.

Lemma loop_input_sublist config c : loop_input config c `sublist_of` app_ids_to_scrape c.
Proof.
  unfold loop_input, get_pending.
  destruct (test_mode config); [etrans; [apply slice_to_sublist|]|]; apply sublist_filter.
Qed.

Lemma filter_none {A} (P : A → Prop) `{!∀ x, Decision (P x)} (l : list A) :
  (∀ x, x ∈ l → ¬ P x) → filter P l = [].
Proof.
  induction l as [|a l IH]; intros Hall; [done|].
  rewrite filter_cons, decide_False by (apply Hall; left).
  apply IH. intros x Hx. apply Hall. by right.
Qed.

(** X4: the output file and the [completed] set move together. A run
    only appends to the output file; it adds to [completed] exactly the app
    IDs of the lines it appends, and the lines come in the order of the
    universe. *)
Theorem output_file_agrees_with_completed
    (config : ScraperConfig) (e : env spy_body) (self : SteamSpyScraper) :
  let r := run config e self in
  ∃ new,
    output_file r.1 = output_file self ++ new
    ∧ completed_ids (checkpoint r.1)
      = completed_ids (checkpoint self) ∪ list_to_set new.*1.*1
    ∧ new.*1.*1 `sublist_of` app_ids_to_scrape (checkpoint r.1).
Proof.
  destruct (run_effect config e self)
    as (entered & processed & new & budget & E1 & E2 & E3 & E4 & E5 & E6 & E7
        & Hpre & Hb & Hex & [A B C D E F G I J]).
  cbn zeta. exists new. split; [by rewrite C, E4|]. split; [by rewrite E, E1|].
  rewrite A. etrans; [exact D|]. etrans; [by apply prefix_is_sublist|].
  apply loop_input_sublist.
Qed.

(** X5: a run records pending IDs and nothing else. The three partitions
    only grow, every ID recorded during the run belongs to the universe, a
    universe that is already set is left as it is, and a run outside test
    mode that exhausts its loop leaves no ID pending. *)
Theorem run_records_only_pending_ids
    (config : ScraperConfig) (e : env spy_body) (self : SteamSpyScraper) :
  let r := run config e self in
  let c := checkpoint self in
  let c' := checkpoint r.1 in
  completed_ids c ⊆ completed_ids c'
  ∧ no_data_ids c ⊆ no_data_ids c'
  ∧ dom (failed_ids c) ⊆ dom (failed_ids c')
  ∧ done_ids c' ⊆ done_ids c ∪ universe c'
  ∧ (app_ids_to_scrape c ≠ [] → app_ids_to_scrape c' = app_ids_to_scrape c)
  ∧ (r.2 = LoopLeft Exhausted → test_mode config = false → get_pending c' = []).
Proof.
  destruct (run_effect config e self)
    as (entered & processed & new & budget & E1 & E2 & E3 & E4 & E5 & E6 & E7
        & Hpre & Hb & Hex & [A B C D E F G I J]).
  cbn zeta.
  assert (done_ids (checkpoint entered) = done_ids (checkpoint self)) as Hdone.
  { unfold done_ids. by rewrite E1, E2, E3. }
  assert (processed `sublist_of` app_ids_to_scrape (checkpoint entered)) as Hsub.
  { etrans; [by apply prefix_is_sublist|apply loop_input_sublist]. }
  split; [rewrite E, E1; set_solver|].
  split; [by rewrite <- E2|]. split; [by rewrite <- E3|].
  split; [|split].
  - rewrite I, Hdone. unfold universe. rewrite A.
    apply union_mono_l. intros x Hx%elem_of_list_to_set.
    apply elem_of_list_to_set. by eapply sublist_subseteq.
  - intros Hne. rewrite A. by apply E6.
  - intros Hexit Htest. specialize (Hex Hexit).
    unfold loop_input in Hex. rewrite Htest in Hex.
    unfold get_pending at 1. fold (done_ids (checkpoint (run config e self).1)).
    apply filter_none. intros x Hx Hnot. apply Hnot.
    rewrite I, Hex, elem_of_union, elem_of_list_to_set, elem_of_get_pending.
    rewrite A in Hx. destruct (decide (x ∈ done_ids (checkpoint entered))); [by left|].
    by right.
Qed.

(** X6: the request budget of a run. A run makes at most [max_retries]
    requests for each ID of its universe; in test mode with a limit that is
    not negative, at most [test_limit] times [max_retries] requests. *)
Theorem run_request_budget
    (config : ScraperConfig) (e : env spy_body) (self : SteamSpyScraper) :
  let r := run config e self in
  (requests self ≤ requests r.1)%nat
  ∧ (requests r.1
     ≤ requests self + length (app_ids_to_scrape (checkpoint r.1)) * retries config)%nat
  ∧ (test_mode config = true → 0 ≤ test_limit config →
       (requests r.1 ≤ requests self + Z.to_nat (test_limit config) * retries config)%nat).
Proof.
  destruct (run_effect config e self)
    as (entered & processed & new & budget & E1 & E2 & E3 & E4 & E5 & E6 & E7
        & Hpre & Hb & Hex & [A B C D E F G I J]).
  cbn zeta. rewrite E5 in J. split; [lia|]. split.
  - pose proof (sublist_length _ _ (loop_input_sublist config (checkpoint entered))) as Hl.
    rewrite A. nia.
  - intros Htest Hlim. unfold loop_input in Hb. rewrite Htest in Hb.
    unfold slice_to in Hb. rewrite (proj2 (Z.ltb_ge _ _) Hlim), length_take in Hb. nia.
Qed.

(** X7: [mark_started] sets the start time once. After a run the
    harvest state carries the start time it had before the run, and the
    time at which this run began when it had none: the start of the first
    run survives every resumed run. *)
Theorem run_keeps_the_first_start_time
    (config : ScraperConfig) (e : env spy_body) (self : SteamSpyScraper) :
  started_at (spy_base (checkpoint (run config e self).1))
  = Some (default (clock e (ticks self)) (started_at (spy_base (checkpoint self)))).
Proof.
  destruct (run_effect config e self)
    as (entered & processed & new & budget & E1 & E2 & E3 & E4 & E5 & E6 & E7
        & Hpre & Hb & Hex & [A B C D E F G I J]).
  by rewrite B.
Qed.

(** X8: a new scraper resumes from what the last run saved. After a run
    that had something pending, a scraper built on the same store takes the
    final harvest state of that run as its own, whatever list of IDs it is
    given; in test mode it ignores the store and starts from a new state
    with the IDs it is given. *)
Theorem new_scraper_resumes_from_the_saved_state
    (config : ScraperConfig) (e : env spy_body) (self : SteamSpyScraper)
    (app_ids : option (list Z)) (out : list (Z * Z * string)) :
  get_pending (checkpoint self) ≠ [] →
  let r := run config e self in
  __init__ config app_ids (disk r.1) out
  = inr (mkScraper (if test_mode config then fresh_checkpoint app_ids else checkpoint r.1)
                   (disk r.1) out 0 0).
Proof.
  intros Hpend r. subst r.
  destruct (steamspy_run_enters_loop config e self Hpend) as [ex Hex].
  pose proof (steamspy_run_persists config e self) as Hsaved. rewrite Hex in Hsaved.
  unfold __init__, _load_checkpoint. destruct (test_mode config); [done|].
  by rewrite Hsaved.
Qed.

(** X9: the universe can come from the checkpoint of either Steam API
    scraper. When the file named by [steam_checkpoint_file] holds a
    [SteamAPICheckpoint] or a plain dictionary, the loaded universe is the
    set of its keys, each listed once, and nothing else of the scraper
    changes; when the file is missing or holds something else, the function
    returns [False] and changes nothing. *)
Theorem universe_comes_from_the_keys_of_the_steam_checkpoint
    (config : ScraperConfig) (self : SteamSpyScraper) :
  let loaded (keys : gset Z) (r : unit + option SteamSpyScraper) :=
    ∃ self', r = inr (Some self')
      ∧ NoDup (app_ids_to_scrape (checkpoint self'))
      ∧ list_to_set (app_ids_to_scrape (checkpoint self')) = keys
      ∧ completed_ids (checkpoint self') = completed_ids (checkpoint self)
      ∧ no_data_ids (checkpoint self') = no_data_ids (checkpoint self)
      ∧ failed_ids (checkpoint self') = failed_ids (checkpoint self)
      ∧ spy_base (checkpoint self') = spy_base (checkpoint self)
      ∧ disk self' = disk self ∧ output_file self' = output_file self in
  (∀ c, disk self !! steam_checkpoint_file config = Some (dumps (PyApi c)) →
        loaded (dom (apps_data c)) (load_app_ids_from_steam_checkpoint config self))
  ∧ (∀ d, disk self !! steam_checkpoint_file config = Some (dumps (PyDict d)) →
          loaded (dom d) (load_app_ids_from_steam_checkpoint config self))
  ∧ (∀ s, disk self !! steam_checkpoint_file config = Some (dumps (PySet s)) →
          load_app_ids_from_steam_checkpoint config self = inr None)
  ∧ (∀ c, disk self !! steam_checkpoint_file config = Some (dumps (PySpy c)) →
          load_app_ids_from_steam_checkpoint config self = inr None)
  ∧ (disk self !! steam_checkpoint_file config = None →
       load_app_ids_from_steam_checkpoint config self = inr None).
Proof.
  cbn zeta. unfold load_app_ids_from_steam_checkpoint.
  assert (∀ d : gmap Z string, list_to_set (map_to_list d).*1 = dom d) as Hkeys.
  { intros d. apply set_eq. intros x.
    rewrite elem_of_list_to_set, elem_of_dom, list_elem_of_fmap. split.
    - intros ([k v] & -> & Hin%elem_of_map_to_list). by eexists.
    - intros [v Hv]. exists (x, v). split; [done|]. by apply elem_of_map_to_list. }
  repeat split.
  - intros c ->. rewrite loads_dumps. eexists. split; [done|]. simpl.
    split; [apply NoDup_fst_map_to_list|]. by split; [apply Hkeys|].
  - intros d ->. rewrite loads_dumps. eexists. split; [done|]. simpl.
    split; [apply NoDup_fst_map_to_list|]. by split; [apply Hkeys|].
  - intros s ->. by rewrite loads_dumps.
  - intros c ->. by rewrite loads_dumps.
  - by intros ->.
Qed.

End steamspy_run_more.

(** ** The fetch functions *)

Section fetch_functions.

Lemma get_tags_loop_requests network appid attempts n :
  (n ≤ (steam_tags_scraper.get_tags_loop network appid attempts n).2
   ∧ (steam_tags_scraper.get_tags_loop network appid attempts n).2 ≤ n + attempts)%nat.
Proof.
  revert n. induction attempts as [|a IH]; intros n; simpl; [lia|].
  destruct (network n) as [status b| |msg|]; simpl; try lia.
  - destruct (status =? 200); [simpl; lia|].
    destruct (status =? 404); [simpl; lia|].
    destruct (status =? 429); [specialize (IH (S n)); lia|].
    destruct (status =? 403); [specialize (IH (S n)); lia|simpl; lia].
  - specialize (IH (S n)). lia.
Qed.

(** X10: the three fetch functions that loop over [range(max_retries)]
    stop after [max_retries] requests, whatever the server answers. With
    [max_retries] zero or negative they make no request at all: the SteamSpy
    and the store fetch raise "Max retries exceeded" at once and the tags
    fetch returns [None]. *)
Theorem fetch_loops_stop_after_max_retries :
  (∀ config network appid n,
     let r := steamspy_scraper.get_app_details config network appid n in
     (n ≤ r.2 ∧ r.2 ≤ n + Z.to_nat (steamspy_scraper.max_retries config))%nat
     ∧ (steamspy_scraper.max_retries config ≤ 0 →
          r = (Raised ("Max retries exceeded for appid " +:+ pretty appid), n)))
  ∧ (∀ max_retries network appid n,
       let r := steam_store_scraper_v2.get_store_data max_retries network appid n in
       (n ≤ r.2 ∧ r.2 ≤ n + Z.to_nat max_retries)%nat
       ∧ (max_retries ≤ 0 →
            r = (Raised ("Max retries exceeded for appid " +:+ pretty appid), n)))
  ∧ (∀ config network appid n,
       let r := steam_tags_scraper.get_tags config network appid n in
       (n ≤ r.2 ∧ r.2 ≤ n + Z.to_nat (steam_tags_scraper.max_retries config))%nat
       ∧ (steam_tags_scraper.max_retries config ≤ 0 → r = (Some None, n))).
Proof.
  split; [|split].
  - intros config network appid n r. subst r. unfold steamspy_scraper.get_app_details.
    split; [apply get_app_details_loop_requests|].
    intros Hle. by rewrite Z2Nat.nonpos.
  - intros max_retries network appid n r. subst r.
    unfold steam_store_scraper_v2.get_store_data.
    split; [apply get_store_data_loop_requests|].
    intros Hle. by rewrite Z2Nat.nonpos.
  - intros config network appid n r. subst r. unfold steam_tags_scraper.get_tags.
    split; [apply get_tags_loop_requests|].
    intros Hle. by rewrite Z2Nat.nonpos.
Qed.

(** Attempts that were rate-limited or timed out leave no trace but their
    number. *)
Lemma get_app_details_loop_skip network appid attempts n k :
  (k ≤ attempts)%nat →
  (∀ j, (n ≤ j < n + k)%nat → retried (network j)) →
  steamspy_scraper.get_app_details_loop network appid attempts n
  = steamspy_scraper.get_app_details_loop network appid (attempts - k) (n + k).
Proof.
  revert attempts n. induction k as [|k IH]; intros attempts n Hk Hre.
  - by rewrite Nat.sub_0_r, Nat.add_0_r.
  - destruct attempts as [|a]; [lia|]. simpl.
    pose proof (Hre n ltac:(lia)) as Hn.
    assert (steamspy_scraper.get_app_details_loop network appid a (S n)
            = steamspy_scraper.get_app_details_loop network appid (a - k) (n + S k)) as Hrec.
    { replace (n + S k)%nat with (S n + k)%nat by lia. apply IH; [lia|].
      intros j Hj. apply Hre. lia. }
    destruct (network n) as [status b| |m|]; simpl in Hn; try done.
    subst status. done.
Qed.

(** X11: the SteamSpy fetch returns what the first decisive answer says.
    After any number of rate-limited or timed-out attempts below
    [max_retries], a 200 answer with a document that is not empty and a name
    other than [None], the empty string and "None" is returned as the
    payload; a 200 answer without these is [None]; any other status but 429,
    such as 403, 404 or 500, is [None] without a further attempt. The number
    of requests is one more than the number of attempts retried. *)
Theorem steamspy_fetch_returns_the_first_decisive_answer
    (network : nat → http_event steamspy_scraper.spy_body) (appid : Z)
    (attempts n k : nat) (status : Z) (data : steamspy_scraper.spy_body) :
  (k < attempts)%nat →
  (∀ j, (n ≤ j < n + k)%nat → retried (network j)) →
  network (n + k)%nat = Response status data →
  status ≠ 429 →
  steamspy_scraper.get_app_details_loop network appid attempts n
  = (if bool_decide (status = 200)
     then if steamspy_scraper.body_falsy data
             || steamspy_scraper.name_is_missing (steamspy_scraper.body_name data)
          then NoData
          else Payload (steamspy_scraper.body_doc data)
     else NoData,
     S (n + k)).
Proof.
  intros Hk Hre Hnet Hstatus.
  rewrite (get_app_details_loop_skip network appid attempts n k) by (lia || done).
  destruct (attempts - k)%nat as [|a] eqn:Ha; [lia|]. simpl. rewrite Hnet.
  case_bool_decide as H200.
  - subst status. simpl. by destruct (_ || _).
  - apply Z.eqb_neq in H200, Hstatus. by rewrite H200, Hstatus.
Qed.

(** A request whose answer makes the Steam API fetch call itself again. *)
Definition api_retried {B} (ev : http_event B) : Prop :=
  match ev with
  | Response status _ => status = 429 ∨ status = 403
  | _ => False
  end.

Lemma api_get_app_details_skip network appid depth n k :
  (k ≤ depth)%nat →
  (∀ j, (n ≤ j < n + k)%nat → api_retried (network j)) →
  steam_api_scraper_v2.get_app_details network appid depth n
  = steam_api_scraper_v2.get_app_details network appid (depth - k) (n + k).
Proof.
  revert depth n. induction k as [|k IH]; intros depth n Hk Hre.
  - by rewrite Nat.sub_0_r, Nat.add_0_r.
  - destruct depth as [|d]; [lia|]. simpl.
    pose proof (Hre n ltac:(lia)) as Hn.
    assert (steam_api_scraper_v2.get_app_details network appid d (S n)
            = steam_api_scraper_v2.get_app_details network appid (d - k) (n + S k)) as Hrec.
    { replace (n + S k)%nat with (S n + k)%nat by lia. apply IH; [lia|].
      intros j Hj. apply Hre. lia. }
    destruct (network n) as [status b| |m|]; simpl in Hn; try done.
    destruct Hn as [-> | ->]; done.
Qed.

Lemma legacy_get_app_details_skip network appid depth n k :
  (k ≤ depth)%nat →
  (∀ j, (n ≤ j < n + k)%nat → api_retried (network j)) →
  steam_api_scraper.get_app_details network appid depth n
  = steam_api_scraper.get_app_details network appid (depth - k) (n + k).
Proof.
  revert depth n. induction k as [|k IH]; intros depth n Hk Hre.
  - by rewrite Nat.sub_0_r, Nat.add_0_r.
  - destruct depth as [|d]; [lia|]. simpl.
    pose proof (Hre n ltac:(lia)) as Hn.
    assert (steam_api_scraper.get_app_details network appid d (S n)
            = steam_api_scraper.get_app_details network appid (d - k) (n + S k)) as Hrec.
    { replace (n + S k)%nat with (S n + k)%nat by lia. apply IH; [lia|].
      intros j Hj. apply Hre. lia. }
    destruct (network n) as [status b| |m|]; simpl in Hn; try done.
    destruct Hn as [-> | ->]; done.
Qed.

(** X12: the Steam API fetch, in both scrapers, returns the answer to the
    first request that is answered neither 429 nor 403, as long as the
    interpreter allows the nested calls: the entry of a 200 answer, [None]
    for any other status; it makes one request per retried answer and one
    more. A request that raises is not retried: the exception passes
    through. *)
Theorem api_fetch_returns_the_first_other_answer
    (appid : Z) (depth n k : nat) :
  (k < depth)%nat →
  (∀ (network : nat → http_event (option steam_api_scraper_v2.details)),
     (∀ j, (n ≤ j < n + k)%nat → api_retried (network j)) →
     (∀ status entry,
        network (n + k)%nat = Response status entry → status ≠ 429 → status ≠ 403 →
        steam_api_scraper_v2.get_app_details network appid depth n
        = (inr (if bool_decide (status = 200) then entry else None), S (n + k)))
     ∧ (∀ msg,
          network (n + k)%nat = RequestError msg →
          steam_api_scraper_v2.get_app_details network appid depth n
          = (inl (steam_api_scraper_v2.RequestException msg), S (n + k))))
  ∧ (∀ (network : nat → http_event (option steam_api_scraper.details)),
       (∀ j, (n ≤ j < n + k)%nat → api_retried (network j)) →
       (∀ status entry,
          network (n + k)%nat = Response status entry → status ≠ 429 → status ≠ 403 →
          steam_api_scraper.get_app_details network appid depth n
          = (inr (if bool_decide (status = 200) then entry else None), S (n + k)))
       ∧ (∀ msg,
            network (n + k)%nat = RequestError msg →
            steam_api_scraper.get_app_details network appid depth n
            = (inl (steam_api_scraper.RequestException msg), S (n + k)))).
Proof.
  intros Hk. split; intros network Hre.
  - rewrite (api_get_app_details_skip network appid depth n k) by (lia || done).
    destruct (depth - k)%nat as [|d] eqn:Hd; [lia|]. simpl. split.
    + intros status entry -> H429 H403. case_bool_decide as H200.
      * subst status. done.
      * apply Z.eqb_neq in H200, H429, H403. by rewrite H200, H429, H403.
    + by intros msg ->.
  - rewrite (legacy_get_app_details_skip network appid depth n k) by (lia || done).
    destruct (depth - k)%nat as [|d] eqn:Hd; [lia|]. simpl. split.
    + intros status entry -> H429 H403. case_bool_decide as H200.
      * subst status. done.
      * apply Z.eqb_neq in H200, H429, H403. by rewrite H200, H429, H403.
    + by intros msg ->.
Qed.

End fetch_functions.

(** ** steam_tags_scraper.py *)

Section tags_scraper_more.
Context `{Pickle}.
Import steam_tags_scraper.

(** A request after which the tags fetch goes round again. *)
Definition tags_retried (ev : http_event (list string)) : Prop :=
  match ev with
  | Response status _ => status = 429 ∨ status = 403
  | Timeout => True
  | _ => False
  end.

Lemma get_tags_loop_skip network appid attempts n k :
  (k ≤ attempts)%nat →
  (∀ j, (n ≤ j < n + k)%nat → tags_retried (network j)) →
  get_tags_loop network appid attempts n = get_tags_loop network appid (attempts - k) (n + k).
Proof.
  revert attempts n. induction k as [|k IH]; intros attempts n Hk Hre.
  - by rewrite Nat.sub_0_r, Nat.add_0_r.
  - destruct attempts as [|a]; [lia|]. simpl.
    pose proof (Hre n ltac:(lia)) as Hn.
    assert (get_tags_loop network appid a (S n)
            = get_tags_loop network appid (a - k) (n + S k)) as Hrec.
    { replace (n + S k)%nat with (S n + k)%nat by lia. apply IH; [lia|].
      intros j Hj. apply Hre. lia. }
    destruct (network n) as [status b| |m|]; simpl in Hn; try done.
    destruct Hn as [-> | ->]; done.
Qed.

Lemma get_tags_loop_signal network appid attempts n m :
  get_tags_loop network appid attempts n = (None, m) →
  ∃ k, (n ≤ k < n + attempts)%nat ∧ network k = KeyboardInterrupt.
Proof.
  revert n. induction attempts as [|a IH]; intros n; simpl; [done|].
  destruct (network n) as [status b| |msg|] eqn:Hev.
  - destruct (status =? 200); [done|]. destruct (status =? 404); [done|].
    destruct (status =? 429).
    { intros (k & Hk & Hnet)%IH. exists k. split; [lia|done]. }
    destruct (status =? 403); [|done].
    intros (k & Hk & Hnet)%IH. exists k. split; [lia|done].
  - intros (k & Hk & Hnet)%IH. exists k. split; [lia|done].
  - done.
  - intros _. exists n. split; [lia|done].
Qed.

(** X13: the tags fetch never raises a request error, and the run files
    what it could not fetch under [error_apps]. Only the interruption signal
    passes through [get_tags]; a transport error after any number of retried
    attempts, and attempts that were all rate-limited, forbidden or timed
    out, both end in [None]. With a checkpoint interval other than zero the
    run then adds the ID to [error_apps] and goes on with the next ID. *)
Theorem tags_fetch_failure_goes_to_error_apps :
  (∀ config network appid n,
     (get_tags config network appid n).1 = None →
     ∃ k, (n ≤ k < n + Z.to_nat (max_retries config))%nat ∧ network k = KeyboardInterrupt)
  ∧ (∀ network appid attempts n k msg,
       (k < attempts)%nat →
       (∀ j, (n ≤ j < n + k)%nat → tags_retried (network j)) →
       network (n + k)%nat = RequestError msg →
       get_tags_loop network appid attempts n = (Some None, S (n + k)))
  ∧ (∀ network appid attempts n,
       (∀ j, (n ≤ j < n + attempts)%nat → tags_retried (network j)) →
       get_tags_loop network appid attempts n = (Some None, (n + attempts)%nat))
  ∧ (∀ config network i appid pending self n,
       checkpoint_interval config ≠ 0 →
       get_tags config network appid (requests self) = (Some None, n) →
       ∃ self',
         appid ∈ error_apps self'
         ∧ tags_data self' = tags_data self
         ∧ no_tags_apps self' = no_tags_apps self
         ∧ run_loop config network (appid :: pending) i self
           = run_loop config network pending (i + 1) self').
Proof.
  split; [|split; [|split]].
  - intros config network appid n Hnone. unfold get_tags in Hnone.
    destruct (get_tags_loop _ _ _ _) as [r m] eqn:Hloop. simpl in Hnone. subst r.
    by apply get_tags_loop_signal in Hloop.
  - intros network appid attempts n k msg Hk Hre Hnet.
    rewrite (get_tags_loop_skip network appid attempts n k) by (lia || done).
    destruct (attempts - k)%nat as [|a] eqn:Ha; [lia|]. simpl. by rewrite Hnet.
  - intros network appid attempts n Hre.
    rewrite (get_tags_loop_skip network appid attempts n attempts) by (lia || done).
    by rewrite Nat.sub_diag.
  - intros config network i appid pending self n Hint Hfetch. simpl. rewrite Hfetch.
    apply Z.eqb_neq in Hint. rewrite Hint.
    destruct (_ `mod` _ =? 0); eexists; (split; [|split; [|split; [|reflexivity]]]);
      simpl; try done; set_solver.
Qed.

(** X14: the progress files of the tags scraper round-trip. What
    [save_progress] writes, [load_progress] reads back into any scraper on
    the same store: the three partitions are those that were saved. After a
    run that completed, the next run therefore starts from its
    partitions. *)
Theorem tags_progress_round_trip
    (config : TagScraperConfig) (self : SteamTagsScraper)
    (t : gmap Z (list string)) (s r : gset Z) (rq : nat) :
  let saved := save_progress config self in
  load_progress config (mkScraper t s r (disk saved) rq)
  = Some (mkScraper (tags_data self) (no_tags_apps self) (error_apps self) (disk saved) rq)
  ∧ ∀ network appids,
      let done := run config network appids self in
      done.2 = Completed →
      load_progress config (mkScraper t s r (disk done.1) rq)
      = Some (mkScraper (tags_data done.1) (no_tags_apps done.1) (error_apps done.1)
                        (disk done.1) rq).
Proof.
  assert (∀ self' : SteamTagsScraper,
    load config "tags_data" (disk self') = inr (Some (PyTags (tags_data self'))) →
    load config "no_tags_apps" (disk self') = inr (Some (PySet (no_tags_apps self'))) →
    load config "error_apps" (disk self') = inr (Some (PySet (error_apps self'))) →
    load_progress config (mkScraper t s r (disk self') rq)
    = Some (mkScraper (tags_data self') (no_tags_apps self') (error_apps self')
                      (disk self') rq)) as Hload.
  { intros self' H1 H2 H3. unfold load_progress. simpl. by rewrite H1, H2, H3. }
  cbn zeta. split.
  - destruct (tags_save_progress_disk config self) as (H1 & H2 & H3).
    exact (Hload (save_progress config self) H1 H2 H3).
  - intros network appids Hdone.
    pose proof (tags_run_persists_on_completion config network appids self) as Hp.
    rewrite Hdone in Hp. destruct Hp as (H1 & H2 & H3). by apply Hload.
Qed.

(** X15: the pending IDs of the tags scraper. [get_pending_appids]
    returns exactly the IDs of the given list that are in none of the three
    partitions, in the order of the list and as often as the list has them,
    and no longer list of such IDs fits into the given one. *)
Theorem tags_pending_ids_exact (self : SteamTagsScraper) (all_appids : list Z) :
  let processed := dom (tags_data self) ∪ no_tags_apps self ∪ error_apps self in
  (∀ x, x ∈ get_pending_appids self all_appids ↔
        x ∈ all_appids
        ∧ (x ∉ dom (tags_data self)) ∧ (x ∉ no_tags_apps self) ∧ (x ∉ error_apps self))
  ∧ get_pending_appids self all_appids `sublist_of` all_appids
  ∧ (∀ l, l `sublist_of` all_appids → Forall (λ x, x ∉ processed) l →
          l `sublist_of` get_pending_appids self all_appids)
  ∧ (∀ x, x ∉ processed →
          length (filter (λ y, y = x) (get_pending_appids self all_appids))
          = length (filter (λ y, y = x) all_appids)).
Proof.
  cbn zeta. unfold get_pending_appids. split; [|split; [|split]].
  - intros x. rewrite list_elem_of_filter, !not_elem_of_union. tauto.
  - apply sublist_filter.
  - intros l Hsub Hall.
    rewrite <- (filter_all _ l Hall). by apply sublist_filter_mono.
  - intros x Hx. induction all_appids as [|a l IH]; [done|].
    rewrite !filter_cons. destruct (decide (a = x)) as [->|Hne].
    + rewrite decide_True by done. rewrite filter_cons, decide_True by done.
      simpl. by rewrite IH.
    + destruct (decide (a ∉ _)); [|done]. by rewrite filter_cons, decide_False.
Qed.

Lemma StronglySorted_le_lt (l : list Z) :
  StronglySorted Z.le l → NoDup l → StronglySorted Z.lt l.
Proof.
  induction 1 as [|x l Hs IH Hall]; intros Hnd; [constructor|].
  apply NoDup_cons in Hnd as [Hnotin Hnd]. constructor; [by apply IH|].
  rewrite Forall_forall in *. intros y Hy. specialize (Hall y Hy).
  assert (x ≠ y) by (intros ->; done). lia.
Qed.

(** X16: the rows of the exported CSV file. [export_to_csv] writes one
    row for each app that has tags, with the tags joined by a bar, and the
    rows are in strictly increasing order of app ID. *)
Theorem csv_rows_are_sorted_by_app_id (self : SteamTagsScraper) :
  StronglySorted Z.lt (export_to_csv self).*1
  ∧ (∀ appid cell, (appid, cell) ∈ export_to_csv self ↔
       ∃ tags, tags_data self !! appid = Some tags ∧ cell = join "|" tags)
  ∧ length (export_to_csv self) = size (tags_data self).
Proof.
  unfold export_to_csv. split; [|split].
  - rewrite <- list_fmap_compose.
    change (fst ∘ (λ item : Z * list string, (item.1, join "|" item.2)))
      with (fst : Z * list string → Z).
    apply StronglySorted_le_lt.
    + apply (StronglySorted_fmap fst item_le Z.le); [by intros ? ?|].
      apply StronglySorted_merge_sort.
      * intros x y z. unfold item_le. lia.
      * intros x y. unfold item_le. lia.
    + rewrite merge_sort_Permutation. apply NoDup_fst_map_to_list.
  - intros appid cell. rewrite list_elem_of_fmap. split.
    + intros ([k tags] & [= -> ->] & Hin). rewrite merge_sort_Permutation in Hin.
      apply elem_of_map_to_list in Hin. by exists tags.
    + intros (tags & Hin & ->). exists (appid, tags). split; [done|].
      rewrite merge_sort_Permutation. by apply elem_of_map_to_list.
  - by rewrite length_fmap, merge_sort_Permutation, length_map_to_list.
Qed.

End tags_scraper_more.

(** ** steam_api_scraper_v2.py and steam_api_scraper.py *)

(** The IDs a Steam API harvest state has on record, and the statement
    that no ID is in two of its partitions. *)
Definition api_done (c : SteamAPICheckpoint) : gset Z :=
  dom (apps_data c) ∪ excluded_apps c ∪ error_apps c.

Definition api_disjoint (c : SteamAPICheckpoint) : Prop :=
  dom (apps_data c) ## excluded_apps c
  ∧ dom (apps_data c) ## error_apps c
  ∧ excluded_apps c ## error_apps c.

Section api_run_more.
Context `{Pickle}.
Variable set_order : gset Z → list Z.
Import steam_api_scraper_v2.

Lemma api_record_inv appid d c :
  appid ∉ api_done c → api_disjoint c →
  api_disjoint (record appid d c)
  ∧ api_done (record appid d c) = {[appid]} ∪ api_done c
  ∧ api_base (record appid d c) = api_base c.
Proof.
  unfold api_done, api_disjoint, record. intros Hfresh (H1 & H2 & H3).
  destruct d as [[[] doc]|]; simpl; rewrite ?dom_insert_L; set_solver.
Qed.

Lemma api_run_loop_inv config e depth remaining i self :
  NoDup remaining →
  (∀ x, x ∈ remaining → x ∉ api_done (checkpoint self)) →
  api_disjoint (checkpoint self) →
  let c' := checkpoint (run_loop config e depth remaining i self).1 in
  api_disjoint c'
  ∧ api_done (checkpoint self) ⊆ api_done c'
  ∧ api_done c' ⊆ api_done (checkpoint self) ∪ list_to_set remaining
  ∧ ((run_loop config e depth remaining i self).2 = None →
       api_done c' = api_done (checkpoint self) ∪ list_to_set remaining)
  ∧ started_at (api_base c') = started_at (api_base (checkpoint self)).
Proof.
  revert i self. induction remaining as [|appid remaining IH]; intros i self Hnd Hfresh Hdis.
  - simpl. split; [done|]. split; [done|]. split; [set_solver|].
    split; [intros _; set_solver|done].
  - apply NoDup_cons in Hnd as [Hnotin Hnd]. simpl.
    destruct (get_app_details (net e) appid depth (requests self)) as [[ex|d] n].
    + simpl. split; [done|]. split; [done|]. split; [set_solver|]. split; done.
    + destruct (api_record_inv appid d (checkpoint self)) as (R1 & R2 & R3);
        [apply Hfresh; left|done|].
      destruct (checkpoint_interval config =? 0).
      { simpl. rewrite R2, R3. split; [done|]. split; [set_solver|].
        split; [set_solver|]. split; done. }
      set (self1 := if _ `mod` _ =? 0 then _ else _).
      assert (apps_data (checkpoint self1) = apps_data (record appid d (checkpoint self))
              ∧ excluded_apps (checkpoint self1)
                = excluded_apps (record appid d (checkpoint self))
              ∧ error_apps (checkpoint self1) = error_apps (record appid d (checkpoint self))
              ∧ started_at (api_base (checkpoint self1))
                = started_at (api_base (record appid d (checkpoint self))))
        as (S1 & S2 & S3 & S4).
      { subst self1. by destruct (_ `mod` _ =? 0). }
      assert (api_done (checkpoint self1) = {[appid]} ∪ api_done (checkpoint self)) as Hdone.
      { unfold api_done at 1. rewrite S1, S2, S3. exact R2. }
      assert (api_disjoint (checkpoint self1)) as Hdis1.
      { unfold api_disjoint. rewrite S1, S2, S3. exact R1. }
      destruct (IH (i + 1) self1 Hnd) as (I1 & I2 & I3 & I4 & I5); [|done|].
      { intros x Hx. rewrite Hdone. apply not_elem_of_union. split.
        - intros ->%elem_of_singleton. done.
        - apply Hfresh. by right. }
      cbn zeta. split; [done|]. rewrite Hdone in I2, I3, I4.
      split; [clear -I2; set_solver|]. split; [clear -I3; set_solver|]. split.
      * intros Hex. rewrite (I4 Hex). clear. set_solver.
      * by rewrite I5, S4, R3.
Qed.

(** X17: a run of the Steam API scraper keeps its partitions apart.
    Whatever order Python gives the set of pending IDs: when no ID is in two
    of [apps_data], [excluded_apps] and [error_apps] before the run, none is
    after it; what was on record stays on record; and every ID recorded
    during the run is one of the app IDs the run was given. *)
Theorem api_run_keeps_partitions_disjoint
    (config : ScraperConfig) (e : env (option details)) (depth : nat)
    (all_app_ids : gset Z) (self : SteamScraper) :
  (∀ s, set_order s ≡ₚ elements s) →
  api_disjoint (checkpoint self) →
  let c' := checkpoint (run set_order config e depth all_app_ids self).1 in
  api_disjoint c'
  ∧ api_done (checkpoint self) ⊆ api_done c'
  ∧ api_done c' ⊆ api_done (checkpoint self) ∪ all_app_ids.
Proof.
  intros Horder Hdis. unfold run. cbn zeta.
  set (self0 := do_mark_started e self).
  assert (apps_data (checkpoint self0) = apps_data (checkpoint self)
          ∧ excluded_apps (checkpoint self0) = excluded_apps (checkpoint self)
          ∧ error_apps (checkpoint self0) = error_apps (checkpoint self))
    as (M1 & M2 & M3).
  { subst self0. unfold do_mark_started. by destruct (started_at _). }
  assert (api_done (checkpoint self0) = api_done (checkpoint self)) as Hdone0.
  { unfold api_done. by rewrite M1, M2, M3. }
  assert (api_disjoint (checkpoint self0)) as Hdis0.
  { unfold api_disjoint. by rewrite M1, M2, M3. }
  destruct (api_get_pending_exact set_order Horder (checkpoint self0) all_app_ids)
    as [Hmem Hnd].
  destruct (get_pending set_order (checkpoint self0) all_app_ids) as [|a l] eqn:Hpend.
  { simpl. rewrite Hdone0. split; [done|]. split; set_solver. }
  set (remaining := if test_mode config then _ else _).
  assert (remaining `sublist_of` a :: l) as Hsub.
  { subst remaining. destruct (test_mode config); [apply slice_to_sublist|done]. }
  pose proof (api_run_loop_inv config e depth remaining 1 self0) as Hloop.
  destruct (run_loop config e depth remaining 1 self0) as [self' ex]. simpl in *.
  destruct Hloop as (L1 & L2 & L3 & _ & _); [by eapply sublist_NoDup| |done|].
  { intros x Hx. assert (x ∈ a :: l) as Hin by (by eapply sublist_subseteq).
    apply Hmem in Hin as (_ & ? & ? & ?). unfold api_done. set_solver. }
  assert (api_done (checkpoint self') ⊆ api_done (checkpoint self) ∪ all_app_ids) as L4.
  { etrans; [exact L3|]. rewrite Hdone0. apply union_mono_l.
    intros x Hx%elem_of_list_to_set.
    assert (x ∈ a :: l) as Hin by (by eapply sublist_subseteq).
    by apply Hmem in Hin as (? & _). }
  rewrite Hdone0 in L2. clear -L1 L2 L4.
  destruct self' as [[b ad x r] fs rq t]. done.
Qed.

End api_run_more.

Section legacy_progress.
Context `{Pickle}.
Import steam_api_scraper.

(** X18: the progress files of steam_api_scraper.py. Outside test mode,
    what [save_progress] writes, [load_progress] reads back into any scraper
    on the same store. In test mode [load_progress] leaves the scraper as it
    is, and [save_progress] still writes [apps_data] while the files of
    [excluded_apps] and [error_apps] keep what they held. *)
Theorem legacy_progress_round_trip
    (config : ScraperConfig) (self : SteamScraper)
    (a : gmap Z string) (x r : gset Z) (rq : nat) :
  let saved := save_progress config self in
  if test_mode config
  then load_progress config (mkScraper a x r (disk saved) rq)
       = Some (mkScraper a x r (disk saved) rq)
       ∧ load config "apps_data" (disk saved) = inr (Some (PyDict (apps_data self)))
       ∧ disk saved !! path_of config "excluded_apps"
         = disk self !! path_of config "excluded_apps"
       ∧ disk saved !! path_of config "error_apps" = disk self !! path_of config "error_apps"
  else load_progress config (mkScraper a x r (disk saved) rq)
       = Some (mkScraper (apps_data self) (excluded_apps self) (error_apps self)
                         (disk saved) rq).
Proof.
  cbn zeta. pose proof (legacy_save_progress_disk config self) as Hsaved.
  cbn zeta in Hsaved.
  assert (apps_data (save_progress config self) = apps_data self
          ∧ excluded_apps (save_progress config self) = excluded_apps self
          ∧ error_apps (save_progress config self) = error_apps self) as (S1 & S2 & S3).
  { unfold save_progress. by destruct (test_mode config). }
  rewrite S1, S2, S3 in Hsaved. unfold load_progress.
  destruct (test_mode config) eqn:Htest.
  - destruct Hsaved as [H1 _]. split; [done|]. split; [exact H1|].
    unfold save_progress, save. rewrite Htest. simpl.
    split; apply lookup_insert_ne; intros ?%legacy_path_of_suffix; done.
  - destruct Hsaved as (H1 & H2 & H3). simpl. by rewrite H1, H2, H3.
Qed.

End legacy_progress.

(** ** [SteamAPI.get_all_app_ids] *)

Section app_list.
Import steam_api_scraper_v2.

(** The server hands out the pages [pages], each with more to come: page
    [i] answers request [n + i], which carries the last ID of the page
    before it. *)
Fixpoint serves (server : Z → nat → http_event page) (pages : list (list Z))
    (last_appid : Z) (n : nat) : Prop :=
  match pages with
  | [] => True
  | batch :: pages' =>
      batch ≠ []
      ∧ server last_appid n = Response 200 (mkPage batch true)
      ∧ serves server pages' (List.last batch 0) (S n)
  end.

(** The [last_appid] of the request that follows the pages. *)
Fixpoint cursor (pages : list (list Z)) (last_appid : Z) : Z :=
  match pages with
  | [] => last_appid
  | batch :: pages' => cursor pages' (List.last batch 0)
  end.

(** An answer after which the listing is over. *)
Definition ends_listing (ev : http_event page) : Prop :=
  match ev with
  | Response status data =>
      status ≠ 200 ∨ page_apps data = [] ∨ have_more_results data = false
  | _ => True
  end.

(** What the listing returns when [apps] are collected and [ev] ends it. *)
Definition listed (apps : list Z) (ev : http_event page) : exception + list Z :=
  match ev with
  | Response status data =>
      inr (if bool_decide (status = 200) then apps ++ page_apps data else apps)
  | Timeout => inl (RequestException "timeout")
  | RequestError msg => inl (RequestException msg)
  | KeyboardInterrupt => inl KeyboardInterrupt_
  end.

Lemma get_all_app_ids_loop_pages server pages fuel apps last_appid n :
  serves server pages last_appid n →
  (length pages < fuel)%nat →
  ends_listing (server (cursor pages last_appid) (n + length pages)%nat) →
  get_all_app_ids_loop server fuel apps last_appid n
  = Some (listed (apps ++ concat pages)
            (server (cursor pages last_appid) (n + length pages)%nat),
          S (n + length pages)).
Proof.
  revert fuel apps last_appid n.
  induction pages as [|batch pages IH]; intros fuel apps last_appid n Hserves Hfuel Hend.
  - destruct fuel as [|fuel]; [simpl in Hfuel; lia|]. simpl in *.
    rewrite Nat.add_0_r in *. rewrite app_nil_r.
    destruct (server last_appid n) as [status data| |msg|]; simpl in *; try done.
    case_bool_decide as H200.
    + subst status. simpl. destruct Hend as [?|[Hnil|Hmore]]; [done| |].
      * rewrite Hnil. by rewrite app_nil_r.
      * destruct (page_apps data) as [|a l]; [by rewrite app_nil_r|].
        by rewrite Hmore.
    + apply Z.eqb_neq in H200. by rewrite H200.
  - destruct fuel as [|fuel]; [simpl in Hfuel; lia|].
    destruct Hserves as (Hne & Hnet & Hrest). simpl in Hfuel.
    destruct batch as [|a l]; [done|].
    cbn [get_all_app_ids_loop]. rewrite Hnet.
    cbn [negb Z.eqb Pos.eqb page_apps have_more_results].
    cbn [cursor concat length] in *.
    replace (n + S (length pages))%nat with (S n + length pages)%nat in * by lia.
    rewrite (IH fuel (apps ++ a :: l) (List.last (a :: l) 0) (S n)); [|done|lia|done].
    by rewrite <- app_assoc.
Qed.

Lemma get_all_app_ids_loop_endless server fuel apps last_appid n :
  (∀ last k, ∃ batch, batch ≠ [] ∧ server last k = Response 200 (mkPage batch true)) →
  get_all_app_ids_loop server fuel apps last_appid n = None.
Proof.
  intros Hmore. revert apps last_appid n.
  induction fuel as [|fuel IH]; intros apps last_appid n; [done|]. simpl.
  destruct (Hmore last_appid n) as (batch & Hne & ->). simpl.
  destruct batch as [|a l]; [done|]. apply IH.
Qed.

(** X19: the listing of all apps collects the pages up to the first
    answer that ends it. When the server hands out pages that each announce
    more, with every request carrying the last app ID of the page before,
    and then gives an answer that ends the listing, [get_all_app_ids]
    returns all the pages handed out, followed by the apps of the last
    answer when its status is 200. An error status ends the listing without
    an exception: the apps collected so far are returned as if they were
    all. A request that raises passes its exception on. The function makes
    one request per page and nothing bounds their number: while every answer
    announces more, the loop goes on. *)
Theorem app_listing_collects_pages_until_the_first_end
    (server : Z → nat → http_event page) (pages : list (list Z)) (fuel : nat) :
  serves server pages 0 0 →
  (length pages < fuel)%nat →
  ends_listing (server (cursor pages 0) (length pages)) →
  get_all_app_ids server fuel
  = Some (listed (concat pages) (server (cursor pages 0) (length pages)), S (length pages)).
Proof.
  intros Hserves Hfuel Hend. unfold get_all_app_ids.
  by rewrite (get_all_app_ids_loop_pages server pages fuel [] 0 0).
Qed.

(** X20: nothing bounds the listing. While every answer is a 200 with
    apps and the announcement of more, [get_all_app_ids] does not return,
    however many passes of its loop are allowed. *)
Theorem app_listing_has_no_page_bound
    (server : Z → nat → http_event page) (fuel : nat) :
  (∀ last k, ∃ batch, batch ≠ [] ∧ server last k = Response 200 (mkPage batch true)) →
  get_all_app_ids server fuel = None.
Proof. intros Hmore. by apply get_all_app_ids_loop_endless. Qed.

End app_list.

(** ** [StorePageParser] *)

Section store_parser.
Import steam_store_scraper_v2.
Context {value : Type}.

(** The elements of the parsed array that [_parse_tags] keeps: the
    dictionaries that have a ["tagid"]. *)
Definition tag_entries (tags : list (element value)) : list (gmap string value) :=
  omap (λ el, match el with
              | Dict d => if bool_decide (is_Some (d !! "tagid")) then Some d else None
              | NotADict => None
              end) tags.

(** The three fields of an entry; [None] when one is missing. *)
Definition fields (d : gmap string value) : option (value * value * value) :=
  tagid ← d !! "tagid"; name ← d !! "name"; count ← d !! "count"; Some (tagid, name, count).

Lemma clean_up_mapM (tags : list (element value)) :
  clean_up tags = mapM fields (tag_entries tags).
Proof.
  induction tags as [|[d|] tags IH]; [done| |done].
  simpl. unfold tag_entries in *. simpl.
  destruct (d !! "tagid") as [tagid|] eqn:Hid.
  - rewrite bool_decide_eq_true_2 by (by eexists). simpl.
    replace (fields d)
      with (name ← d !! "name"; count ← d !! "count"; Some (tagid, name, count))
      by (unfold fields; by rewrite Hid).
    destruct (d !! "name") as [name|]; simpl; [|done].
    destruct (d !! "count") as [count|]; simpl; [|done].
    rewrite IH. by destruct (mapM fields _).
  - rewrite bool_decide_eq_false_2 by (by intros [? ?]). exact IH.
Qed.

(** X21: the tag list of a store page is all or nothing. Of the parsed
    array [_parse_tags] keeps the dictionaries that have a ["tagid"], in
    order, each reduced to its ID, name and count, and skips everything
    else; one kept entry without a name or a count makes the whole result
    [None], as do a page without the script call, a text that is not JSON
    and a JSON value that cannot be walked. [parse] returns [None] exactly
    when neither the tags nor the reviews hold an item. *)
Theorem store_page_tags_are_all_or_nothing
    (search : string → option string) (json_loads : string → option (parsed value))
    (html : string) :
  (∀ tags_json tags,
     search html = Some tags_json → json_loads tags_json = Some (Iterable tags) →
     _parse_tags search json_loads html = mapM fields (tag_entries tags)
     ∧ (∀ rows, _parse_tags search json_loads html = Some rows →
               length rows = length (tag_entries tags))
     ∧ (∀ d, d ∈ tag_entries tags → d !! "name" = None ∨ d !! "count" = None →
             _parse_tags search json_loads html = None))
  ∧ (search html = None → _parse_tags search json_loads html = None)
  ∧ (∀ tags_json, search html = Some tags_json →
       json_loads tags_json = None ∨ json_loads tags_json = Some NotIterable →
       _parse_tags search json_loads html = None)
  ∧ (∀ (R : Type) (reviews : option (list R)),
       parse search json_loads reviews html = None
       ↔ (_parse_tags search json_loads html = None
          ∨ _parse_tags search json_loads html = Some [])
         ∧ (reviews = None ∨ reviews = Some [])).
Proof.
  split; [|split; [|split]].
  - intros tags_json tags Hs Hj. unfold _parse_tags. rewrite Hs, Hj, clean_up_mapM.
    split; [done|]. split.
    + intros rows Hrows. by apply length_mapM in Hrows.
    + intros d Hd Hmiss. apply mapM_None, Exists_exists. exists d. split; [done|].
      unfold fields. destruct (d !! "tagid"); simpl; [|done].
      destruct Hmiss as [-> | ->]; [done|]. by destruct (d !! "name").
  - unfold _parse_tags. by intros ->.
  - unfold _parse_tags. by intros tags_json -> [-> | ->].
  - intros R reviews. unfold parse.
    destruct (_parse_tags search json_loads html) as [[|row rows]|];
      destruct reviews as [[|rv rvs]|]; simpl; naive_solver.
Qed.

End store_parser.

(** ** insert_app_details.py: more on the tables *)

Section app_details_more.
Import insert_app_details.

Variable strptime_strftime : string → string → option string.
Variable int_of_str : string → option Z.
Variable names_order : gset string → list string.
Variable pairs_order : gset (Z * Z) → list (Z * Z).

Abbreviation prepared_of :=
  (prepare_data strptime_strftime int_of_str names_order pairs_order).

Lemma item_step_skips st appid entry :
  is_game entry = false → item_step strptime_strftime int_of_str st (appid, entry) = st.
Proof. intros Hg. unfold item_step. destruct entry as [raw|]; [|done]. by rewrite Hg. Qed.

Lemma foldl_item_step_filter st data :
  foldl (item_step strptime_strftime int_of_str) st data
  = foldl (item_step strptime_strftime int_of_str) st
      (filter (λ item, is_game item.2 = true) data).
Proof.
  revert st. induction data as [|[appid entry] data IH]; intros st; [done|].
  rewrite filter_cons. cbn [snd]. destruct (decide (is_game entry = true)) as [Hg|Hg].
  - cbn [foldl]. apply IH.
  - apply not_true_is_false in Hg. cbn [foldl]. rewrite item_step_skips by done. apply IH.
Qed.

(** X22: entries that are not games leave no trace. An entry that is
    empty or whose type is not "game" changes none of the nine tables:
    [prepare_data] gives the same result on the batch and on the batch
    without these entries. *)
Theorem non_games_contribute_nothing (data : list (Z * option raw_app)) :
  prepared_of data = prepared_of (filter (λ item, is_game item.2 = true) data).
Proof. unfold prepare_data. by rewrite <- foldl_item_step_filter. Qed.

Lemma refs_of_appid {X} (proj : raw_app → list X) data r :
  r ∈ refs_of proj data → r.1 ∈ (games_in data).*1.
Proof.
  unfold refs_of. rewrite list_elem_of_bind.
  intros ([appid raw] & Hr & Hin). apply list_elem_of_fmap in Hr as (x & -> & _).
  apply list_elem_of_fmap. by exists (appid, raw).
Qed.

Lemma games_table_appids data : g_appid <$> games_table (prepared_of data) = (games_in data).*1.
Proof.
  rewrite prepare_games, <- list_fmap_compose. by apply list_fmap_ext.
Qed.

Hypothesis names_order_enumerates : ∀ s, names_order s ≡ₚ elements s.
Hypothesis pairs_order_enumerates : ∀ s, pairs_order s ≡ₚ elements s.

Lemma junction_rows_have_their_rows data :
  let out := prepared_of data in
  let appids := g_appid <$> games_table out in
  (∀ row, row ∈ game_genres_table out →
          row.1 ∈ appids ∧ row.2 ∈ (genres_table out).*1)
  ∧ (∀ row, row ∈ game_categories_table out →
            row.1 ∈ appids ∧ row.2 ∈ (categories_table out).*1)
  ∧ (∀ row, row ∈ game_developers_table out →
            row.1 ∈ appids ∧ row.2 ∈ developers_table out)
  ∧ (∀ row, row ∈ game_publishers_table out →
            row.1 ∈ appids ∧ row.2 ∈ publishers_table out).
Proof.
  cbn zeta. rewrite games_table_appids.
  destruct (prepare_genres strptime_strftime int_of_str names_order pairs_order data)
    as [Hg1 Hg2].
  destruct (prepare_developers strptime_strftime int_of_str names_order pairs_order data)
    as [_ Hd].
  destruct (prepare_publishers strptime_strftime int_of_str names_order pairs_order data)
    as [_ Hp].
  destruct (names_tables_unique strptime_strftime int_of_str names_order pairs_order
              names_order_enumerates data) as (_ & Hdn & _ & Hpn).
  destruct (game_categories_canonical strptime_strftime int_of_str names_order pairs_order
              pairs_order_enumerates data) as [_ Hgc].
  split; [|split; [|split]].
  - intros row. rewrite Hg2, Hg1, genre_keys.
    intros (r & -> & Hr)%list_elem_of_fmap. simpl. split; [by eapply refs_of_appid|].
    apply elem_of_first_occurrences, list_elem_of_fmap. by exists r.
  - intros row (r & Hr & Hrow1 & Hrow2)%Hgc. split.
    + rewrite Hrow1. by eapply refs_of_appid.
    + rewrite categories_order. apply elem_of_first_occurrences.
      apply list_elem_of_fmap. exists (r.1, row.2). split; [done|].
      unfold canonical_rows. apply list_elem_of_omap. exists r. split; [done|].
      by rewrite Hrow2.
  - intros row. rewrite Hd. intros Hr. split; [by eapply refs_of_appid|].
    apply Hdn, list_elem_of_fmap. by exists row.
  - intros row. rewrite Hp. intros Hr. split; [by eapply refs_of_appid|].
    apply Hpn, list_elem_of_fmap. by exists row.
Qed.

End app_details_more.

(** X23: the junction tables only point at rows that are there.
    Whatever order Python gives the sets, every row of [game_genres],
    [game_categories], [game_developers] and [game_publishers] carries the
    app ID of a row of [games], and the genre ID, category ID, developer
    name or publisher name of a row of the matching lookup table: the lookups
    of [insert_batch] by name find their key, and the foreign keys of the
    junction tables have their target in the same batch. *)
Theorem junction_rows_reference_rows_of_the_batch
    (strptime_strftime : string → string → option string) (int_of_str : string → option Z)
    (names_order : gset string → list string) (pairs_order : gset (Z * Z) → list (Z * Z))
    (data : list (Z * option insert_app_details.raw_app)) :
  (∀ s, names_order s ≡ₚ elements s) →
  (∀ s, pairs_order s ≡ₚ elements s) →
  let out :=
    insert_app_details.prepare_data strptime_strftime int_of_str names_order pairs_order data in
  let appids := insert_app_details.g_appid <$> insert_app_details.games_table out in
  (∀ row, row ∈ insert_app_details.game_genres_table out →
          row.1 ∈ appids ∧ row.2 ∈ (insert_app_details.genres_table out).*1)
  ∧ (∀ row, row ∈ insert_app_details.game_categories_table out →
            row.1 ∈ appids ∧ row.2 ∈ (insert_app_details.categories_table out).*1)
  ∧ (∀ row, row ∈ insert_app_details.game_developers_table out →
            row.1 ∈ appids ∧ row.2 ∈ insert_app_details.developers_table out)
  ∧ (∀ row, row ∈ insert_app_details.game_publishers_table out →
            row.1 ∈ appids ∧ row.2 ∈ insert_app_details.publishers_table out).
Proof. intros Hn Hp. by apply junction_rows_have_their_rows. Qed.

(** ** [parse_required_age] *)

(** The digits of [s] written as full-width digits, in UTF-8: U+FF10 to
    U+FF19 are the bytes [EF BC 90] to [EF BC 99]. *)
Fixpoint to_fullwidth (s : string) : string :=
  match s with
  | EmptyString => EmptyString
  | String a s' =>
      let n := Ascii.nat_of_ascii a in
      if (48 <=? n)%nat && (n <=? 57)%nat
      then String (Ascii.ascii_of_nat 239)
             (String (Ascii.ascii_of_nat 188)
                (String (Ascii.ascii_of_nat (144 + (n - 48))) (to_fullwidth s')))
      else String a (to_fullwidth s')
  end.

(** Every character of [s] is an ASCII character. *)
Fixpoint is_ascii (s : string) : bool :=
  match s with
  | EmptyString => true
  | String a s' => (Ascii.nat_of_ascii a <? 128)%nat && is_ascii s'
  end.

Section required_age.
Import insert_app_details.

Lemma translate_fullwidth_other a s :
  Ascii.nat_of_ascii a ≠ 239%nat →
  translate_fullwidth (String a s) = String a (translate_fullwidth s).
Proof.
  intros Hne%Nat.eqb_neq. destruct s as [|b [|c rest]]; try done.
  cbn [translate_fullwidth]. by rewrite Hne.
Qed.

Lemma translate_fullwidth_ascii s : is_ascii s = true → translate_fullwidth s = s.
Proof.
  induction s as [|a s IH]; [done|]. cbn [is_ascii].
  intros [Ha Hs]%andb_true_iff. apply Nat.ltb_lt in Ha.
  rewrite translate_fullwidth_other by lia. by rewrite IH.
Qed.

Lemma translate_to_fullwidth s :
  is_ascii s = true → translate_fullwidth (to_fullwidth s) = s.
Proof.
  induction s as [|a s IH]; [done|]. cbn [is_ascii to_fullwidth].
  intros [Ha Hs]%andb_true_iff. apply Nat.ltb_lt in Ha. cbv zeta.
  destruct ((48 <=? Ascii.nat_of_ascii a)%nat && (Ascii.nat_of_ascii a <=? 57)%nat)
    eqn:Hdigit.
  - apply andb_true_iff in Hdigit as [Hlo%Nat.leb_le Hhi%Nat.leb_le].
    cbn [translate_fullwidth].
    rewrite !Ascii.nat_ascii_embedding by lia.
    replace (239 =? 239)%nat with true by done.
    replace (188 =? 188)%nat with true by done.
    rewrite (proj2 (Nat.leb_le 144 _)) by lia.
    rewrite (proj2 (Nat.leb_le _ 153)) by lia.
    cbn [andb].
    replace (48 + (144 + (Ascii.nat_of_ascii a - 48) - 144))%nat
      with (Ascii.nat_of_ascii a) by lia.
    by rewrite Ascii.ascii_nat_embedding, IH.
  - rewrite translate_fullwidth_other by lia. by rewrite IH.
Qed.

(** X24: [parse_required_age] reads full-width digits. An age written
    with the full-width digits of Japanese text gives the same number as
    the same age in ASCII digits, whatever else the ASCII text holds and
    whatever [int] makes of it; an ASCII text is passed to [int] as it
    is. *)
Theorem required_age_reads_fullwidth_digits
    (int_of_str : string → option Z) (s : string) :
  is_ascii s = true →
  parse_required_age int_of_str (AgeStr (to_fullwidth s))
  = parse_required_age int_of_str (AgeStr s)
  ∧ parse_required_age int_of_str (AgeStr s) = default 0 (int_of_str s).
Proof.
  intros Hs. unfold parse_required_age.
  rewrite translate_to_fullwidth, translate_fullwidth_ascii by done.
  by destruct (int_of_str s).
Qed.

End required_age.

(** ** insert_tags.py: more on the tables *)

Section tags_more.
Import insert_tags.

(** X25: the tag tables satisfy their keys. [tags] has one row per tag
    ID, [game_tags] has one row per pair of app ID and tag ID, and the tag
    ID of every [game_tags] row is the ID of a row of [tags]: the rows can
    be inserted under the primary keys and the foreign key of the two
    tables. *)
Theorem tag_tables_satisfy_their_keys (records : list record) :
  let out := prepare_data records in
  NoDup (tags_table out).*1
  ∧ NoDup (key_of <$> game_tags_table out)
  ∧ (∀ gt, gt ∈ game_tags_table out → gt.1.1.2 ∈ (tags_table out).*1)
  ∧ (∀ t, t ∈ (tags_table out).*1 → ∃ gt, gt ∈ game_tags_table out ∧ gt.1.1.2 = t).
Proof.
  cbn zeta. destruct (tags_order records) as (Hkeys & Hrows & _).
  split; [|split; [|split]].
  - destruct (prepare_tags_tables records) as (-> & _ & _).
    by destruct (tag_inv_fold (tag_refs records) ∅) as [Hk _ _ _].
  - rewrite Hrows. apply NoDup_firsts_by.
  - intros gt Hgt. rewrite Hkeys. apply elem_of_first_occurrences.
    apply list_elem_of_fmap. by exists gt.
  - intros t. rewrite Hkeys.
    intros (gt & -> & Hgt)%elem_of_first_occurrences%list_elem_of_fmap. by exists gt.
Qed.

Lemma record_step_counts records st :
  let st' := foldl record_step st records in
  l_apps_processed st'
  = l_apps_processed st + Z.of_nat (length (filter (λ r, tag_list r ≠ []) records))
  ∧ l_apps_skipped_no_tags st'
    = l_apps_skipped_no_tags st + Z.of_nat (length (filter (λ r, tag_list r = []) records)).
Proof.
  revert st. induction records as [|r records IH]; intros st; simpl; [lia|].
  destruct (IH (record_step st r)) as [IH1 IH2]. cbn zeta in *.
  rewrite IH1, IH2, !filter_cons. unfold record_step.
  destruct (tag_list r) as [|t l] eqn:Hl.
  - rewrite decide_False by (by intros ?). rewrite decide_True by done. simpl. lia.
  - rewrite decide_True by done. rewrite decide_False by done.
    destruct (foldl _ _ (t :: l)) as [[? ?] ?]. simpl. lia.
Qed.

(** X26: the statistics of [prepare_data] count the records. The apps
    processed are the records with a tag, the apps skipped are the records
    without one, together they are all the records, and the two row counts
    are the lengths of the two tables. *)
Theorem tag_stats_count_the_records (records : list record) :
  let st := stats_of (prepare_data records) in
  apps_processed st = Z.of_nat (length (filter (λ r, tag_list r ≠ []) records))
  ∧ apps_skipped_no_tags st = Z.of_nat (length (filter (λ r, tag_list r = []) records))
  ∧ apps_processed st + apps_skipped_no_tags st = Z.of_nat (length records)
  ∧ unique_tags st = Z.of_nat (length (tags_table (prepare_data records)))
  ∧ total_game_tag_rows st = Z.of_nat (length (game_tags_table (prepare_data records))).
Proof.
  cbn zeta. destruct (record_step_counts records init) as [H1 H2].
  cbn zeta in H1, H2. simpl in *. rewrite H1, H2.
  split; [lia|]. split; [lia|]. split; [|done].
  assert (∀ l : list record,
            (length (filter (λ r, tag_list r ≠ []) l)
             + length (filter (λ r, tag_list r = []) l) = length l)%nat) as Hsplit.
  { induction l as [|r l IH]; [done|]. rewrite !filter_cons.
    destruct (decide (tag_list r ≠ [])), (decide (tag_list r = [])); simpl; try done; lia. }
  specialize (Hsplit records). lia.
Qed.

Lemma filter_ext_elem {A} (P Q : A → Prop) `{!∀ x, Decision (P x), !∀ x, Decision (Q x)}
    (l : list A) :
  (∀ x, x ∈ l → P x ↔ Q x) → filter P l = filter Q l.
Proof.
  induction l as [|a l IH]; intros Hext; [done|].
  rewrite !filter_cons.
  assert (filter P l = filter Q l) as -> by (apply IH; intros x Hx; apply Hext; by right).
  destruct (decide (P a)) as [Hp|Hp], (decide (Q a)) as [Hq|Hq]; try done;
    exfalso; apply (Hext a) in Hp || apply (Hext a) in Hq; try done; left.
Qed.

(** X27: [insert_batch] sends no row for an app that [games] does not
    have. A dry run hands nothing to the database. Otherwise every tag row
    is handed over, the [game_tags] rows handed over are those whose app ID
    is in [games], in their order, and the app IDs reported as missing are
    those of the rows left out. The same holds of the review rows of
    insert_reviews.py. *)
Theorem insert_batch_sends_rows_of_known_apps
    (existing : gset Z) (prepared : prepared) (reviews : insert_reviews.prepared) :
  insert_batch existing prepared true = None
  ∧ insert_reviews.insert_batch existing reviews true = None
  ∧ (∃ b, insert_batch existing prepared false = Some b
        ∧ tags_rows b = tags_table prepared
        ∧ game_tags_rows b = filter (λ gt, gt.1.1.1 ∈ existing) (game_tags_table prepared)
        ∧ ∀ a, a ∈ missing_appids b ↔
               (a ∉ existing) ∧ ∃ gt, gt ∈ game_tags_table prepared ∧ gt.1.1.1 = a)
  ∧ (∃ rows missing,
        insert_reviews.insert_batch existing reviews false = Some (rows, missing)
        ∧ rows = filter (λ gr, insert_reviews.r_appid gr ∈ existing)
                   (insert_reviews.game_reviews_table reviews)
        ∧ ∀ a, a ∈ missing ↔
               (a ∉ existing)
               ∧ ∃ gr, gr ∈ insert_reviews.game_reviews_table reviews
                       ∧ insert_reviews.r_appid gr = a).
Proof.
  split; [done|]. split; [done|]. split.
  - eexists. split; [reflexivity|]. simpl. split; [done|]. split.
    + apply filter_ext_elem. intros gt Hgt. unfold check_foreign_keys.
      rewrite elem_of_intersection, elem_of_list_to_set, list_elem_of_fmap. naive_solver.
    + intros a. unfold check_foreign_keys.
      rewrite elem_of_difference, elem_of_intersection, elem_of_list_to_set,
        list_elem_of_fmap. naive_solver.
  - eexists _, _. split; [reflexivity|]. split.
    + apply filter_ext_elem. intros gr Hgr. unfold insert_reviews.check_foreign_keys.
      rewrite elem_of_intersection, elem_of_list_to_set, list_elem_of_fmap. naive_solver.
    + intros a. unfold insert_reviews.check_foreign_keys.
      rewrite elem_of_difference, elem_of_intersection, elem_of_list_to_set,
        list_elem_of_fmap. naive_solver.
Qed.

End tags_more.

(** ** insert_reviews.py *)

Section reviews.
Import insert_reviews.

(** The rows that one record sends to [game_reviews]: one for each review
    with a count other than zero. *)
Definition rows_of (r : record) : list game_review :=
  (λ rv, mkRow (appid r) (language rv) (count rv) (score rv) (score_numeric rv)
               (snapshot_date_of (scraped_at r)))
    <$> filter (λ rv, count rv ≠ 0) (reviews_by_language r).

(** The rows appended to [game_reviews], before the de-duplication. *)
Definition emitted_reviews (records : list record) : list game_review :=
  records ≫= rows_of.

Definition review_key (gr : game_review) : Z * option string * option string :=
  (r_appid gr, r_language gr, r_snapshot_date gr).

(** A [Counter] after [keys] were counted one by one. *)
Definition count_all {K} `{EqDecision K} (keys : list K) (c : list (K * Z)) : list (K * Z) :=
  foldl (λ c k, incr k c) c keys.

(** How often [k] is in [keys]. *)
Definition occurrences {K} `{EqDecision K} (k : K) (keys : list K) : Z :=
  Z.of_nat (length (filter (λ x, x = k) keys)).

Lemma review_step_fold a sd rvs g ls ss :
  foldl (review_step a sd) (g, ls, ss) rvs
  = (g ++ ((λ rv, mkRow a (language rv) (count rv) (score rv) (score_numeric rv) sd)
             <$> filter (λ rv, count rv ≠ 0) rvs),
     count_all (language <$> filter (λ rv, count rv ≠ 0) rvs) ls,
     count_all (score <$> filter (λ rv, count rv ≠ 0) rvs) ss).
Proof.
  revert g ls ss. induction rvs as [|rv rvs IH]; intros g ls ss.
  - simpl. by rewrite app_nil_r.
  - cbn [foldl]. rewrite filter_cons. unfold review_step at 2.
    destruct (count rv =? 0) eqn:Hz.
    + apply Z.eqb_eq in Hz. rewrite decide_False by (by intros ?). apply IH.
    + apply Z.eqb_neq in Hz. rewrite decide_True by done. rewrite IH.
      cbn [fmap list_fmap]. unfold count_all. cbn [foldl]. by rewrite <- app_assoc.
Qed.

Lemma record_step_fold records st :
  let st' := foldl record_step st records in
  l_game_reviews st' = l_game_reviews st ++ emitted_reviews records
  ∧ l_languages_seen st'
    = count_all (r_language <$> emitted_reviews records) (l_languages_seen st)
  ∧ l_scores_seen st' = count_all (r_score <$> emitted_reviews records) (l_scores_seen st)
  ∧ l_apps_processed st'
    = l_apps_processed st
      + Z.of_nat (length (filter (λ r, reviews_by_language r ≠ []) records))
  ∧ l_apps_skipped_no_reviews st'
    = l_apps_skipped_no_reviews st
      + Z.of_nat (length (filter (λ r, reviews_by_language r = []) records)).
Proof.
  revert st. induction records as [|r records IH]; intros st.
  - simpl. rewrite app_nil_r. repeat split; lia.
  - cbn zeta. cbn [foldl].
    destruct (IH (record_step st r)) as (I1 & I2 & I3 & I4 & I5). cbn zeta in *.
    rewrite I1, I2, I3, I4, I5, !filter_cons.
    unfold emitted_reviews. cbn [mbind list_bind]. fold (emitted_reviews records).
    rewrite !fmap_app. unfold count_all. rewrite !foldl_app.
    fold (count_all (r_language <$> rows_of r) (l_languages_seen st)).
    fold (count_all (r_score <$> rows_of r) (l_scores_seen st)).
    assert (l_game_reviews (record_step st r) = l_game_reviews st ++ rows_of r
            ∧ l_languages_seen (record_step st r)
              = count_all (r_language <$> rows_of r) (l_languages_seen st)
            ∧ l_scores_seen (record_step st r)
              = count_all (r_score <$> rows_of r) (l_scores_seen st)) as (R1 & R2 & R3).
    { unfold record_step, rows_of.
      destruct (reviews_by_language r) as [|rv rvs] eqn:Hr.
      - simpl. by rewrite app_nil_r.
      - rewrite review_step_fold. simpl. rewrite <- !list_fmap_compose. done. }
    rewrite R1, R2, R3, <- app_assoc.
    split; [done|]. split; [done|]. split; [done|].
    unfold record_step. destruct (reviews_by_language r) as [|rv rvs] eqn:Hr.
    + rewrite decide_False by (by intros ?). rewrite decide_True by done. simpl. lia.
    + rewrite decide_True by done. rewrite decide_False by done.
      destruct (foldl _ _ (rv :: rvs)) as [[? ?] ?]. simpl. lia.
Qed.

Lemma review_dedupe_fold (l : list game_review) :
  foldl dedupe_step (∅, []) l = (list_to_set (review_key <$> l), firsts_by review_key l).
Proof.
  induction l as [|gr l IH] using rev_ind; [done|].
  rewrite foldl_app, IH. simpl. unfold dedupe_step. fold (review_key gr).
  rewrite firsts_by_snoc, fmap_app, list_to_set_app_L. simpl.
  generalize (list_to_set (review_key <$> l) : gset (Z * option string * option string))
    (elem_of_list_to_set (C:=gset (Z * option string * option string))
       (review_key gr) (review_key <$> l)).
  intros seen Hiff.
  case_bool_decide as Hseen.
  - rewrite decide_True by (by apply Hiff).
    f_equal. apply set_eq. intros x.
    rewrite !elem_of_union, elem_of_singleton, elem_of_empty. naive_solver.
  - rewrite decide_False by (by rewrite <- Hiff).
    f_equal. apply set_eq. intros x.
    rewrite !elem_of_union, elem_of_singleton, elem_of_empty. naive_solver.
Qed.

Lemma prepare_reviews_table records :
  game_reviews_table (prepare_data records) = firsts_by review_key (emitted_reviews records).
Proof.
  unfold prepare_data. simpl. rewrite review_dedupe_fold. simpl.
  by destruct (record_step_fold records init) as (-> & _).
Qed.

Lemma str_take_app d rest : str_take (String.length d) (d +:+ rest) = d.
Proof. induction d as [|a d IH]; simpl; [by destruct rest|]. by rewrite IH. Qed.

(** X28: the review rows are the first of their key. [prepare_data]
    makes one row for each review with a count other than zero, dated with
    the first ten characters of the timestamp of its record (no date when
    the record has no timestamp), and keeps of the rows with the same app
    ID, language and date the first one, in input order: the table has one
    row per key and no row with a count of zero. *)
Theorem review_rows_are_the_first_of_their_key (records : list record) :
  let table := game_reviews_table (prepare_data records) in
  table = firsts_by review_key (emitted_reviews records)
  ∧ NoDup (review_key <$> table)
  ∧ table `sublist_of` emitted_reviews records
  ∧ Forall (λ gr, r_review_count gr ≠ 0) table
  ∧ (∀ gr, gr ∈ table →
       ∃ r rv, r ∈ records ∧ rv ∈ reviews_by_language r
         ∧ gr = mkRow (appid r) (language rv) (count rv) (score rv) (score_numeric rv)
                      (snapshot_date_of (scraped_at r)))
  ∧ snapshot_date_of "" = None
  ∧ (∀ date rest, String.length date = 10%nat →
                  snapshot_date_of (date +:+ rest) = Some date).
Proof.
  cbn zeta. rewrite prepare_reviews_table.
  assert (∀ gr, gr ∈ emitted_reviews records →
            r_review_count gr ≠ 0
            ∧ ∃ r rv, r ∈ records ∧ rv ∈ reviews_by_language r
                ∧ gr = mkRow (appid r) (language rv) (count rv) (score rv) (score_numeric rv)
                             (snapshot_date_of (scraped_at r))) as Hem.
  { intros gr. unfold emitted_reviews. rewrite list_elem_of_bind.
    intros (r & Hgr & Hr). unfold rows_of in Hgr.
    apply list_elem_of_fmap in Hgr as (rv & -> & [Hnz Hrv]%list_elem_of_filter).
    split; [done|]. by exists r, rv. }
  split; [done|]. split; [apply NoDup_firsts_by|].
  split; [apply firsts_by_sublist|]. split; [|split; [|split]].
  - apply Forall_forall. intros gr Hgr%elem_of_firsts_by. by apply Hem.
  - intros gr Hgr%elem_of_firsts_by. by apply Hem.
  - done.
  - intros date rest Hlen. unfold snapshot_date_of.
    rewrite bool_decide_eq_false_2.
    + by rewrite <- Hlen, str_take_app.
    + destruct date; [done|]. done.
Qed.

(** *** The counters *)

Lemma occurrences_snoc {K} `{EqDecision K} (k k' : K) keys :
  occurrences k (keys ++ [k']) = occurrences k keys + (if decide (k' = k) then 1 else 0).
Proof.
  unfold occurrences. rewrite filter_app, length_app, filter_cons, filter_nil.
  destruct (decide (k' = k)); simpl; lia.
Qed.

Lemma count_all_spec {K} `{EqDecision K} (keys : list K) :
  let c := count_all keys [] in
  NoDup c.*1
  ∧ c.*1 = first_occurrences keys
  ∧ ∀ k, default 0 (odict.get k c) = occurrences k keys.
Proof.
  induction keys as [|k' keys IH] using rev_ind; [by split; [constructor|]|].
  cbn zeta in *. unfold count_all in *. rewrite foldl_app. cbn [foldl].
  destruct IH as (Hnd & Hkeys & Hget). unfold incr at 1 3 5.
  split; [by apply odict_set_NoDup|]. split.
  - rewrite odict_set_keys, first_occurrences_snoc, Hkeys.
    destruct (decide (k' ∈ keys)) as [Hin|Hnin].
    + rewrite decide_True; [done|]. by apply elem_of_first_occurrences.
    + rewrite decide_False; [done|]. by rewrite elem_of_first_occurrences.
  - intros k. rewrite occurrences_snoc. destruct (decide (k' = k)) as [->|Hne].
    + rewrite odict_get_set_eq. simpl. by rewrite Hget.
    + rewrite odict_get_set_ne by done. rewrite Hget. lia.
Qed.

Lemma count_all_elem {K} `{EqDecision K} (keys : list K) k n :
  (k, n) ∈ count_all keys [] → k ∈ keys ∧ n = occurrences k keys.
Proof.
  destruct (count_all_spec keys) as (Hnd & Hkeys & Hget). cbv zeta in *.
  intros Hin. split.
  - apply elem_of_first_occurrences. rewrite <- Hkeys.
    apply list_elem_of_fmap. by exists (k, n).
  - rewrite <- Hget. by rewrite (odict_elem_of_get _ _ _ Hnd Hin).
Qed.

(** *** [most_common] *)

Definition at_least {K} (x y : K * Z) : Prop := y.2 ≤ x.2.

Lemma insert_desc_Permutation {K} (x : K * Z) l : insert_desc x l ≡ₚ x :: l.
Proof.
  induction l as [|y l IH]; [done|]. simpl. destruct (y.2 <? x.2); [done|].
  rewrite IH. apply Permutation_swap.
Qed.

Lemma insert_desc_sorted {K} (x : K * Z) l :
  StronglySorted at_least l → StronglySorted at_least (insert_desc x l).
Proof.
  induction 1 as [|y l Hs IH Hall]; simpl; [by repeat constructor|].
  destruct (y.2 <? x.2) eqn:Hlt.
  - apply Z.ltb_lt in Hlt. constructor; [by constructor|].
    constructor; [unfold at_least; lia|].
    eapply Forall_impl; [exact Hall|]. unfold at_least. intros z ?. lia.
  - apply Z.ltb_ge in Hlt. constructor; [done|].
    rewrite insert_desc_Permutation. by constructor.
Qed.

Lemma sorted_desc_spec {K} (c : list (K * Z)) :
  sorted_desc c ≡ₚ c ∧ StronglySorted at_least (sorted_desc c).
Proof.
  unfold sorted_desc. induction c as [|x c IH] using rev_ind; [by split; [|constructor]|].
  rewrite foldl_app. simpl. destruct IH as [Hp Hs]. split.
  - rewrite insert_desc_Permutation, Hp. by rewrite Permutation_app_comm.
  - by apply insert_desc_sorted.
Qed.

(** Items with the same count stay in insertion order: taking the items
    with a given count out of the sorted list gives them as they came. *)
Lemma insert_desc_stable {K} (x : K * Z) l n :
  StronglySorted at_least l →
  filter (λ y, y.2 = n) (insert_desc x l) = filter (λ y, y.2 = n) (l ++ [x]).
Proof.
  induction 1 as [|y l Hs IH Hall]; [done|]. simpl.
  destruct (y.2 <? x.2) eqn:Hlt.
  - apply Z.ltb_lt in Hlt. rewrite !filter_cons, filter_app, filter_cons, filter_nil.
    destruct (decide (x.2 = n)) as [Hx|Hx].
    + rewrite (filter_none (λ y, y.2 = n) l); [repeat case_decide; (lia || done)|].
      intros z Hz. rewrite Forall_forall in Hall. specialize (Hall z Hz).
      unfold at_least in Hall. lia.
    + by rewrite app_nil_r.
  - by rewrite !filter_cons, IH.
Qed.

Lemma sorted_desc_stable {K} (c : list (K * Z)) n :
  filter (λ y, y.2 = n) (sorted_desc c) = filter (λ y, y.2 = n) c.
Proof.
  unfold sorted_desc. induction c as [|x c IH] using rev_ind; [done|].
  rewrite foldl_app. simpl. rewrite insert_desc_stable.
  - by rewrite !filter_app, IH.
  - apply (sorted_desc_spec c).
Qed.

(** X29: the statistics of the review batch. The apps processed and the
    apps skipped are the records with and without reviews; the row count is
    the length of the table; the languages are counted over all the rows
    made, before the de-duplication; [top_languages] holds at most fifteen
    of them with their counts, the largest counts first;
    [score_distribution] lists every score seen, with its count, the
    largest counts first and scores with the same count in the order in
    which they were first seen. *)
Theorem review_stats_count_rows_before_deduplication (records : list record) :
  let st := stats_of (prepare_data records) in
  let languages := r_language <$> emitted_reviews records in
  let scores := r_score <$> emitted_reviews records in
  apps_processed st
  = Z.of_nat (length (filter (λ r, reviews_by_language r ≠ []) records))
  ∧ apps_skipped_no_reviews st
    = Z.of_nat (length (filter (λ r, reviews_by_language r = []) records))
  ∧ total_review_rows st = Z.of_nat (length (game_reviews_table (prepare_data records)))
  ∧ unique_languages st = Z.of_nat (length (first_occurrences languages))
  ∧ (length (top_languages st) ≤ 15)%nat
  ∧ StronglySorted at_least (top_languages st)
  ∧ (∀ k n, (k, n) ∈ top_languages st → k ∈ languages ∧ n = occurrences k languages)
  ∧ StronglySorted at_least (score_distribution st)
  ∧ (∀ k n, (k, n) ∈ score_distribution st ↔ k ∈ scores ∧ n = occurrences k scores)
  ∧ (∀ n, (filter (λ y, y.2 = n) (score_distribution st)).*1
          = filter (λ k, occurrences k scores = n) (first_occurrences scores)).
Proof.
  cbn zeta. destruct (record_step_fold records init) as (_ & Hl & Hs & Hp & Hk).
  cbv zeta in *. unfold prepare_data. simpl in *. rewrite Hl, Hs, Hp, Hk.
  set (languages := r_language <$> emitted_reviews records).
  set (scores := r_score <$> emitted_reviews records).
  destruct (count_all_spec languages) as (Lnd & Lkeys & Lget).
  destruct (count_all_spec scores) as (Snd & Skeys & Sget). cbv zeta in *.
  destruct (sorted_desc_spec (count_all languages [])) as [Lperm Lsorted].
  destruct (sorted_desc_spec (count_all scores [])) as [Sperm Ssorted].
  split; [lia|]. split; [lia|]. split; [done|].
  split; [by rewrite <- Lkeys, length_fmap|].
  split; [rewrite length_take; lia|]. split; [|split; [|split; [|split]]].
  - rewrite <- (take_drop 15 (sorted_desc (count_all languages []))) in Lsorted.
    by apply StronglySorted_app_1_l in Lsorted.
  - intros k n Hin. apply count_all_elem. rewrite <- Lperm.
    eapply sublist_subseteq; [apply sublist_take|exact Hin].
  - done.
  - intros k n. rewrite Sperm. split; [apply count_all_elem|].
    intros [Hin ->]. rewrite <- Sget.
    assert (k ∈ (count_all scores []).*1) as ([k' n] & Heq & Hc)%list_elem_of_fmap.
    { rewrite Skeys. by apply elem_of_first_occurrences. }
    simpl in Heq. subst k'. by rewrite (odict_elem_of_get _ _ _ Snd Hc).
  - intros n. rewrite sorted_desc_stable, <- Skeys.
    assert (∀ c : list (option string * Z),
              (∀ x, x ∈ c → x.2 = occurrences x.1 scores) →
              (filter (λ y, y.2 = n) c).*1
              = filter (λ k, occurrences k scores = n) c.*1) as Hfilter.
    { induction c as [|x c IH]; intros Hc; [done|].
      assert ((filter (λ y, y.2 = n) c).*1
              = filter (λ k, occurrences k scores = n) c.*1) as IHc.
      { apply IH. intros y Hy. apply Hc. by right. }
      rewrite fmap_cons, !filter_cons. rewrite <- (Hc x) by left.
      destruct (decide (x.2 = n)); [rewrite fmap_cons|]; by rewrite IHc. }
    apply Hfilter. intros [k m] Hin. by apply count_all_elem in Hin as [_ ->].
Qed.

End reviews.

(** ** steamspy_scraper.py: the periodic checkpoint *)

Section periodic_checkpoint.
Context `{Pickle}.
Import steamspy_scraper.

Lemma loop_states_saved config e pending i self k :
  checkpoint_interval config ≠ 0 →
  (i + Z.of_nat k) `mod` checkpoint_interval config = 0 →
  match loop_states config e pending i self !! k with
  | Some s =>
      checkpoint.load (checkpoint_mgr config) CHECKPOINT_NAME (Some TSteamSpyCheckpoint)
        (disk s)
      = inr (Some (PySpy (checkpoint s)))
  | None => True
  end.
Proof.
  intros Hint. revert i self k.
  induction pending as [|appid pending IH]; intros i self k Hmod; [done|].
  simpl. unfold loop_body.
  destruct (fetch_and_record config e appid self) as [self1|]; [|done].
  rewrite (proj2 (Z.eqb_neq _ _) Hint).
  destruct (i `mod` checkpoint_interval config =? 0) eqn:Hi.
  - destruct k as [|k]; simpl; [apply save_checkpoint_disk|].
    apply IH. by replace (i + 1 + Z.of_nat k) with (i + Z.of_nat (S k)) by lia.
  - destruct k as [|k]; simpl.
    + apply Z.eqb_neq in Hi. rewrite Z.add_0_r in Hmod. done.
    + apply IH. by replace (i + 1 + Z.of_nat k) with (i + Z.of_nat (S k)) by lia.
Qed.

(** X30: the periodic checkpoint holds the state of the moment. With a
    checkpoint interval other than zero, after every pass of the run loop
    whose number is a multiple of the interval the checkpoint store holds
    the harvest state as it is then: a process that dies later has lost
    fewer passes than the interval. *)
Theorem periodic_checkpoint_holds_the_state_of_the_moment
    (config : ScraperConfig) (e : env spy_body) (self : SteamSpyScraper) (k : nat) :
  checkpoint_interval config ≠ 0 →
  (Z.of_nat k + 1) `mod` checkpoint_interval config = 0 →
  match run_states config e self !! k with
  | Some s =>
      checkpoint.load (checkpoint_mgr config) CHECKPOINT_NAME (Some TSteamSpyCheckpoint)
        (disk s)
      = inr (Some (PySpy (checkpoint s)))
  | None => True
  end.
Proof.
  intros Hint Hmod. rewrite Z.add_comm in Hmod. unfold run_states. cbn zeta.
  destruct (app_ids_to_scrape (checkpoint (do_mark_started e self))).
  - destruct (load_app_ids_from_steam_checkpoint config (do_mark_started e self))
      as [[]|[self'|]]; [done| |done].
    by apply loop_states_saved.
  - by apply loop_states_saved.
Qed.

End periodic_checkpoint.

(** ** Examples *)

Module examples_more.
#[local] Existing Instance unary_pickle.unary.

#[local] Instance partitions_disjoint_dec c : Decision (partitions_disjoint c).
Proof. unfold partitions_disjoint. apply _. Defined.
#[local] Instance api_disjoint_dec c : Decision (api_disjoint c).
Proof. unfold api_disjoint. apply _. Defined.

Definition half_done : SteamSpyCheckpoint :=
  mkSpy (mkBase None None) [1; 2; 3] {[1]} {[2]} ∅.

Lemma remaining_counts_the_pending_ids_witness :
  NoDup (app_ids_to_scrape half_done)
  ∧ partitions_disjoint half_done
  ∧ done_ids half_done ⊆ universe half_done
  ∧ steamspy_scraper.processed half_done = Z.of_nat (size (done_ids half_done))
  ∧ steamspy_scraper.remaining half_done
    = Z.of_nat (length (steamspy_scraper.get_pending half_done))
  ∧ steamspy_scraper.total half_done
    = steamspy_scraper.processed half_done
      + Z.of_nat (length (steamspy_scraper.get_pending half_done)).
Proof.
  assert (NoDup (app_ids_to_scrape half_done)) as H1 by by_computation.
  assert (partitions_disjoint half_done) as H2 by by_computation.
  assert (done_ids half_done ⊆ universe half_done) as H3 by by_computation.
  split; [exact H1|]. split; [exact H2|]. split; [exact H3|].
  exact (remaining_counts_the_pending_ids half_done H1 H2 H3).
Defined.

Lemma new_scraper_resumes_witness :
  steamspy_scraper.get_pending
    (steamspy_scraper.checkpoint (examples_steamspy.fresh [1; 2])) ≠ []
  ∧ let r := steamspy_scraper.run examples_steamspy.config examples_steamspy.flaky
               (examples_steamspy.fresh [1; 2]) in
    steamspy_scraper.__init__ examples_steamspy.config (Some [9])
      (steamspy_scraper.disk r.1) []
    = inr (steamspy_scraper.mkScraper
             (if steamspy_scraper.test_mode examples_steamspy.config
              then steamspy_scraper.fresh_checkpoint (Some [9])
              else steamspy_scraper.checkpoint r.1)
             (steamspy_scraper.disk r.1) [] 0 0).
Proof.
  assert (steamspy_scraper.get_pending
            (steamspy_scraper.checkpoint (examples_steamspy.fresh [1; 2])) ≠ []) as H1
    by by_computation.
  split; [exact H1|].
  exact (new_scraper_resumes_from_the_saved_state examples_steamspy.config
           examples_steamspy.flaky (examples_steamspy.fresh [1; 2]) (Some [9]) [] H1).
Defined.

(** A timeout, a rate limit, and then a 403. *)
Definition slow_then_forbidden : nat → http_event steamspy_scraper.spy_body :=
  λ n, match n with
       | 0%nat => Timeout
       | 1%nat => Response 429 examples_steamspy.portal
       | _ => Response 403 examples_steamspy.portal
       end.

Lemma steamspy_fetch_decisive_answer_witness :
  (2 < 3)%nat
  ∧ (∀ j, (0 ≤ j < 0 + 2)%nat → retried (slow_then_forbidden j))
  ∧ slow_then_forbidden (0 + 2)%nat = Response 403 examples_steamspy.portal
  ∧ 403 ≠ 429
  ∧ steamspy_scraper.get_app_details_loop slow_then_forbidden 7 3 0
    = (if bool_decide (403 = 200)
       then if steamspy_scraper.body_falsy examples_steamspy.portal
               || steamspy_scraper.name_is_missing
                    (steamspy_scraper.body_name examples_steamspy.portal)
            then NoData
            else Payload (steamspy_scraper.body_doc examples_steamspy.portal)
       else NoData,
       S (0 + 2)).
Proof.
  assert ((2 < 3)%nat) as H1 by lia.
  assert (∀ j, (0 ≤ j < 0 + 2)%nat → retried (slow_then_forbidden j)) as H2.
  { intros [|[|j]] Hj; simpl; [done|done|lia]. }
  assert (slow_then_forbidden (0 + 2)%nat = Response 403 examples_steamspy.portal) as H3
    by reflexivity.
  assert (403 ≠ 429) as H4 by lia.
  split; [exact H1|]. split; [exact H2|]. split; [exact H3|]. split; [exact H4|].
  exact (steamspy_fetch_returns_the_first_decisive_answer slow_then_forbidden 7 3 0 2 403
           examples_steamspy.portal H1 H2 H3 H4).
Defined.

Lemma api_fetch_first_other_answer_witness :
  (1 < 5)%nat
  ∧ ∀ (network : nat → http_event (option steam_api_scraper_v2.details)),
      (∀ j, (0 ≤ j < 0 + 1)%nat → api_retried (network j)) →
      (∀ status entry,
         network (0 + 1)%nat = Response status entry → status ≠ 429 → status ≠ 403 →
         steam_api_scraper_v2.get_app_details network 7 5 0
         = (inr (if bool_decide (status = 200) then entry else None), S (0 + 1)))
      ∧ (∀ msg,
           network (0 + 1)%nat = RequestError msg →
           steam_api_scraper_v2.get_app_details network 7 5 0
           = (inl (steam_api_scraper_v2.RequestException msg), S (0 + 1))).
Proof.
  assert ((1 < 5)%nat) as H1 by lia.
  split; [exact H1|].
  exact (proj1 (api_fetch_returns_the_first_other_answer 7 5 0 1 H1)).
Defined.

Lemma api_run_keeps_partitions_disjoint_witness :
  (∀ s, examples_engines.ascending s ≡ₚ elements s)
  ∧ api_disjoint (steam_api_scraper_v2.checkpoint examples_engines.api_fresh)
  ∧ let c' :=
      steam_api_scraper_v2.checkpoint
        (steam_api_scraper_v2.run examples_engines.ascending examples_engines.api_config
           (examples_engines.always 500) 1000 {[1; 2]} examples_engines.api_fresh).1 in
    api_disjoint c'
    ∧ api_done (steam_api_scraper_v2.checkpoint examples_engines.api_fresh) ⊆ api_done c'
    ∧ api_done c'
      ⊆ api_done (steam_api_scraper_v2.checkpoint examples_engines.api_fresh) ∪ {[1; 2]}.
Proof.
  assert (api_disjoint (steam_api_scraper_v2.checkpoint examples_engines.api_fresh)) as H2
    by by_computation.
  split; [exact examples_engines.ascending_enumerates|]. split; [exact H2|].
  exact (api_run_keeps_partitions_disjoint examples_engines.ascending
           examples_engines.api_config (examples_engines.always 500) 1000 {[1; 2]}
           examples_engines.api_fresh examples_engines.ascending_enumerates H2).
Defined.

(** One page that announces more, then an error. *)
Definition one_page_then_error : Z → nat → http_event steam_api_scraper_v2.page :=
  λ _ n, match n with
         | 0%nat => Response 200 (steam_api_scraper_v2.mkPage [10; 20] true)
         | _ => Response 500 (steam_api_scraper_v2.mkPage [] false)
         end.

Lemma app_listing_collects_pages_witness :
  serves one_page_then_error [[10; 20]] 0 0
  ∧ (length [[10; 20]] < 5)%nat
  ∧ ends_listing (one_page_then_error (cursor [[10; 20]] 0) (length [[10; 20]]))
  ∧ steam_api_scraper_v2.get_all_app_ids one_page_then_error 5
    = Some (listed (concat [[10; 20]])
              (one_page_then_error (cursor [[10; 20]] 0) (length [[10; 20]])),
            S (length [[10; 20]])).
Proof.
  assert (serves one_page_then_error [[10; 20]] 0 0) as H1 by (by simpl).
  assert ((length [[10; 20]] < 5)%nat) as H2 by (simpl; lia).
  assert (ends_listing (one_page_then_error (cursor [[10; 20]] 0) (length [[10; 20]])))
    as H3 by (simpl; left; lia).
  split; [exact H1|]. split; [exact H2|]. split; [exact H3|].
  exact (app_listing_collects_pages_until_the_first_end one_page_then_error
           [[10; 20]] 5 H1 H2 H3).
Defined.

Definition always_more : Z → nat → http_event steam_api_scraper_v2.page :=
  λ _ _, Response 200 (steam_api_scraper_v2.mkPage [1] true).

Lemma app_listing_has_no_page_bound_witness :
  (∀ last k, ∃ batch,
     batch ≠ [] ∧ always_more last k = Response 200 (steam_api_scraper_v2.mkPage batch true))
  ∧ steam_api_scraper_v2.get_all_app_ids always_more 100 = None.
Proof.
  assert (∀ last k, ∃ batch,
            batch ≠ []
            ∧ always_more last k = Response 200 (steam_api_scraper_v2.mkPage batch true))
    as H1 by (intros last k; by exists [1]).
  split; [exact H1|].
  exact (app_listing_has_no_page_bound always_more 100 H1).
Defined.

Lemma junction_rows_reference_rows_witness :
  (∀ s : gset string, elements s ≡ₚ elements s)
  ∧ (∀ s : gset (Z * Z), elements s ≡ₚ elements s)
  ∧ let out :=
      insert_app_details.prepare_data examples_pipeline.no_date examples_pipeline.no_int
        elements elements examples_pipeline.two_coop in
    let appids := insert_app_details.g_appid <$> insert_app_details.games_table out in
    (∀ row, row ∈ insert_app_details.game_genres_table out →
            row.1 ∈ appids ∧ row.2 ∈ (insert_app_details.genres_table out).*1)
    ∧ (∀ row, row ∈ insert_app_details.game_categories_table out →
              row.1 ∈ appids ∧ row.2 ∈ (insert_app_details.categories_table out).*1)
    ∧ (∀ row, row ∈ insert_app_details.game_developers_table out →
              row.1 ∈ appids ∧ row.2 ∈ insert_app_details.developers_table out)
    ∧ (∀ row, row ∈ insert_app_details.game_publishers_table out →
              row.1 ∈ appids ∧ row.2 ∈ insert_app_details.publishers_table out).
Proof.
  assert (∀ s : gset string, elements s ≡ₚ elements s) as H1 by done.
  assert (∀ s : gset (Z * Z), elements s ≡ₚ elements s) as H2 by done.
  split; [exact H1|]. split; [exact H2|].
  exact (junction_rows_reference_rows_of_the_batch examples_pipeline.no_date
           examples_pipeline.no_int elements elements examples_pipeline.two_coop H1 H2).
Defined.

Lemma required_age_reads_fullwidth_digits_witness :
  is_ascii "18" = true
  ∧ insert_app_details.parse_required_age examples_pipeline.no_int
      (insert_app_details.AgeStr (to_fullwidth "18"))
    = insert_app_details.parse_required_age examples_pipeline.no_int
        (insert_app_details.AgeStr "18")
  ∧ insert_app_details.parse_required_age examples_pipeline.no_int
      (insert_app_details.AgeStr "18")
    = default 0 (examples_pipeline.no_int "18").
Proof.
  split; [reflexivity|].
  exact (required_age_reads_fullwidth_digits examples_pipeline.no_int "18" eq_refl).
Defined.

(** A checkpoint after every second app. *)
Definition every_second : steamspy_scraper.ScraperConfig :=
  steamspy_scraper.mkConfig "checkpoints" "checkpoints/apps_data.pkl" 2 3 false 20.

Lemma periodic_checkpoint_witness :
  steamspy_scraper.checkpoint_interval every_second ≠ 0
  ∧ (Z.of_nat 1 + 1) `mod` steamspy_scraper.checkpoint_interval every_second = 0
  ∧ match steamspy_scraper.run_states every_second examples_steamspy.unreachable
            (examples_steamspy.fresh [1; 2; 3]) !! 1%nat with
    | Some s =>
        checkpoint.load (steamspy_scraper.checkpoint_mgr every_second)
          steamspy_scraper.CHECKPOINT_NAME (Some TSteamSpyCheckpoint)
          (steamspy_scraper.disk s)
        = inr (Some (PySpy (steamspy_scraper.checkpoint s)))
    | None => True
    end.
Proof.
  assert (steamspy_scraper.checkpoint_interval every_second ≠ 0) as H1 by by_computation.
  assert ((Z.of_nat 1 + 1) `mod` steamspy_scraper.checkpoint_interval every_second = 0)
    as H2 by reflexivity.
  split; [exact H1|]. split; [exact H2|].
  exact (periodic_checkpoint_holds_the_state_of_the_moment every_second
           examples_steamspy.unreachable (examples_steamspy.fresh [1; 2; 3]) 1 H1 H2).
Defined.

End examples_more.
